(** * Kahuna-Kid: structured-output extraction and bounded fan-out

    A shallow embedding of
      - [StructuredOutputChain.completion_parser]   (continuation controller),
      - [PromptOrchestratorAgent.invoke_many] and
        [PromptOrchestratorAgent.invoke_many_agent] (fan-out orchestrator),
      - [PromptOrchestratorSidekick.md_table_to_pydantic_list] (table extractor),
    together with the properties the specification states about them.

    Python strings are sequences of Unicode code points; they are modelled
    as lists of code points ([N]).  Character classes ([str.isspace],
    [str.isdigit], [str.lower]) are those of CPython on the Latin-1 range,
    plus the Unicode white space above it; see [Py]. *)

From Stdlib Require Import NArith ZArith Lia List Ascii String Bool.
From stdpp Require Import base option list gmap.
Import ListNotations.

Set Default Proof Using "Type".
Local Open Scope N_scope.

(* ===================================================================== *)
(** ** Python strings *)
(* ===================================================================== *)

Module Py.

(** A character is a code point, a string a list of them. *)
Abbreviation char := N.
Abbreviation str := (list N).

(** [lit "abc"] is the Python literal ['abc'] (ASCII literals only). *)
Definition lit (s : string) : str :=
  List.map N_of_ascii (list_ascii_of_string s).

Definition ch (a : ascii) : char := N_of_ascii a.

Definition c_space : char := 32.
Definition c_dash : char := 45.
Definition c_pipe : char := 124.
Definition c_colon : char := 58.
Definition c_nl : char := 10.
Definition c_backslash : char := 92.
(** U+2016 DOUBLE VERTICAL LINE and U+00A6 BROKEN BAR, the two sentinels
    the table sanitizer substitutes for escaped delimiters. *)
Definition c_dvline : char := 8214.
Definition c_brokenbar : char := 166.
(** U+2026, the ellipsis appended to a truncated preview. *)
Definition c_ellipsis : char := 8230.

(** [str.isspace] on one code point (the set used by [str.strip()] and by
    [\s] in [re] on [str] patterns). *)
Definition is_space (c : char) : bool :=
  ((9 <=? c) && (c <=? 13)) || ((28 <=? c) && (c <=? 32))
  || (c =? 133) || (c =? 160) || (c =? 5760)
  || ((8192 <=? c) && (c <=? 8202))
  || (c =? 8232) || (c =? 8233) || (c =? 8239) || (c =? 8287) || (c =? 12288).

Definition str_eqb (a b : str) : bool := bool_decide (a = b).

Fixpoint lstrip_by (p : char -> bool) (s : str) : str :=
  match s with
  | c :: s' => if p c then lstrip_by p s' else s
  | [] => []
  end.

Definition rstrip_by (p : char -> bool) (s : str) : str :=
  rev (lstrip_by p (rev s)).

Definition strip_by (p : char -> bool) (s : str) : str :=
  rstrip_by p (lstrip_by p s).

(** [s.strip()], [s.rstrip()] *)
Definition strip (s : str) : str := strip_by is_space s.
Definition rstrip (s : str) : str := rstrip_by is_space s.
(** [s.strip("|")] *)
Definition strip_chars (cs : list char) (s : str) : str :=
  strip_by (fun c => bool_decide (c ∈ cs)) s.

(** [s.startswith(p)] *)
Fixpoint startswith (p s : str) : bool :=
  match p, s with
  | [], _ => true
  | a :: p', b :: s' => (a =? b) && startswith p' s'
  | _ :: _, [] => false
  end.

(** [s.endswith(p)] *)
Definition endswith (p s : str) : bool := startswith (rev p) (rev s).

(** [s.replace(c, "")] for a one-character [c]. *)
Definition remove_char (c : char) (s : str) : str :=
  List.filter (fun x => negb (x =? c)) s.

(** [s.replace(old, new)], left to right, non-overlapping; [old] is never
    empty at the call sites.  The fuel is the length of the text. *)
Fixpoint replace_fuel (fuel : nat) (old new s : str) : str :=
  match fuel with
  | O => s
  | S fuel' =>
      match s with
      | [] => []
      | c :: s' =>
          if startswith old s
          then new ++ replace_fuel fuel' old new (drop (length old) s)
          else c :: replace_fuel fuel' old new s'
      end
  end.

Definition replace (old new s : str) : str :=
  replace_fuel (length s) old new s.

(** [str.lower] on one code point: ASCII and Latin-1 capitals. *)
Definition lower_char (c : char) : char :=
  if ((65 <=? c) && (c <=? 90)) then c + 32
  else if ((192 <=? c) && (c <=? 222) && negb (c =? 215)) then c + 32
  else c.

Definition lower (s : str) : str := List.map lower_char s.

(** [c * n] *)
Definition repeat_char (c : char) (n : nat) : str := List.repeat c n.

(** [sep.join(parts)] *)
Fixpoint join (sep : str) (parts : list str) : str :=
  match parts with
  | [] => []
  | [p] => p
  | p :: rest => p ++ sep ++ join sep rest
  end.

(** [s.split(c)] for a one-character separator: never returns the empty
    list. *)
Fixpoint split (c : char) (s : str) : list str :=
  match s with
  | [] => [[]]
  | x :: s' =>
      if x =? c then [] :: split c s'
      else match split c s' with
           | p :: ps => (x :: p) :: ps
           | [] => [[x]]
           end
  end.

(** [s.count(c)] for a one-character [c]. *)
Definition count_char (c : char) (s : str) : nat :=
  length (List.filter (fun x => x =? c) s).

(** [s.find(c)] and [s.rfind(c)] for a one-character [c]; [None] is -1. *)
Fixpoint find_char (c : char) (s : str) : option nat :=
  match s with
  | [] => None
  | x :: s' => if x =? c then Some O else S <$> find_char c s'
  end.

Definition rfind_char (c : char) (s : str) : option nat :=
  (fun k => length s - 1 - k)%nat <$> find_char c (rev s).

(** [s[i:j]] for [0 <= i], [0 <= j]. *)
Definition slice (i j : nat) (s : str) : str := drop i (take j s).

End Py.

Import Py.

(* ===================================================================== *)
(** ** Completion continuation controller
       ([StructuredOutputChain.create_completion_parser]) *)
(* ===================================================================== *)

Module Continuation.

Inductive Role := user | assistant.

Record Msg := mkMsg { role : Role; content : str }.

Definition History := list Msg.

(** What [llm.invoke(history)] does: it returns a reply or raises. *)
Inductive GatewayResult :=
| Reply (text : str)
| GatewayError.

(** The two [ValueError]s [completion_parser] raises, told apart by their
    message: "The response is empty or seems repeated" (with the ratio it
    prints) and "... unable to complete its response within the
    continuation limit". *)
Inductive ParserError :=
| DegenerateOutput (ratio : nat)
| ContinuationExhausted.

(** [completion_expected_end_token]: [None], one string, or a tuple. *)
Inductive EndToken :=
| NoEndToken
| OneEndToken (tok : str)
| EndTokens (toks : list str).

(** The closers of the heuristic branch of [is_complete]. *)
Definition heuristic_endings : list str :=
  [lit "."; lit ";"; lit "!"; lit "?"; lit "`"; lit "}"; [c_nl]; lit "|";
   lit "-"; lit "*"; [34]; lit "'"; lit ">"; lit "]"; [8221]; lit "/";
   [12305]].

Definition is_complete (end_token : EndToken) (text : str) : bool :=
  let s := strip text in
  match s with
  | [] => false
  | _ =>
      match end_token with
      | NoEndToken => existsb (fun tok => endswith tok s) heuristic_endings
      | EndTokens toks => existsb (fun tok => endswith tok s) toks
      | OneEndToken tok => endswith tok s
      end
  end.

(** [re.search(c{n}, s)]: the leftmost index at which [n] copies of [c]
    start. *)
Fixpoint search_run (c : char) (n : nat) (s : str) : option nat :=
  if startswith (repeat_char c n) s then Some O
  else match s with
       | [] => None
       | _ :: s' => S <$> search_run c n s'
       end.

(** [re.compile([^c]).search(s, i)]: the first index at or after [i] whose
    character is not [c]. *)
Fixpoint search_not (c : char) (s : str) (i : nat) : option nat :=
  match i, s with
  | O, [] => None
  | O, x :: s' => if x =? c then S <$> search_not c s' O else Some O
  | S i', [] => None
  | S i', _ :: s' => S <$> search_not c s' i'
  end.

(** One pass of the body of the [while True] loop that shortens runs:
    [Some s'] when a run of 101 dashes (first) or of 101 spaces was cut
    to 100, [None] when the loop breaks. *)
Definition collapse_step (s : str) : option str :=
  match search_run c_dash 101 s with
  | Some i =>
      let j := default (length s) (search_not c_dash s i) in
      Some (take i s ++ repeat_char c_dash 100 ++ drop j s)
  | None =>
      match search_run c_space 101 s with
      | Some i =>
          let j := default (length s) (search_not c_space s i) in
          Some (take i s ++ repeat_char c_space 100 ++ drop j s)
      | None => None
      end
  end.

(** The loop; [None] would mean the fuel ran out before the [break]. *)
Fixpoint collapse_loop (fuel : nat) (s : str) : option str :=
  match fuel with
  | O => None
  | S fuel' =>
      match collapse_step s with
      | Some s' => collapse_loop fuel' s'
      | None => Some s
      end
  end.

(** Every pass shortens the text, so its length (plus one) is enough fuel:
    see [collapse_loop_total]. *)
Definition collapse_runs (s : str) : str :=
  default s (collapse_loop (S (length s)) s).

(** The same step in the specification's words: every run of more than 100
    identical space or dash characters is cut down to exactly 100.  [n]
    counts the copies of [prev] that end the text emitted so far. *)
Definition is_padding (c : char) : bool := (c =? c_space) || (c =? c_dash).

Fixpoint cut_runs (prev : char) (n : nat) (s : str) : str :=
  match s with
  | [] => []
  | x :: s' =>
      if x =? prev
      then if is_padding x && (100 <=? n)%nat
           then cut_runs prev n s'
           else x :: cut_runs prev (S n) s'
      else x :: cut_runs x 1 s'
  end.

Definition collapse_spec (s : str) : str := cut_runs 0 0 s.

(** The compacted form: spaces and dashes removed. *)
Definition compacted (s : str) : str :=
  remove_char c_dash (remove_char c_space s).

Definition continue_prompt : str :=
  lit "Continue your previous response from the last word onward, without repeating. Do not restart or summarize. If you already finished, reply only with 'completed.'".

Definition sentinel : str := lit "completed.".

(** [current_completion.lower() != "completed."] *)
Definition is_sentinel (s : str) : bool := str_eqb (lower s) sentinel.

(** The stitched text: contents of the assistant turns, in order. *)
Definition assemble (h : History) : str :=
  concat (List.map content
            (List.filter (fun m => match role m with assistant => true | user => false end) h)).

(** The outcome of the controller before the repair step, with the
    requests made to the gateway (each one is the history sent). *)
Record Run := mkRun {
  outcome : ParserError + str;
  requests : list History
}.

Section Controller.

Variable llm : History -> GatewayResult.
Variable end_token : EndToken.
Variable max_continuations : nat.

(** The continuation loop, lines 202-226.  [fuel] bounds the number of
    loop tests; [None] would mean it ran out. *)
Fixpoint continue_loop (fuel : nat) (turns : nat) (current : str)
    (history : History) (reqs : list History) : option Run :=
  match fuel with
  | O => None
  | S fuel' =>
      if negb (is_sentinel current) && negb (is_complete end_token current)
      then
        if (max_continuations <=? turns)%nat
        then Some (mkRun (inl ContinuationExhausted) reqs)
        else
          let history1 := history ++ [mkMsg user continue_prompt] in
          match llm history1 with
          | GatewayError =>
              Some (mkRun (inr (assemble history1)) (reqs ++ [history1]))
          | Reply nxt =>
              let current' := strip nxt in
              if negb (is_sentinel current')
              then continue_loop fuel' (S turns) current'
                     (history1 ++ [mkMsg assistant nxt]) (reqs ++ [history1])
              else Some (mkRun (inr (assemble history1)) (reqs ++ [history1]))
          end
      else Some (mkRun (inr (assemble history)) reqs)
  end.

(** [completion_parser] up to the text it hands to
    [fixing_parser.parse]; [first] is the content of the first reply. *)
Definition completion_assemble (prompt : str) (first : str) : option Run :=
  let history := [mkMsg user prompt; mkMsg assistant first] in
  let current0 := strip first in
  let compact := compacted current0 in
  let current := collapse_runs current0 in
  if (length compact =? 0)%nat
     || (9 <=? length current / Nat.max 1 (length compact))%nat
  then Some (mkRun (inl (DegenerateOutput
                           (length current / Nat.max 1 (length compact))%nat)) [])
  else continue_loop (S (S max_continuations)) 0 current history [].

End Controller.

(** The degenerate-output test of line 198 on an already trimmed reply. *)
Definition degenerate (s : str) : bool :=
  let compact := compacted s in
  (length compact =? 0)%nat
  || (9 <=? length (collapse_runs s) / Nat.max 1 (length compact))%nat.

(** The text the controller tests after the first reply: trimmed, runs
    collapsed (the value of [current_completion] at line 202). *)
Definition first_view (first : str) : str := collapse_runs (strip first).

(** The texts the loop test of line 203 sees for a first reply and the
    continuation replies that follow it. *)
Definition tested (first : str) (rest : list str) : list str :=
  first_view first :: List.map strip rest.

(** A gateway that plays a script: its k-th reply (k = 0, 1, ...) answers
    the request whose history holds k+1 continuation prompts, and it
    raises once the script is over. *)
Definition scripted (script : list str) (h : History) : GatewayResult :=
  let k := length (List.filter
                     (fun m => match role m with user => true | _ => false end) h) in
  match script !! (k - 2)%nat with
  | Some r => if (2 <=? k)%nat then Reply r else GatewayError
  | None => GatewayError
  end.

End Continuation.


(* ===================================================================== *)
(** ** Bounded concurrency fan-out
       ([PromptOrchestratorAgent.invoke_many], [invoke_many_agent]) *)
(* ===================================================================== *)

Module Fanout.

(** What awaiting a coroutine gives: a value, or a raised [Exception]. *)
Inductive Res (E A : Type) :=
| Val (a : A)
| Exc (e : E).
Arguments Val {E A} a.
Arguments Exc {E A} e.

(** [asyncio.Semaphore(concurrency) if concurrency and concurrency > 0
    else None], after [if concurrency is None: concurrency =
    self.concurrency]; [None] is no semaphore. *)
Definition effective_concurrency (self_concurrency : Z) (concurrency : option Z) : Z :=
  default self_concurrency concurrency.

Definition make_semaphore (concurrency : Z) : option nat :=
  if (0 <? concurrency)%Z then Some (Z.to_nat concurrency) else None.

(** *** The event loop over the [run_one] tasks

    A task [run_one(i, p)] waits for the semaphore (when there is one),
    does its guarded work, releases the semaphore on the way out (the
    [async with] block) and completes.  The event loop interleaves the
    tasks; a schedule names the task that moves next. *)

Inductive Status := Waiting | Running | Done.

#[global] Instance Status_eq_dec : EqDecision Status.
Proof. solve_decision. Defined.

Record Loop := mkLoop {
  status : list Status;     (* one entry per submitted unit *)
  permits : option nat;     (* the semaphore's counter *)
  finished : list nat       (* completion order *)
}.

Definition start (K : nat) (sem : option nat) : Loop :=
  mkLoop (replicate K Waiting) sem [].

Definition step (st : Loop) (i : nat) : Loop :=
  match status st !! i with
  | Some Waiting =>
      match permits st with
      | None => mkLoop (<[i := Running]> (status st)) None (finished st)
      | Some (S n) =>
          mkLoop (<[i := Running]> (status st)) (Some n) (finished st)
      | Some O => st
      end
  | Some Running =>
      mkLoop (<[i := Done]> (status st)) (S <$> permits st)
        (finished st ++ [i])
  | _ => st
  end.

Definition run (schedule : list nat) (st : Loop) : Loop :=
  foldl step st schedule.

(** Units inside their semaphore-guarded work. *)
Definition in_flight (st : Loop) : nat :=
  length (List.filter (fun s => bool_decide (s = Running)) (status st)).

Definition all_done (st : Loop) : bool :=
  forallb (fun s => bool_decide (s = Done)) (status st).

Section Gather.

Context {E X : Type}.

(** The result of the task of unit [i] once it completes. *)
Variable task : nat -> Res E X.

(** [await asyncio.gather] of the tasks with [return_exceptions=False]: it raises as
    soon as a task has completed with an exception, and otherwise returns,
    once every task is done, the results in the order of the tasks.
    [None]: still pending. *)
Definition first_raised (done : list nat) : option E :=
  head (omap (fun i => match task i with Exc e => Some e | Val _ => None end) done).

Definition values (K : nat) : list X :=
  omap (fun i => match task i with Val x => Some x | Exc _ => None end) (seq 0 K).

Definition gather (st : Loop) : option (Res E (list X)) :=
  match first_raised (finished st) with
  | Some e => Some (Exc e)
  | None =>
      if all_done st then Some (Val (values (length (status st)))) else None
  end.

End Gather.

(** [results.sort(key=lambda x: x[0])]: a stable insertion sort. *)
Fixpoint insert_by_index {A} (x : nat * A) (l : list (nat * A)) : list (nat * A) :=
  match l with
  | [] => [x]
  | y :: l' => if (x.1 <? y.1)%nat then x :: l else y :: insert_by_index x l'
  end.

Definition sort_by_index {A} (l : list (nat * A)) : list (nat * A) :=
  foldr insert_by_index [] l.

(** *** [invoke_many] *)

Section InvokeMany.

(** [E]: exceptions; [V]: what [self.invoke] returns (a string, a record
    list, or whatever the parser returns), taken not to be an exception
    object. *)
Context {E V : Type}.

(** [await self.invoke(prompt, model, parser)] for the prompt of index
    [i]. *)
Variable invoke : nat -> Res E V.

(** [run_one]: the [try ... except Exception as e: return idx, e]. *)
Definition run_one (i : nat) : Res E (nat * (E + V)) :=
  match invoke i with
  | Val v => Val (i, inr v)
  | Exc e => Val (i, inl e)
  end.

(** Lines 172-181. *)
Fixpoint propagate (results : list (nat * (E + V))) (first_exc : option E)
    (out : list (E + V)) : Res E (list (E + V)) :=
  match results with
  | (_, r) :: rest =>
      let first_exc' :=
        match r, first_exc with
        | inl e, None => Some e
        | _, _ => first_exc
        end in
      propagate rest first_exc' (out ++ [r])
  | [] =>
      match first_exc with
      | Some e => Exc e
      | None => Val out
      end
  end.

(** [invoke_many(prompts, model, parser, concurrency)] with [K] prompts,
    under a schedule of the event loop; [None]: [gather] is still pending
    when the schedule ends. *)
Definition invoke_many (self_concurrency : Z) (concurrency : option Z)
    (K : nat) (schedule : list nat) : option (Res E (list (E + V))) :=
  let sem := make_semaphore (effective_concurrency self_concurrency concurrency) in
  match gather run_one (run schedule (start K sem)) with
  | None => None
  | Some (Exc e) => Some (Exc e)
  | Some (Val results) => Some (propagate (sort_by_index results) None [])
  end.

(** The specification's reading of the result: the error of the failing
    unit of least index, or else all values in submission order. *)
Definition first_error (K : nat) : option E :=
  head (omap (fun i => match invoke i with Exc e => Some e | Val _ => None end)
          (seq 0 K)).

Definition all_values (K : nat) : list (E + V) :=
  List.map (fun i => match invoke i with Val v => inr v | Exc e => inl e end)
    (seq 0 K).

End InvokeMany.

(** *** [invoke_many_agent] *)

(** An exception, as far as the orchestrator looks at it:
    [type(e).__name__] and [str(e)]. *)
Record Exn := mkExn { exn_type : str; exn_msg : str }.

(** [f"{idx:06d}"]: decimal, padded with zeros to six digits. *)
Fixpoint digits_of_uint (d : Decimal.uint) : str :=
  match d with
  | Decimal.Nil => []
  | Decimal.D0 d => 48 :: digits_of_uint d
  | Decimal.D1 d => 49 :: digits_of_uint d
  | Decimal.D2 d => 50 :: digits_of_uint d
  | Decimal.D3 d => 51 :: digits_of_uint d
  | Decimal.D4 d => 52 :: digits_of_uint d
  | Decimal.D5 d => 53 :: digits_of_uint d
  | Decimal.D6 d => 54 :: digits_of_uint d
  | Decimal.D7 d => 55 :: digits_of_uint d
  | Decimal.D8 d => 56 :: digits_of_uint d
  | Decimal.D9 d => 57 :: digits_of_uint d
  end.

Definition format_06d (idx : nat) : str :=
  let ds := digits_of_uint (Nat.to_uint idx) in
  repeat_char 48 (6 - length ds) ++ ds.

(** [\w] of [re] on the Latin-1 range: [str.isalnum] or underscore. *)
Definition is_word (c : char) : bool :=
  ((48 <=? c) && (c <=? 57)) || ((65 <=? c) && (c <=? 90))
  || ((97 <=? c) && (c <=? 122)) || (c =? 95)
  || (c =? 170) || (c =? 178) || (c =? 179) || (c =? 181)
  || ((185 <=? c) && (c <=? 186)) || ((188 <=? c) && (c <=? 190))
  || ((192 <=? c) && (c <=? 214)) || ((216 <=? c) && (c <=? 246))
  || ((248 <=? c) && (c <=? 255)).

(** [re.sub(r"\W+", "_", name)]; [in_run]: the previous character was
    part of the run being replaced. *)
Fixpoint sub_nonword (in_run : bool) (s : str) : str :=
  match s with
  | [] => []
  | c :: s' =>
      if is_word c then c :: sub_nonword false s'
      else if in_run then sub_nonword true s'
      else 95 :: sub_nonword true s'
  end.

Definition is_name_start (c : char) : bool :=
  ((65 <=? c) && (c <=? 90)) || ((97 <=? c) && (c <=? 122)) || (c =? 95).

Definition _sanitize_name (name : str) : str :=
  let x := sub_nonword false name in
  match x with
  | [] => lit "a_agent"
  | c :: _ => if is_name_start c then x else lit "a_" ++ x
  end.

(** [param_preview]: the serialized input, cut after 800 characters. *)
Definition truncate_preview (s : str) : str :=
  if (800 <? length s)%nat then take 800 s ++ [c_ellipsis] else s.

Section InvokeManyAgent.

(** [P]: the inputs; [Ctx]: the invocation contexts of the children. *)
Context {P Ctx : Type}.

(** [self.name], [agent_cls.__name__], and [json.dumps] (with its [str]
    fallback) of the payload [{"params": p, "idx": idx}]. *)
Variable self_name : str.
Variable agent_cls_name : str.
Variable dumps : P -> nat -> str.

(** What happens to the child of a unit: spawning it raises, it runs to
    its end in its context, or it raises while running (with the tail of
    the traceback). *)
Inductive ChildRun :=
| SpawnRaises (e : Exn)
| ChildCompletes (ctx : Ctx)
| ChildRaises (ctx : Ctx) (e : Exn) (tb_tail : str).

Variable child : nat -> P -> ChildRun.

Definition unit_name (idx : nat) : str :=
  self_name ++ lit ".child." ++ format_06d idx.

(** The child sanitizes the name it is given in its constructor. *)
Definition child_name (idx : nat) : str := _sanitize_name (unit_name idx).

(** The entry [invoke_one_agent] leaves in the child's session state
    under ["errors"] (its interpreter-made fields left out). *)
Record SessionError := mkSessionError {
  se_agent : str;
  se_message : str;
  se_param_preview : str
}.

(** [invoke_one_agent(agent_cls, payload, name)]: its result, and the
    entry written to the child's session state when the child raised. *)
Definition invoke_one_agent (idx : nat) (p : P)
    : Res Exn (str * Ctx) * option SessionError :=
  match child idx p with
  | SpawnRaises e => (Exc e, None)
  | ChildCompletes ctx => (Val (child_name idx, ctx), None)
  | ChildRaises ctx e tb_tail =>
      (Exc (mkExn (lit "RuntimeError")
              (agent_cls_name ++ lit " '" ++ child_name idx ++ lit "' failed: "
               ++ exn_type e ++ lit ": " ++ exn_msg e ++ [c_nl]
               ++ lit "Traceback (tail):" ++ [c_nl] ++ tb_tail)),
       Some (mkSessionError agent_cls_name (exn_msg e)
               (truncate_preview (dumps p idx))))
  end.

Record FailureRecord := mkFailure {
  fr_name : str;
  fr_idx : nat;
  fr_error : str;
  fr_param : P
}.

(** [run_one(idx, p)]: its result and what it appends to [failures]. *)
Definition run_one_agent (idx : nat) (p : P)
    : Res Exn (option (str * Ctx)) * list FailureRecord :=
  match (invoke_one_agent idx p).1 with
  | Val r => (Val (Some r), [])
  | Exc e =>
      (Val None,
       [mkFailure (unit_name idx) idx (exn_type e ++ lit ": " ++ exn_msg e) p])
  end.

Variable params : list P.

Definition agent_task (i : nat) : Res Exn (option (str * Ctx)) :=
  match params !! i with
  | Some p => (run_one_agent i p).1
  | None => Val None
  end.

(** The shared [failures] list: each task appends when it completes. *)
Definition failures_of (done : list nat) : list FailureRecord :=
  flat_map (fun i => match params !! i with
                     | Some p => (run_one_agent i p).2
                     | None => []
                     end) done.

(** Lines 288-292. *)
Definition merge_results (results : list (option (str * Ctx))) : gmap str Ctx :=
  foldl (fun merged r => match r with
                         | Some (name, child_ctx) => <[name := child_ctx]> merged
                         | None => merged
                         end) ∅ results.

Definition invoke_many_agent (self_concurrency : Z) (concurrency : option Z)
    (schedule : list nat)
    : option (Res Exn (gmap str Ctx * list FailureRecord)) :=
  let sem := make_semaphore (effective_concurrency self_concurrency concurrency) in
  let st := run schedule (start (length params) sem) in
  match gather agent_task st with
  | None => None
  | Some (Exc e) => Some (Exc e)
  | Some (Val results) =>
      Some (Val (merge_results results, failures_of (finished st)))
  end.

End InvokeManyAgent.

End Fanout.

(* ===================================================================== *)
(** ** Table extraction
       ([PromptOrchestratorSidekick.md_table_to_pydantic_list]) *)
(* ===================================================================== *)

Module Table.

(** *** Schema and records *)

(** The annotation of a field as the extractor tests it: [int], [float],
    [bool], or anything else (handled as [str]). *)
Inductive FieldType := TInt | TFloat | TBool | TOther.

(** [model.__annotations__]: field names in declaration order. *)
Definition Schema := list (str * FieldType).

(** A float is kept as the decimal it was read from: [VFloat m k] is
    [m / 10^k] (binary rounding, and with it the overflow to infinity, is
    not modelled). *)
Inductive Value :=
| VNone
| VInt (n : N)
| VFloat (m : N) (k : nat)
| VBool (b : bool)
| VStr (s : str).

(** [data_dict], the keyword arguments handed to the model constructor,
    in insertion order. *)
Definition Instance := list (str * Value).

(** The model class, a parameter of the extractor: its annotations and
    its constructor, called at line 770 with [data_dict] as keyword
    arguments: it validates them and either builds an object or raises. *)
Record Model (Obj : Type) := mkModel {
  annotations : Schema;
  construct : Instance -> option Obj
}.

Arguments mkModel {Obj} _ _.
Arguments annotations {Obj} _.
Arguments construct {Obj} _ _.

Inductive TableError :=
| TableBoundariesInvalid    (* ValueError, line 649 *)
| ColumnCountUndetermined   (* ValueError, line 667 *)
| ColumnIndexError          (* IndexError from cols[j], line 742 *)
| IntLiteralError           (* ValueError from int(), line 761 *)
| ModelValidationError.     (* ValidationError from model(), line 770 *)

Inductive TableResult (Obj : Type) :=
| Raises (e : TableError)
| ReturnsNone
| ReturnsEmptyList          (* the bare [[]] of line 720 *)
| ReturnsPair (instances : list Obj) (defective_lines : list str).

Arguments Raises {Obj} _.
Arguments ReturnsNone {Obj}.
Arguments ReturnsEmptyList {Obj}.
Arguments ReturnsPair {Obj} _ _.

(** [models.Node]: two required [str] fields.  Its constructor wants both
    keys with a string each. *)
Record NodeObj := mkNode { uid : str; content : str }.

Definition dict_get (key : str) (d : Instance) : option Value :=
  snd <$> List.find (fun kv => str_eqb (fst kv) key) d.

Definition Node : Model NodeObj :=
  mkModel [(lit "uid", TOther); (lit "content", TOther)]
    (fun d =>
       match dict_get (lit "uid") d, dict_get (lit "content") d with
       | Some (VStr u), Some (VStr c) => Some (mkNode u c)
       | _, _ => None
       end).

(** *** Character tests *)

Definition is_ascii_digit (c : char) : bool := (48 <=? c) && (c <=? 57).

(** The decimal digits of Unicode (category Nd, Unicode 14 as in
    CPython 3.11) come in runs of ten, zero first; these are the code
    points of the zeros. *)
Definition decimal_zeros : list N :=
  [48; 1632; 1776; 1984; 2406; 2534; 2662; 2790; 2918; 3046; 3174; 3302;
   3430; 3558; 3664; 3792; 3872; 4160; 4240; 6112; 6160; 6470; 6608; 6784;
   6800; 6992; 7088; 7232; 7248; 42528; 43216; 43264; 43472; 43504; 43600;
   44016; 65296; 66720; 68912; 69734; 69872; 69942; 70096; 70384; 70736;
   70864; 71248; 71360; 71472; 71904; 72016; 72784; 73040; 73120; 92768;
   92864; 93008; 120782; 120792; 120802; 120812; 120822; 123200; 123632;
   125264; 130032].

(** The value of a decimal digit; [None] for any other code point. *)
Definition decimal_value (c : char) : option N :=
  (fun z => c - z)
    <$> List.find (fun z => (z <=? c) && (c <=? z + 9)) decimal_zeros.

(** [c.isdecimal()], which is also [\d] of [re] on [str] patterns. *)
Definition is_decimal_char (c : char) : bool :=
  match decimal_value c with Some _ => true | None => false end.

(** The digits that are not decimal digits (superscripts, circled digits
    and the like), as ranges. *)
Definition other_digits : list (N * N) :=
  [(178, 179); (185, 185); (4969, 4977); (6618, 6618); (8304, 8304);
   (8308, 8313); (8320, 8329); (9312, 9320); (9332, 9340); (9352, 9360);
   (9450, 9450); (9461, 9469); (9471, 9471); (10102, 10110);
   (10112, 10120); (10122, 10130); (68160, 68163); (69216, 69224);
   (69714, 69722); (127232, 127242)].

(** [str.isdigit] on one code point. *)
Definition is_digit_char (c : char) : bool :=
  is_decimal_char c
  || existsb (fun r => (fst r <=? c) && (c <=? snd r)) other_digits.

(** [s.isdigit()] *)
Definition isdigit (s : str) : bool :=
  match s with [] => false | _ => forallb is_digit_char s end.

(** The value of a string of decimal digits. *)
Definition digits_value (s : str) : N :=
  fold_left (fun acc c => 10 * acc + default 0 (decimal_value c)) s 0.

(** [sys.get_int_max_str_digits()], at its default. *)
Definition int_max_str_digits : N := 4300.

(** [int(s)] for an [s] with [s.isdigit()]: it raises on a digit that is
    not a decimal digit, and on more digits than the interpreter's limit
    for integer strings. *)
Definition int_of_digits (s : str) : option N :=
  if forallb is_decimal_char s && (N.of_nat (length s) <=? int_max_str_digits)
  then Some (digits_value s) else None.

(** [re.match(r"^\d+(\.\d+)?$", s)] for an [s] without line breaks;
    returns the integer and the fractional digits. *)
Definition match_decimal (s : str) : option (str * str) :=
  match split 46 s with
  | [a] =>
      if negb (bool_decide (a = [])) && forallb is_decimal_char a
      then Some (a, []) else None
  | [a; b] =>
      if negb (bool_decide (a = [])) && forallb is_decimal_char a
         && negb (bool_decide (b = [])) && forallb is_decimal_char b
      then Some (a, b) else None
  | _ => None
  end.

(** [sub in s] *)
Fixpoint contains (sub s : str) : bool :=
  startswith sub s
  || match s with
     | [] => false
     | _ :: s' => contains sub s'
     end.

(** *** [remove_markdown] *)

Definition remove_markdown (text : str) : str :=
  let text := replace (lit "***") (lit " ") text in
  let text := replace (lit "**") (lit " ") text in
  let text := replace (lit " _") (lit " ") text in
  let text := replace (lit "_ ") (lit " ") text in
  strip text.

(** *** [sanitize_table] *)

(** [re.fullmatch(r'\|[\s:\-|]+\|', s)] *)
Definition divider_char (c : char) : bool :=
  is_space c || (c =? c_colon) || (c =? c_dash) || (c =? c_pipe).

Definition is_divider_re (s : str) : bool :=
  match s with
  | c :: rest =>
      (c =? c_pipe)
      && match rev rest with
         | l :: mid =>
             (l =? c_pipe) && negb (bool_decide (mid = []))
             && forallb divider_char mid
         | [] => false
         end
  | [] => false
  end.

(** [s.startswith('|') and s.endswith('|')] *)
Definition is_row (s : str) : bool :=
  startswith [c_pipe] s && endswith [c_pipe] s.

(** [s[1:-1]] *)
Definition inner_of (s : str) : str := drop 1 (take (length s - 1) s).

(** [re.sub(re.escape(kw), "", s, flags=re.IGNORECASE)]: letters are
    compared through [lower_char]. *)
Fixpoint remove_ci_fuel (fuel : nat) (kw s : str) : str :=
  match fuel with
  | O => s
  | S fuel' =>
      match s with
      | [] => []
      | c :: s' =>
          if startswith kw (lower s)
          then remove_ci_fuel fuel' kw (drop (length kw) s)
          else c :: remove_ci_fuel fuel' kw s'
      end
  end.

Definition remove_ci (kw s : str) : str := remove_ci_fuel (length s) kw s.

(** [KEYWORD_ROWS] is a set of two strings; the loop of line 639 visits
    them in the order the interpreter's hashing gives, which the caller
    of the model supplies. *)
Definition kw_long : str := lit "end of report.".
Definition kw_short : str := lit "end of report".

Definition _is_keyword_row (keyword_rows : list str) (line : str) : bool :=
  let s := strip line in
  if negb (is_row s) then false
  else if is_divider_re s then false
  else
    let inner := inner_of s in
    let lowered := lower inner in
    let inner :=
      fold_left (fun inner kw =>
                   if contains kw lowered then remove_ci kw inner else inner)
        keyword_rows inner in
    bool_decide
      (strip (remove_char c_pipe (remove_char c_colon
                (remove_char c_dash (remove_char c_space inner)))) = []).

(** [smart_pipe_replace]: a delimiter that has not two spaces on its left
    and has not two spaces on its right becomes a broken bar; positions
    2 .. len-3 only.  The tests only compare neighbours with the space,
    so the earlier replacements of the same pass do not change them. *)
Definition smart_pipe_replace (line : str) : str :=
  imap (fun i c =>
          if (2 <=? i)%nat && (i + 2 <? length line)%nat && (c =? c_pipe)
             && negb (bool_decide (line !! (i - 2)%nat = Some c_space)
                      && bool_decide (line !! (i - 1)%nat = Some c_space))
             && negb (bool_decide (line !! (i + 2)%nat = Some c_space)
                      && bool_decide (line !! (i + 1)%nat = Some c_space))
          then c_brokenbar else c) line.

(** [re.sub(r'\|\s*<br>\s*\|', '|\n|', s)]: [match_br] recognises the
    pattern at the head and returns what follows it. *)
Definition match_br (s : str) : option str :=
  match s with
  | c :: r =>
      if c =? c_pipe then
        let r1 := lstrip_by is_space r in
        if startswith (lit "<br>") r1 then
          match lstrip_by is_space (drop 4 r1) with
          | p :: r3 => if p =? c_pipe then Some r3 else None
          | [] => None
          end
        else None
      else None
  | [] => None
  end.

Fixpoint sub_br_fuel (fuel : nat) (s : str) : str :=
  match fuel with
  | O => s
  | S fuel' =>
      match s with
      | [] => []
      | c :: r =>
          match match_br s with
          | Some rest => c_pipe :: c_nl :: c_pipe :: sub_br_fuel fuel' rest
          | None => c :: sub_br_fuel fuel' r
          end
      end
  end.

Definition sub_br (s : str) : str := sub_br_fuel (length s) s.

(** [line.split('|')[1:-1]] *)
Definition cells_of (line : str) : list str :=
  let parts := split c_pipe line in
  drop 1 (take (length parts - 1) parts).

(** The column count of step 2: from the first divider row, or else from
    the first delimited row. *)
Definition column_count (clean_lines : list str) : nat :=
  let num_cols :=
    match List.find (fun line => is_divider_re (strip line)) clean_lines with
    | Some line => (count_char c_pipe line - 1)%nat
    | None => O
    end in
  if (num_cols =? 0)%nat then
    match List.find (fun line => is_row (strip line)) clean_lines with
    | Some line => (count_char c_pipe line - 1)%nat
    | None => O
    end
  else num_cols.

(** Step 5, one line: what it appends to [fixed_text] and to
    [defective_lines]. *)
Definition validate_line (keyword_rows : list str) (num_cols : nat)
    (line : str) : list str * list str :=
  if _is_keyword_row keyword_rows line then ([], [])
  else if is_row line then
    if negb (length (cells_of line) =? num_cols)%nat then
      let fixed_line := smart_pipe_replace line in
      if negb (length (cells_of fixed_line) =? num_cols)%nat
      then ([], [line])
      else ([strip fixed_line], [])
    else ([strip line], [])
  else ([strip line], []).

Definition sanitize_table (keyword_rows : list str) (text : str)
    : TableError + (str * list str) :=
  let text := replace [c_backslash; c_pipe] [c_brokenbar]
                (replace [c_pipe; c_pipe] [c_dvline] text) in
  match find_char c_pipe text, rfind_char c_pipe text with
  | Some first_pipe, Some last_pipe =>
      if (last_pipe <=? first_pipe)%nat then inl TableBoundariesInvalid
      else
        let trimmed := slice first_pipe (S last_pipe) text in
        let lines := split c_nl (strip trimmed) in
        let clean_lines :=
          List.filter (fun line => negb (bool_decide (strip line = []))) lines in
        let num_cols := column_count clean_lines in
        if (num_cols =? 0)%nat then inl ColumnCountUndetermined
        else
          let trimmed := join [c_nl] clean_lines in
          let br_text := replace [c_nl] (lit "<br>") trimmed in
          let br_text := sub_br br_text in
          let checked :=
            List.map (validate_line keyword_rows num_cols)
              (split c_nl (strip br_text)) in
          inr (join [c_nl] (concat (List.map fst checked)),
               concat (List.map snd checked))
  | _, _ => inl TableBoundariesInvalid
  end.

(** *** Table blocks (lines 698-716) *)

Record Blocks := mkBlocks {
  tables : list (list str);
  current_table : list str;
  table_found : bool
}.

(** The test of line 702. *)
Definition is_divider_line (stripped_line : str) : bool :=
  bool_decide
    (strip (remove_char c_colon (remove_char c_dash
              (remove_char c_pipe stripped_line))) = []).

Definition block_step (b : Blocks) (line : str) : Blocks :=
  let stripped_line := strip line in
  if is_row stripped_line then
    if is_divider_line stripped_line then
      mkBlocks (tables b)
        (if (length (current_table b) =? 1)%nat then [] else current_table b)
        true
    else mkBlocks (tables b) (current_table b ++ [stripped_line]) (table_found b)
  else if (length stripped_line =? 0)%nat then b
  else
    match current_table b with
    | [] => b
    | _ => mkBlocks (tables b ++ [current_table b]) [] (table_found b)
    end.

Definition find_blocks (md_text : str) : Blocks :=
  let b := fold_left block_step (split c_nl md_text) (mkBlocks [] [] false) in
  match current_table b with
  | [] => b
  | _ => mkBlocks (tables b ++ [current_table b]) [] (table_found b)
  end.

(** *** Merging itemized rows (lines 730-747) *)

Definition break_marker : str := lit " <br> ".

(** [[str(col).rstrip() for col in row.split("|")]] *)
Definition rstripped_cols (row : str) : list str :=
  List.map rstrip (split c_pipe row).

(** The loop of lines 741-742; [None] is the [IndexError] of [cols[j]]. *)
Definition merge_cols (column_id : nat) (parent_cols cols : list str)
    : option (list str) :=
  mapM (fun '(j, parent_col) =>
          if (j =? column_id)%nat then Some parent_col
          else c ← cols !! j; Some (parent_col ++ break_marker ++ c))
    (imap pair parent_cols).

Inductive Scan :=
| ScanEnd (i_h : nat)
| ScanMerged (table_rows : list str) (i_h : nat)
| ScanError.

(** The [for] loop of line 733 from index [i] on: [before] holds the rows
    already passed, [i_h] the last index visited. *)
Fixpoint scan_rows (column_id : nat) (before rest : list str) (i i_h : nat)
    : Scan :=
  match rest with
  | [] => ScanEnd i_h
  | row :: rest' =>
      let cols := rstripped_cols row in
      if (length cols <? column_id + 1)%nat || (i =? 0)%nat
      then scan_rows column_id (before ++ [row]) rest' (S i) i
      else
        match cols !! column_id with
        | Some [] =>
            match last before with
            | Some parent_row =>
                match merge_cols column_id (rstripped_cols parent_row) cols with
                | Some parent_cols =>
                    ScanMerged
                      (removelast before ++ [join [c_pipe] parent_cols] ++ rest')
                      i
                | None => ScanError
                end
            | None => ScanError
            end
        | _ => scan_rows column_id (before ++ [row]) rest' (S i) i
        end
  end.

(** The [while True] loop; [None] would mean the fuel ran out. *)
Fixpoint merge_loop (fuel : nat) (column_id : nat) (table_rows : list str)
    : option (TableError + list str) :=
  match fuel with
  | O => None
  | S fuel' =>
      match scan_rows column_id [] table_rows 0 0 with
      | ScanError => Some (inl ColumnIndexError)
      | ScanEnd i_h =>
          if (S i_h =? length table_rows)%nat then Some (inr table_rows)
          else merge_loop fuel' column_id table_rows
      | ScanMerged table_rows' i_h =>
          if (S i_h =? length table_rows')%nat then Some (inr table_rows')
          else merge_loop fuel' column_id table_rows'
      end
  end.

(** [column_id]: [None], or an index counted from the left. *)
Definition merge_itemized (column_id : option nat) (table_rows : list str)
    : option (TableError + list str) :=
  match column_id with
  | None => Some (inr table_rows)
  | Some cid => merge_loop (S (length table_rows)) cid table_rows
  end.

(** *** Rows to instances (lines 749-771) *)

Definition truthy_tokens : list str := [lit "true"; lit "yes"; lit "1"].

(** The conversion of one cell; [None] is [int()] raising. *)
Definition coerce (field_type : FieldType) (cell : str) : option Value :=
  match field_type with
  | TInt =>
      if isdigit cell then VInt <$> int_of_digits cell else Some VNone
  | TFloat =>
      match match_decimal cell with
      | Some (a, b) => Some (VFloat (digits_value (a ++ b)) (length b))
      | None => Some VNone
      end
  | TBool => Some (VBool (bool_decide (lower cell ∈ truthy_tokens)))
  | TOther => Some (VStr cell)
  end.

(** [[remove_markdown(col).strip() for col in row.split("|")]] *)
Definition clean_cols (row : str) : list str :=
  List.map (fun col => strip (remove_markdown col)) (split c_pipe row).

(** The loop of line 754: it stops at the first field without a column. *)
Fixpoint build_dict (model : Schema) (cols : list str) : option Instance :=
  match model, cols with
  | (field, field_type) :: model', col :: cols' =>
      v ← coerce field_type col;
      rest ← build_dict model' cols';
      Some ((field, v) :: rest)
  | _, _ => Some []
  end.

(** One row, lines 750-771: the keyword arguments, then the constructor. *)
Definition row_instance {Obj} (model : Model Obj) (row : str)
    : TableError + Obj :=
  match build_dict (annotations model) (clean_cols row) with
  | None => inl IntLiteralError
  | Some data_dict =>
      match construct model data_dict with
      | Some instance => inr instance
      | None => inl ModelValidationError
      end
  end.

(** The [for row in table_rows] loop, stopping at the first error. *)
Fixpoint rows_instances {Obj} (model : Model Obj) (table_rows : list str)
    : TableError + list Obj :=
  match table_rows with
  | [] => inr []
  | row :: rest =>
      match row_instance model row with
      | inl e => inl e
      | inr instance =>
          match rows_instances model rest with
          | inl e => inl e
          | inr instances => inr (instance :: instances)
          end
      end
  end.

(** One table block: lines 725-771. *)
Definition table_instances {Obj} (model : Model Obj) (column_id : option nat)
    (table : list str) : option (TableError + list Obj) :=
  let table_rows := List.map (fun row => strip (strip_chars [c_pipe] row)) table in
  match merge_itemized column_id table_rows with
  | None => None
  | Some (inl e) => Some (inl e)
  | Some (inr table_rows) => Some (rows_instances model table_rows)
  end.

(** All blocks in order, stopping at the first error. *)
Fixpoint all_instances {Obj} (model : Model Obj) (column_id : option nat)
    (tables : list (list str)) : option (TableError + list Obj) :=
  match tables with
  | [] => Some (inr [])
  | table :: rest =>
      match table_instances model column_id table with
      | None => None
      | Some (inl e) => Some (inl e)
      | Some (inr instances) =>
          match all_instances model column_id rest with
          | None => None
          | Some (inl e) => Some (inl e)
          | Some (inr more) => Some (inr (instances ++ more))
          end
      end
  end.

(** [md_table_to_pydantic_list(md_text, model, column_id)]; the outer
    [None] would mean the merge loop ran out of fuel. *)
Definition md_table_to_pydantic_list {Obj} (keyword_rows : list str)
    (md_text : str) (model : Model Obj) (column_id : option nat)
    : option (TableResult Obj) :=
  match sanitize_table keyword_rows md_text with
  | inl e => Some (Raises e)
  | inr (md_text, defective_lines) =>
      let b := find_blocks md_text in
      match tables b with
      | [] => Some (if table_found b then ReturnsEmptyList else ReturnsNone)
      | _ =>
          match all_instances model column_id (tables b) with
          | None => None
          | Some (inl e) => Some (Raises e)
          | Some (inr instances) => Some (ReturnsPair instances defective_lines)
          end
      end
  end.

End Table.

(* ===================================================================== *)
(** ** Auxiliary definitions used to state invariants and results *)
(* ===================================================================== *)

Module ContinuationAux.
Import Continuation.

Definition is_user (m : Msg) : bool :=
  match role m with user => true | assistant => false end.

End ContinuationAux.

Module FanoutAux.
Import Fanout.

(** Number of units in a given status, and the contribution of one. *)
Definition cnt (s : Status) (l : list Status) : nat :=
  length (List.filter (fun x => bool_decide (x = s)) l).

Definition weight (x s : Status) : nat := if decide (x = s) then 1 else 0.

(** With a semaphore of [L] permits, the units in flight and the free
    permits add up to [L]; without one, there are never permits. *)
Definition sem_inv (sem : option nat) (st : Loop) : Prop :=
  match sem with
  | Some L => exists n, permits st = Some n /\ (in_flight st + n = L)%nat
  | None => permits st = None
  end.

(** The completion log lists, once each, the units that are done. *)
Definition log_inv (st : Loop) : Prop :=
  NoDup (finished st)
  /\ forall i, i ∈ finished st <-> status st !! i = Some Done.

(** Work left: a waiting unit has two moves to make, a running one has
    one. *)
Definition pending (st : Loop) : nat :=
  (2 * cnt Waiting (status st) + cnt Running (status st))%nat.

Section InvokeManyAux.

Context {E V : Type}.
Variable invoke : nat -> Res E V.

(** What the task of unit [i] returns under [invoke_many]. *)
Definition tagged (i : nat) : nat * (E + V) :=
  (i, match invoke i with Val v => inr v | Exc e => inl e end).

Definition error_of (r : E + V) : option E :=
  match r with inl e => Some e | inr _ => None end.

End InvokeManyAux.

(** Reading back the digits [format_06d] writes. *)
Fixpoint uint_of_digits (s : str) : Decimal.uint :=
  match s with
  | [] => Decimal.Nil
  | c :: s' =>
      let d := uint_of_digits s' in
      if c =? 48 then Decimal.D0 d else if c =? 49 then Decimal.D1 d
      else if c =? 50 then Decimal.D2 d else if c =? 51 then Decimal.D3 d
      else if c =? 52 then Decimal.D4 d else if c =? 53 then Decimal.D5 d
      else if c =? 54 then Decimal.D6 d else if c =? 55 then Decimal.D7 d
      else if c =? 56 then Decimal.D8 d else Decimal.D9 d
  end.

Section InvokeManyAgentAux.

Context {P Ctx : Type}.
Variable self_name : str.
Variable agent_cls_name : str.
Variable dumps : P -> nat -> str.
Variable child : nat -> P -> @ChildRun Ctx.
Variable params : list P.

(** What a unit contributes: its entry of the mapping, or its failure
    record. *)
Definition success_of (i : nat) (p : P) : option (str * Ctx) :=
  match child i p with
  | ChildCompletes ctx => Some (child_name self_name i, ctx)
  | _ => None
  end.

Definition failure_of (i : nat) (p : P) : option (@FailureRecord P) :=
  match (invoke_one_agent self_name agent_cls_name dumps child i p).1 with
  | Exc e =>
      Some (mkFailure (unit_name self_name i) i
              (exn_type e ++ lit ": " ++ exn_msg e) p)
  | Val _ => None
  end.

Definition entry (i : nat) : option (str * Ctx) :=
  p ← params !! i; success_of i p.

(** One failure record per failed unit, in submission order. *)
Definition expected_failures : list (@FailureRecord P) :=
  omap (fun i => p ← params !! i; failure_of i p) (seq 0 (length params)).

End InvokeManyAgentAux.

End FanoutAux.

Module TableAux.
Import Table.

(** Following the specification's words ("integer parse"): a decimal
    integer literal with an optional sign. *)
Definition int_literal (s : str) : option Z :=
  let unsigned (d : str) : option Z :=
    if negb (bool_decide (d = [])) && forallb is_ascii_digit d
    then Some (Z.of_N (digits_value d)) else None in
  match s with
  | 45 :: d => Z.opp <$> unsigned d
  | 43 :: d => unsigned d
  | _ => unsigned s
  end.

(** The shape [match_decimal] accepts: decimal digits, or decimal digits,
    a point and decimal digits. *)
Definition decimal_shape (cell a b : str) : Prop :=
  a <> [] /\ forallb is_decimal_char a = true
  /\ ((b = [] /\ cell = a)
       \/ (b <> [] /\ forallb is_decimal_char b = true /\ cell = a ++ 46 :: b)).

(** [int()] takes the digit string: decimal digits only, and no more of
    them than the limit for integer strings. *)
Definition int_accepts (cell : str) : Prop :=
  forallb is_decimal_char cell = true
  /\ (N.of_nat (length cell) <= int_max_str_digits)%N.

(** What the keyword arguments hold for a cell, by the field's type (a
    digit string that [int()] does not take leaves no value and is not
    described). *)
Definition coerced (field_type : FieldType) (cell : str) (v : Value) : Prop :=
  match field_type with
  | TInt =>
      (cell <> [] /\ int_accepts cell /\ v = VInt (digits_value cell))
      \/ (isdigit cell = false /\ v = VNone)
  | TFloat =>
      (exists a b, decimal_shape cell a b
                   /\ v = VFloat (digits_value (a ++ b)) (length b))
      \/ ((forall a b, ~ decimal_shape cell a b) /\ v = VNone)
  | TBool =>
      v = VBool (bool_decide (lower cell ∈ truthy_tokens))
  | TOther => v = VStr cell
  end.

(** Every block found holds at least one row. *)
Definition blocks_ok (b : Blocks) : Prop := Forall (fun t => t <> []) (tables b).

(** Some delimited row line has been seen. *)
Definition touched (b : Blocks) : Prop :=
  tables b <> [] \/ current_table b <> [] \/ table_found b = true.

(** *** Merging, in the specification's words

    A row is an itemized continuation when it has an identifier column
    and that column is empty. *)
Definition mergeable (column_id : nat) (row : str) : bool :=
  match rstripped_cols row !! column_id with
  | Some [] => true
  | _ => false
  end.

(** The parent row with the columns of [row] appended through the break
    marker, the identifier column apart. *)
Definition merge_into (column_id : nat) (parent row : str) : option str :=
  join [c_pipe]
    <$> merge_cols column_id (rstripped_cols parent) (rstripped_cols row).

(** One pass from the top: each continuation row is merged into the row
    before it; the first row has no row before it and stays. *)
Fixpoint merge_all (column_id : nat) (out rest : list str)
    : option (list str) :=
  match rest with
  | [] => Some out
  | row :: rest' =>
      match last out with
      | Some parent =>
          if mergeable column_id row
          then m ← merge_into column_id parent row;
               merge_all column_id (removelast out ++ [m]) rest'
          else merge_all column_id (out ++ [row]) rest'
      | None => merge_all column_id (out ++ [row]) rest'
      end
  end.

(** The last two rows of a block of three or more rows are not both
    continuation rows. *)
Definition tail_settled (column_id : nat) (rows : list str) : Prop :=
  forall pre e l,
    rows = pre ++ [e; l] -> pre <> [] ->
    ~ (mergeable column_id e = true /\ mergeable column_id l = true).

(** *** A well-formed table, as text

    A row is written with one space around every cell:
    [| c1 | c2 | ... | cN |]; the divider row is [|---|---|...|]; the
    table is the header row, the divider row and the data rows, one per
    line. *)
Definition pad (cell : str) : str := c_space :: cell ++ [c_space].

Definition body (regions : list str) : str :=
  concat (List.map (fun r => r ++ [c_pipe]) regions).

Definition line_of (regions : list str) : str := c_pipe :: body regions.

Definition render_row (cells : list str) : str := line_of (List.map pad cells).

Definition divider_row (n : nat) : str := line_of (replicate n (lit "---")).

Definition table_text (header : list str) (rows : list (list str)) : str :=
  join [c_nl]
    (render_row header :: divider_row (length header)
       :: List.map render_row rows).

(** A plain cell: no white space around it, no delimiter, line break or
    emphasis character in it, and it does not begin with a break tag. *)
Definition cell_ok (cell : str) : Prop :=
  strip cell = cell
  /\ Forall (fun x => x <> c_pipe /\ x <> c_nl /\ x <> 42 /\ x <> 95) cell
  /\ startswith (lit "<br>") cell = false.

(** A row of plain cells that the sanitizer keeps and the block finder
    takes for a data row. *)
Definition row_ok (keyword_rows : list str) (n : nat) (cells : list str) : Prop :=
  length cells = n
  /\ Forall cell_ok cells
  /\ _is_keyword_row keyword_rows (render_row cells) = false
  /\ is_divider_line (render_row cells) = false.

(** The untouched part of a rendered row: a piece between two delimiters
    that is not empty, holds no delimiter and no line break, does not end
    in a backslash, and after which the break-tag substitution finds
    nothing to replace. *)
Definition region_ok (r : str) : Prop :=
  r <> [] /\ (c_pipe ∉ r) /\ (c_nl ∉ r) /\ last r <> Some c_backslash
  /\ forall Y, match_br (c_pipe :: r ++ c_pipe :: Y) = None.

(** The lines of a table joined by [sep], without the first delimiter. *)
Fixpoint inner (sep : str) (rss : list (list str)) : str :=
  match rss with
  | [] => []
  | [rs] => body rs
  | rs :: rest => body rs ++ sep ++ c_pipe :: inner sep rest
  end.

(** [old] occurs nowhere in [s]. *)
Fixpoint absent (old s : str) : bool :=
  negb (startswith old s)
  && match s with [] => true | _ :: t => absent old t end.

(** Replacing a one-character text goes character by character. *)
Definition sub1 (c : char) (new s : str) : str :=
  concat (List.map (fun x => if c =? x then new else [x]) s).

(** What follows a line in the text with break tags, and what the
    substitution leaves of it. *)
Inductive line_end : str -> str -> Prop :=
| end_of_text : line_end [] []
| end_of_line W :
    line_end (lit "<br>" ++ c_pipe :: W) (c_nl :: c_pipe :: sub_br W).

(** The text of a rendered row once its outer delimiters are gone. *)
Definition trow (cells : list str) : str :=
  strip (strip_chars [c_pipe] (render_row cells)).

(** The keyword arguments and the object of one row of cells: every field
    holds the cell of its position, coerced to the field's type. *)
Definition record_of {Obj} (model : Model Obj) (cells : list str) (o : Obj)
    : Prop :=
  exists data_dict,
    build_dict (annotations model) cells = Some data_dict
    /\ construct model data_dict = Some o
    /\ forall j f ty cell,
         annotations model !! j = Some (f, ty) -> cells !! j = Some cell ->
         exists v, data_dict !! j = Some (f, v) /\ coerce ty cell = Some v.

(** The cells of a row can be converted and built: [int()] takes every
    digit string of an integer field, and the constructor accepts the
    keyword arguments. *)
Definition convertible {Obj} (model : Model Obj) (cells : list str) : Prop :=
  (forall j f cell,
     annotations model !! j = Some (f, TInt) -> cells !! j = Some cell ->
     isdigit cell = true -> int_accepts cell)
  /\ (forall data_dict,
        build_dict (annotations model) cells = Some data_dict ->
        is_Some (construct model data_dict)).

End TableAux.
(* ===================================================================== *)
(** ** Facts about the string primitives *)
(* ===================================================================== *)

Module PyFacts.

Lemma startswith_app (p s : str) :
  startswith p s = true <-> exists t, s = p ++ t.
Proof.
  revert s; induction p as [|a p IH]; intros s; simpl.
  - split; [intros _; by exists s | done].
  - destruct s as [|b s]; [split; [done | intros [t Ht]; done]|].
    rewrite andb_true_iff, N.eqb_eq, IH. split.
    + intros [-> [t ->]]. by exists t.
    + intros [t Ht]. simplify_eq. split; [done | by exists t].
Qed.

Lemma startswith_lookup (p s : str) :
  startswith p s = true ->
  forall k x, p !! k = Some x -> s !! k = Some x.
Proof.
  rewrite startswith_app. intros [t ->] k x Hk.
  by apply lookup_app_l_Some.
Qed.

Lemma startswith_length (p s : str) :
  startswith p s = true -> (length p <= length s)%nat.
Proof.
  rewrite startswith_app. intros [t ->]. rewrite length_app. lia.
Qed.

Lemma remove_char_app (c : char) (s t : str) :
  remove_char c (s ++ t) = remove_char c s ++ remove_char c t.
Proof. unfold remove_char. apply List.filter_app. Qed.

Lemma remove_char_length (c : char) (s : str) :
  (length (remove_char c s) <= length s)%nat.
Proof. unfold remove_char. apply List.filter_length_le. Qed.

Lemma lstrip_by_suffix (p : char -> bool) (s : str) :
  exists pre, s = pre ++ lstrip_by p s /\ forallb p pre = true.
Proof.
  induction s as [|c s [pre [IH1 IH2]]]; simpl.
  - by exists [].
  - destruct (p c) eqn:Hc.
    + exists (c :: pre). simpl. rewrite Hc, IH2. split; [by f_equal | done].
    + by exists [].
Qed.

Lemma lstrip_by_head (p : char -> bool) (s : str) c t :
  lstrip_by p s = c :: t -> p c = false.
Proof.
  induction s as [|x s IH]; simpl; [done|].
  destruct (p x) eqn:Hx; [done|]. intros; by simplify_eq.
Qed.

Lemma lstrip_by_id (p : char -> bool) (s : str) c t :
  s = c :: t -> p c = false -> lstrip_by p s = s.
Proof. intros -> H. simpl. by rewrite H. Qed.

Lemma split_not_nil c s : split c s <> [].
Proof.
  destruct s as [|x s]; simpl; [done|].
  destruct (x =? c); [done|]. by destruct (split c s).
Qed.

Lemma split_notin c s : c ∉ s -> split c s = [s].
Proof.
  induction s as [|x s IH]; [done|]. intros Hn.
  apply not_elem_of_cons in Hn as [Hx Hs]. simpl.
  destruct (N.eqb_spec x c) as [->|_]; [done|]. by rewrite IH.
Qed.

Lemma split_app c a b : c ∉ a -> split c (a ++ c :: b) = a :: split c b.
Proof.
  induction a as [|x a IH]; intros Hn; simpl.
  - by rewrite N.eqb_refl.
  - apply not_elem_of_cons in Hn as [Hx Ha].
    destruct (N.eqb_spec x c) as [->|_]; [done|]. by rewrite IH.
Qed.

Lemma join_cons2 sep p q rest :
  join sep (p :: q :: rest) = p ++ sep ++ join sep (q :: rest).
Proof. done. Qed.

Lemma split_join c parts :
  parts <> [] -> Forall (fun p => c ∉ p) parts ->
  split c (join [c] parts) = parts.
Proof.
  intros Hne H. induction H as [|p parts Hp Hps IH]; [done|].
  destruct parts as [|q rest].
  - simpl. by apply split_notin.
  - rewrite join_cons2.
    change ([c] ++ join [c] (q :: rest)) with (c :: join [c] (q :: rest)).
    rewrite split_app by done. by rewrite IH.
Qed.

Lemma join_split c s : join [c] (split c s) = s.
Proof.
  induction s as [|x s IH]; [done|]. simpl.
  destruct (N.eqb_spec x c) as [->|_].
  - pose proof (split_not_nil c s) as Hne.
    destruct (split c s) as [|p ps] eqn:Hsp; [done|].
    rewrite join_cons2. by rewrite IH.
  - destruct (split c s) as [|p ps] eqn:Hsp; [by destruct (split_not_nil c s)|].
    destruct ps as [|q ps]; simpl in *; by rewrite IH.
Qed.

Lemma split_parts_notin c s : Forall (fun p => c ∉ p) (split c s).
Proof.
  induction s as [|x s IH]; simpl.
  - repeat constructor. by intros ?%elem_of_nil.
  - destruct (N.eqb_spec x c) as [->|Hne].
    + constructor; [by intros ?%elem_of_nil | done].
    + destruct (split c s) as [|p ps]; [repeat constructor; set_solver|].
      inversion IH; subst. constructor; [|done].
      intros [?|?]%elem_of_cons; done.
Qed.

Lemma split_length c s : length (split c s) = S (count_char c s).
Proof.
  unfold count_char. induction s as [|x s IH]; [done|]. simpl.
  destruct (x =? c); simpl; [by rewrite IH|].
  pose proof (split_not_nil c s). destruct (split c s); [done|].
  simpl in *. lia.
Qed.

Lemma replace_fuel_id fuel old new s c :
  c ∈ old -> c ∉ s -> replace_fuel fuel old new s = s.
Proof.
  intros Hc. revert s. induction fuel as [|fuel IH]; intros s Hs; [done|].
  destruct s as [|x s]; [done|]. cbn [replace_fuel].
  destruct (startswith old (x :: s)) eqn:Hst.
  - exfalso. apply startswith_app in Hst as [t Ht]. apply Hs.
    rewrite Ht. apply elem_of_app. by left.
  - f_equal. apply IH. by apply not_elem_of_cons in Hs as [_ ?].
Qed.

Lemma replace_id old new s c : c ∈ old -> c ∉ s -> replace old new s = s.
Proof. apply replace_fuel_id. Qed.

Lemma find_char_None c s : find_char c s = None <-> c ∉ s.
Proof.
  induction s as [|x s IH]; simpl.
  - split; [intros _; apply not_elem_of_nil | done].
  - destruct (N.eqb_spec x c) as [->|Hne].
    + split; [done|]. intros H. exfalso. apply H. by left.
    + rewrite not_elem_of_cons. destruct (find_char c s); simpl.
      * split; [done|]. intros [_ H]. by apply IH in H.
      * split; [|done]. intros _. split; [done|]. by apply IH.
Qed.

End PyFacts.

Import PyFacts.

(* ===================================================================== *)
(** ** The continuation controller: run collapsing *)
(* ===================================================================== *)

Module ContinuationFacts.
Import Continuation.

Lemma search_run_Some c n s i :
  search_run c n s = Some i ->
  (i + n <= length s)%nat /\ take n (drop i s) = repeat_char c n.
Proof.
  revert i; induction s as [|x s IH]; intros i; simpl.
  - destruct (startswith (repeat_char c n) []) eqn:Hs; [|done].
    intros ?; simplify_eq. apply startswith_app in Hs as [t Ht].
    symmetry in Ht. apply app_eq_nil in Ht as [Hr _].
    assert (n = O) as -> by (apply (f_equal length) in Hr;
      unfold repeat_char in Hr; rewrite repeat_length in Hr; done).
    done.
  - destruct (startswith (repeat_char c n) (x :: s)) eqn:Hs.
    + intros ?; simplify_eq. split.
      * apply startswith_length in Hs. unfold repeat_char in Hs.
        rewrite repeat_length in Hs. simpl in *. lia.
      * apply startswith_app in Hs as [t Ht]. rewrite drop_0, Ht.
        rewrite take_app_length'; [done|].
        unfold repeat_char. by rewrite repeat_length.
    + destruct (search_run c n s) as [k|] eqn:Hk; [|done].
      simpl. intros ?; simplify_eq. destruct (IH k eq_refl) as [H1 H2].
      split; [simpl; lia | done].
Qed.

Lemma search_run_None_cons c n x s :
  search_run c n (x :: s) = None -> search_run c n s = None.
Proof.
  simpl. destruct (startswith _ (x :: s)); [done|].
  by destruct (search_run c n s).
Qed.

Lemma search_run_None_start c n s :
  search_run c n s = None -> startswith (repeat_char c n) s = false.
Proof.
  destruct s; simpl; by destruct (startswith _ _).
Qed.

Lemma search_not_Some c s i j :
  search_not c s i = Some j ->
  (i <= j < length s)%nat /\ take (j - i) (drop i s) = repeat_char c (j - i)
  /\ exists x, s !! j = Some x /\ x <> c.
Proof.
  revert i j; induction s as [|x s IH]; intros i j.
  - by destruct i.
  - destruct i as [|i]; simpl.
    + destruct (N.eqb_spec x c) as [->|Hne].
      * destruct (search_not c s 0) as [k|] eqn:Hk; [|done].
        simpl. intros ?; simplify_eq.
        destruct (IH 0%nat k Hk) as (H1 & H2 & H3).
        split; [lia|]. split; [|done].
        rewrite Nat.sub_0_r, drop_0 in *. simpl. by rewrite H2.
      * intros ?; simplify_eq. split; [simpl; lia|]. split; [done|].
        by exists x.
    + destruct (search_not c s i) as [k|] eqn:Hk; [|done].
      simpl. intros ?; simplify_eq.
      destruct (IH i k Hk) as (H1 & H2 & H3).
      split; [lia|]. by split.
Qed.

Lemma search_not_None c s i :
  search_not c s i = None -> (i <= length s)%nat ->
  drop i s = repeat_char c (length s - i).
Proof.
  revert i; induction s as [|x s IH]; intros i.
  - by destruct i.
  - destruct i as [|i]; simpl.
    + destruct (N.eqb_spec x c) as [->|Hne]; [|done].
      destruct (search_not c s 0) eqn:Hk; [done|]. intros _ _.
      specialize (IH 0%nat Hk). rewrite drop_0, Nat.sub_0_r in IH.
      rewrite IH at 1; [done | lia].
    + destruct (search_not c s i) eqn:Hk; [done|]. intros _ Hi.
      apply IH; [done | lia].
Qed.

Lemma repeat_char_lookup c n k x :
  repeat_char c n !! k = Some x -> x = c.
Proof.
  unfold repeat_char. revert k; induction n as [|n IH]; intros [|k]; simpl;
    try done; [by intros; simplify_eq | apply IH].
Qed.

(** What one pass does: it finds a run [pre ++ c^k ++ post] with [k > 100]
    of a padding character and shortens it to 100. *)
Lemma collapse_step_Some s s' :
  collapse_step s = Some s' ->
  exists pre c k post,
    is_padding c = true /\ (100 < k)%nat /\
    s = pre ++ repeat_char c k ++ post /\
    s' = pre ++ repeat_char c 100 ++ post.
Proof.
  assert (Hgen : forall c i, search_run c 101 s = Some i ->
    exists k, (100 < k)%nat /\
      s = take i s ++ repeat_char c k
            ++ drop (default (length s) (search_not c s i)) s /\
      (default (length s) (search_not c s i) = i + k)%nat).
  { intros c i Hi. apply search_run_Some in Hi as [Hi1 Hi2].
    destruct (search_not c s i) as [j|] eqn:Hj; simpl.
    - apply search_not_Some in Hj as (Hj1 & Hj2 & x & Hx & Hxc).
      assert (i + 101 <= j)%nat as Hij.
      { destruct (decide (i + 101 <= j)%nat) as [|Hn]; [done|]. exfalso.
        assert (take 101 (drop i s) !! (j - i)%nat = Some x) as Hl.
        { rewrite lookup_take_lt by lia. rewrite lookup_drop.
          by replace (i + (j - i))%nat with j by lia. }
        rewrite Hi2 in Hl. by apply repeat_char_lookup in Hl. }
      exists (j - i)%nat. split; [lia|]. split; [|lia].
      rewrite <- Hj2.
      rewrite <- (take_drop i s) at 1. f_equal.
      rewrite <- (take_drop (j - i) (drop i s)) at 1. f_equal.
      rewrite drop_drop. f_equal. lia.
    - apply search_not_None in Hj; [|lia].
      exists (length s - i)%nat. split; [lia|]. split; [|lia].
      rewrite drop_all, app_nil_r, <- Hj. by rewrite take_drop. }
  unfold collapse_step.
  destruct (search_run c_dash 101 s) as [i|] eqn:Hd.
  - intros ?; simplify_eq. destruct (Hgen _ _ Hd) as (k & Hk & Hs & _).
    by exists (take i s), c_dash, k, (drop (default (length s) (search_not c_dash s i)) s).
  - destruct (search_run c_space 101 s) as [i|] eqn:Hsp; [|done].
    intros ?; simplify_eq. destruct (Hgen _ _ Hsp) as (k & Hk & Hs & _).
    by exists (take i s), c_space, k, (drop (default (length s) (search_not c_space s i)) s).
Qed.

Lemma collapse_step_shorter s s' :
  collapse_step s = Some s' -> (length s' < length s)%nat.
Proof.
  intros (pre & c & k & post & _ & Hk & -> & ->)%collapse_step_Some.
  rewrite !length_app. unfold repeat_char. rewrite !repeat_length. lia.
Qed.

Lemma collapse_loop_enough fuel s :
  (length s < fuel)%nat -> is_Some (collapse_loop fuel s).
Proof.
  revert s; induction fuel as [|fuel IH]; intros s Hf; [lia|]. simpl.
  destruct (collapse_step s) as [s'|] eqn:Hs; [|done].
  apply IH. apply collapse_step_shorter in Hs. lia.
Qed.

(** The loop always leaves through its [break]. *)
Lemma collapse_loop_total s : is_Some (collapse_loop (S (length s)) s).
Proof. apply collapse_loop_enough. lia. Qed.

(** *** The loop computes the specification's run cutting *)

Lemma cut_runs_repeat c n k post :
  is_padding c = true ->
  cut_runs c n (repeat_char c k ++ post)
  = repeat_char c (Nat.min k (100 - n))
      ++ cut_runs c (n + Nat.min k (100 - n)) post.
Proof.
  intros Hc. revert n; induction k as [|k IH]; intros n.
  - simpl. by rewrite Nat.add_0_r.
  - change (repeat_char c (S k) ++ post) with (c :: (repeat_char c k ++ post)).
    cbn [cut_runs]. rewrite N.eqb_refl, Hc. cbn [andb].
    destruct (Nat.leb_spec 100 n) as [Hn|Hn].
    + rewrite IH. assert (100 - n = 0)%nat as -> by lia.
      by rewrite !Nat.min_0_r, !Nat.add_0_r.
    + rewrite IH.
      assert (Nat.min (S k) (100 - n) = S (Nat.min k (100 - S n))) as -> by lia.
      change (repeat_char c (S ?m)) with (c :: repeat_char c m).
      cbn [app]. by rewrite Nat.add_succ_r.
Qed.

Lemma cut_runs_fresh p n c k post :
  c <> p ->
  cut_runs p n (repeat_char c (S k) ++ post)
  = c :: cut_runs c 1 (repeat_char c k ++ post).
Proof.
  intros Hne. apply N.eqb_neq in Hne.
  change (repeat_char c (S k) ++ post) with (c :: (repeat_char c k ++ post)).
  cbn [cut_runs]. by rewrite Hne.
Qed.

Lemma cut_runs_shorten_here p n c k post :
  is_padding c = true -> (100 <= k)%nat ->
  cut_runs p n (repeat_char c k ++ post)
  = cut_runs p n (repeat_char c 100 ++ post).
Proof.
  intros Hc Hk. destruct (N.eqb_spec c p) as [->|Hne].
  - rewrite !cut_runs_repeat by done.
    by replace (Nat.min k (100 - n)) with (Nat.min 100 (100 - n)) by lia.
  - destruct k as [|k]; [lia|].
    rewrite (cut_runs_fresh p n c k), (cut_runs_fresh p n c 99) by done.
    rewrite !cut_runs_repeat by done. f_equal.
    by replace (Nat.min k (100 - 1)) with (Nat.min 99 (100 - 1)) by lia.
Qed.

Lemma cut_runs_shorten p n pre c k post :
  is_padding c = true -> (100 <= k)%nat ->
  cut_runs p n (pre ++ repeat_char c k ++ post)
  = cut_runs p n (pre ++ repeat_char c 100 ++ post).
Proof.
  intros Hc Hk. revert p n; induction pre as [|x pre IH]; intros p n.
  - by apply cut_runs_shorten_here.
  - simpl. destruct (x =? p); [destruct (_ && _)|]; by rewrite ?IH.
Qed.

Lemma repeat_char_snoc c n s :
  repeat_char c n ++ c :: s = repeat_char c (S n) ++ s.
Proof.
  unfold repeat_char. induction n as [|n IH]; simpl; [done|]. by rewrite IH.
Qed.

Lemma cut_runs_id p n s :
  (is_padding p = true -> search_run p 101 (repeat_char p n ++ s) = None) ->
  (forall c, is_padding c = true -> search_run c 101 s = None) ->
  cut_runs p n s = s.
Proof.
  revert p n; induction s as [|x s IH]; intros p n Hp Hs; [done|].
  cbn [cut_runs].
  destruct (N.eqb_spec x p) as [->|Hne].
  - destruct (is_padding p) eqn:Hpad; cbn [andb].
    + destruct (Nat.leb_spec 100 n) as [Hn|Hn].
      * exfalso. specialize (Hp eq_refl).
        apply search_run_None_start in Hp.
        apply not_true_iff_false in Hp. apply Hp, startswith_app.
        rewrite repeat_char_snoc.
        exists (repeat_char p (S n - 101) ++ s). rewrite app_assoc. f_equal.
        unfold repeat_char. rewrite <- repeat_app. f_equal. lia.
      * f_equal. apply IH.
        -- intros _. rewrite <- repeat_char_snoc. by apply Hp.
        -- intros c Hc. apply (search_run_None_cons c 101 p s). by apply Hs.
    + f_equal. apply IH; [by rewrite Hpad|].
      intros c Hc. apply (search_run_None_cons c 101 p s). by apply Hs.
  - f_equal. apply IH.
    + intros Hx. by apply Hs.
    + intros c Hc. apply (search_run_None_cons c 101 x s). by apply Hs.
Qed.

Lemma collapse_step_None s : collapse_step s = None -> collapse_spec s = s.
Proof.
  unfold collapse_step. intros H.
  destruct (search_run c_dash 101 s) eqn:Hd; [done|].
  destruct (search_run c_space 101 s) eqn:Hsp; [done|].
  apply cut_runs_id; [done|].
  intros c [->%N.eqb_eq | ->%N.eqb_eq]%orb_true_iff; done.
Qed.

Lemma collapse_step_spec s s' :
  collapse_step s = Some s' -> collapse_spec s' = collapse_spec s.
Proof.
  intros (pre & c & k & post & Hc & Hk & -> & ->)%collapse_step_Some.
  symmetry. apply cut_runs_shorten; [done | lia].
Qed.

Lemma collapse_loop_spec fuel s r :
  collapse_loop fuel s = Some r -> r = collapse_spec s.
Proof.
  revert s; induction fuel as [|fuel IH]; intros s; [done|]. simpl.
  destruct (collapse_step s) as [s'|] eqn:Hs.
  - intros Hr. rewrite (IH _ Hr). by apply collapse_step_spec.
  - intros ?; simplify_eq. symmetry. by apply collapse_step_None.
Qed.

(** The loop of lines 181-196 is the run cutting of the specification. *)
Lemma collapse_runs_spec s : collapse_runs s = collapse_spec s.
Proof.
  unfold collapse_runs.
  destruct (collapse_loop_total s) as [r Hr]. rewrite Hr. simpl.
  by eapply collapse_loop_spec.
Qed.

End ContinuationFacts.

(* ===================================================================== *)
(** ** The continuation controller: claims *)
(* ===================================================================== *)

Module ContinuationClaims.
Import Continuation ContinuationAux ContinuationFacts.

Section Loop.

Variable llm : History -> GatewayResult.
Variable end_token : EndToken.
Variable max_continuations : nat.

Lemma continue_loop_total fuel turns current history reqs :
  (max_continuations - turns < fuel)%nat ->
  is_Some (continue_loop llm end_token max_continuations fuel turns current
             history reqs).
Proof.
  revert turns current history reqs.
  induction fuel as [|fuel IH]; intros turns current history reqs Hf; [lia|].
  simpl. destruct (negb (is_sentinel current) && _); [|done].
  destruct (Nat.leb_spec max_continuations turns) as [Hm|Hm]; [done|].
  destruct (llm _) as [nxt|]; [|done].
  destruct (negb (is_sentinel (strip nxt))); [|done].
  apply IH. lia.
Qed.

Lemma continue_loop_not_degenerate fuel turns current history reqs r k :
  continue_loop llm end_token max_continuations fuel turns current history reqs
    = Some r ->
  outcome r <> inl (DegenerateOutput k).
Proof.
  revert turns current history reqs.
  induction fuel as [|fuel IH]; intros turns current history reqs; [done|].
  simpl. destruct (negb (is_sentinel current) && _).
  - destruct (max_continuations <=? turns)%nat; [by intros; simplify_eq|].
    destruct (llm _) as [nxt|]; [|by intros; simplify_eq].
    destruct (negb (is_sentinel (strip nxt))); [apply IH|by intros; simplify_eq].
  - by intros; simplify_eq.
Qed.

(** The controller always returns or raises: the fuel never runs out. *)
Lemma completion_assemble_total prompt first :
  is_Some (completion_assemble llm end_token max_continuations prompt first).
Proof.
  unfold completion_assemble. destruct (_ || _); [done|].
  apply continue_loop_total. lia.
Qed.

End Loop.

Lemma degenerate_spec s :
  degenerate s = true <->
  (length (compacted s) = 0
   \/ 9 * length (compacted s) <= length (collapse_spec s))%nat.
Proof.
  unfold degenerate. rewrite collapse_runs_spec.
  rewrite orb_true_iff, Nat.eqb_eq, Nat.leb_le.
  destruct (length (compacted s)) as [|c] eqn:Hc.
  - split; intros _; by left.
  - replace (Nat.max 1 (S c)) with (S c) by lia. split.
    + intros [?|H]; [done|]. right.
      pose proof (Nat.div_mod_eq (length (collapse_spec s)) (S c)). nia.
    + intros [?|H]; [done|]. right.
      apply Nat.div_le_lower_bound; lia.
Qed.

(** C5 (amended): a first reply that, once its surrounding white space is
    trimmed, has an empty compacted form, or is at least 9 times as long
    as its compacted form after every run of more than 100 identical
    spaces or dashes is cut to 100, makes the controller raise the
    degenerate-output error without any request to the gateway. *)
Theorem degenerate_first_reply_fails llm end_token max_continuations prompt first :
  (length (compacted (strip first)) = 0
   \/ 9 * length (compacted (strip first))
      <= length (collapse_spec (strip first)))%nat ->
  exists ratio,
    completion_assemble llm end_token max_continuations prompt first
    = Some (mkRun (inl (DegenerateOutput ratio)) []).
Proof.
  intros H%degenerate_spec. unfold completion_assemble.
  unfold degenerate in H. rewrite H. eauto.
Qed.

Lemma degenerate_first_reply_fails_witness :
  exists ratio,
    completion_assemble (scripted []) NoEndToken 4 (lit "q")
      (lit "  - - - - - - - - - a  ")
    = Some (mkRun (inl (DegenerateOutput ratio)) []).
Proof.
  apply degenerate_first_reply_fails. right. vm_compute. lia.
Defined.

(** C5 as stated fails: the test is made on the trimmed reply, so leading
    padding does not count.  Seventeen spaces followed by "a." have length
    19 and compacted length 2, and the controller accepts them. *)
Lemma degenerate_untrimmed_counterexample :
  let first := repeat_char c_space 17 ++ lit "a." in
  (9 * length (compacted first) <= length (collapse_spec first))%nat
  /\ completion_assemble (scripted []) NoEndToken 4 (lit "q") first
     = Some (mkRun (inr first) []).
Proof. vm_compute. split; [lia | done]. Qed.

(** *** Scripted replies *)

Lemma scripted_at script h k r :
  length (List.filter is_user h) = (k + 2)%nat ->
  script !! k = Some r ->
  scripted script h = Reply r.
Proof.
  intros Hh Hk. unfold scripted. fold is_user. rewrite Hh.
  replace (k + 2 - 2)%nat with k by lia. rewrite Hk.
  by destruct (Nat.leb_spec 2 (k + 2)); [|lia].
Qed.

Lemma assemble_app h1 h2 : assemble (h1 ++ h2) = assemble h1 ++ assemble h2.
Proof.
  unfold assemble. by rewrite List.filter_app, List.map_app, concat_app.
Qed.

Lemma continue_loop_scripted end_token max_continuations script :
  forall rest done fuel turns current history reqs,
    script = done ++ rest ->
    length done = turns ->
    length (List.filter is_user history) = S turns ->
    (turns + length rest <= max_continuations)%nat ->
    (length rest < fuel)%nat ->
    (forall i t, (current :: List.map strip rest) !! i = Some t ->
       is_sentinel t = false
       /\ is_complete end_token t = bool_decide (i = length rest)) ->
    exists new,
      continue_loop (scripted script) end_token max_continuations fuel turns
        current history reqs
      = Some (mkRun (inr (assemble history ++ concat rest)) (reqs ++ new))
      /\ length new = length rest.
Proof.
  induction rest as [|r rest IH];
    intros done fuel turns current history reqs Hscript Hdone Hu Hmax Hfuel Ht.
  - destruct fuel as [|fuel]; [simpl in Hfuel; lia|]. simpl.
    destruct (Ht 0%nat current eq_refl) as [Hs Hc]. rewrite Hs, Hc. simpl.
    exists []. by rewrite !app_nil_r.
  - destruct fuel as [|fuel]; [simpl in Hfuel; lia|].
    cbn [continue_loop].
    destruct (Ht 0%nat current eq_refl) as [Hs Hc]. rewrite Hs, Hc.
    cbn [negb andb bool_decide decide_rel]. simpl in Hmax, Hfuel.
    rewrite bool_decide_eq_false_2 by done. cbn [negb andb].
    destruct (Nat.leb_spec max_continuations turns); [lia|].
    rewrite (scripted_at script _ turns r).
    + destruct (Ht 1%nat (strip r) eq_refl) as [Hs1 _]. rewrite Hs1.
      cbn [negb].
      destruct (IH (done ++ [r]) fuel (S turns) (strip r)
                  ((history ++ [mkMsg user continue_prompt])
                     ++ [mkMsg assistant r])
                  (reqs ++ [history ++ [mkMsg user continue_prompt]]))
        as (new & Hrun & Hlen).
      * by rewrite <- app_assoc.
      * rewrite length_app. simpl. lia.
      * rewrite !List.filter_app, !length_app. simpl. lia.
      * lia.
      * lia.
      * intros i t Hi. destruct (Ht (S i) t Hi) as [H1 H2]. split; [done|].
        rewrite H2. simpl. apply bool_decide_ext. lia.
      * exists ((history ++ [mkMsg user continue_prompt]) :: new).
        rewrite Hrun. split; [|simpl; lia].
        rewrite !assemble_app. simpl.
        unfold assemble at 2 3. simpl.
        by rewrite !app_nil_r, <- !app_assoc.
    + rewrite List.filter_app, length_app. simpl. lia.
    + rewrite Hscript, lookup_app_r by lia.
      by replace (turns - length done)%nat with O by lia.
Qed.

(** C4 (amended): with [N - 1 <= max_continuations], a first reply that
    passes the degenerate-output check, replies 1 .. N-1 failing the
    completeness test and reply N passing it, and no reply being the
    sentinel (all as the controller tests them: trimmed, the first one
    with its runs collapsed), the controller sends exactly N-1 requests and
    hands the concatenation of the N replies to the repair step. *)
Theorem continuation_assembles_all_replies end_token max_continuations prompt
    first rest :
  (length rest <= max_continuations)%nat ->
  degenerate (strip first) = false ->
  (forall i t, tested first rest !! i = Some t ->
     is_sentinel t = false
     /\ is_complete end_token t = bool_decide (i = length rest)) ->
  exists reqs,
    completion_assemble (scripted rest) end_token max_continuations prompt first
    = Some (mkRun (inr (concat (first :: rest))) reqs)
    /\ length reqs = length rest.
Proof.
  intros Hmax Hd Ht. unfold completion_assemble.
  fold (degenerate (strip first)). rewrite Hd.
  destruct (continue_loop_scripted end_token max_continuations rest rest []
              (S (S max_continuations)) 0%nat (collapse_runs (strip first))
              [mkMsg user prompt; mkMsg assistant first] [])
    as (new & Hrun & Hlen); try done; try (simpl; lia).
  exists new. rewrite Hrun. split; [|done].
  unfold assemble. simpl. by rewrite app_nil_r.
Qed.

Lemma continuation_assembles_all_replies_witness :
  exists reqs,
    completion_assemble (scripted [lit " world"; lit ", bye."]) NoEndToken 4
      (lit "q") (lit "hello")
    = Some (mkRun (inr (lit "hello world, bye.")) reqs)
    /\ length reqs = 2%nat.
Proof.
  apply (continuation_assembles_all_replies NoEndToken 4 (lit "q")
           (lit "hello") [lit " world"; lit ", bye."]).
  - simpl. lia.
  - vm_compute. reflexivity.
  - intros [|[|[|i]]] t Ht; vm_compute in Ht; try discriminate;
      injection Ht as <-; vm_compute; split; reflexivity.
Defined.

(** C4 as stated fails when N - 1 exceeds the continuation limit: with the
    default limit of 4, five incomplete replies followed by a complete one
    end in the exhaustion error after four requests. *)
Lemma continuation_limit_counterexample :
  let first := lit "a" in
  let rest := [lit "b"; lit "c"; lit "d"; lit "e"; lit "f."] in
  degenerate (strip first) = false
  /\ (forall i t, tested first rest !! i = Some t ->
        is_sentinel t = false
        /\ is_complete NoEndToken t = bool_decide (i = length rest))
  /\ exists reqs,
       completion_assemble (scripted rest) NoEndToken 4 (lit "q") first
       = Some (mkRun (inl ContinuationExhausted) reqs)
       /\ length reqs = 4%nat.
Proof.
  split; [by vm_compute|]. split.
  - intros [|[|[|[|[|[|i]]]]]] t Ht; vm_compute in Ht; try discriminate;
      injection Ht as <-; vm_compute; split; reflexivity.
  - eexists. split; [vm_compute; reflexivity | reflexivity].
Qed.

Lemma assemble_user h : assemble (h ++ [mkMsg user continue_prompt]) = assemble h.
Proof. rewrite assemble_app. unfold assemble at 2. simpl. by rewrite app_nil_r. Qed.

Lemma assemble_assistant h r : assemble (h ++ [mkMsg assistant r]) = assemble h ++ r.
Proof. rewrite assemble_app. unfold assemble at 2. simpl. by rewrite app_nil_r. Qed.

Lemma scripted_lookup script h k :
  length (List.filter is_user h) = (k + 2)%nat ->
  scripted script h
  = match script !! k with Some r => Reply r | None => GatewayError end.
Proof.
  intros Hh. unfold scripted. fold is_user. rewrite Hh.
  replace (k + 2 - 2)%nat with k by lia.
  destruct (script !! k); [|done].
  by destruct (Nat.leb_spec 2 (k + 2)); [|lia].
Qed.

Lemma continue_loop_open end_token max_continuations script tail :
  match tail with [] => True | s :: _ => is_sentinel (strip s) = true end ->
  forall rest done fuel turns current history reqs,
    script = done ++ rest ++ tail ->
    length done = turns ->
    length (List.filter is_user history) = S turns ->
    (max_continuations - turns < fuel)%nat ->
    Forall (fun t => is_sentinel t = false /\ is_complete end_token t = false)
      (current :: List.map strip rest) ->
    exists new,
      continue_loop (scripted script) end_token max_continuations fuel turns
        current history reqs
      = Some (mkRun (if (turns + length rest <? max_continuations)%nat
                     then inr (assemble history ++ concat rest)
                     else inl ContinuationExhausted) (reqs ++ new))
      /\ length new = Nat.min (S (length rest)) (max_continuations - turns)
      /\ forall i h, new !! i = Some h ->
           assemble h = assemble history ++ concat (take i rest).
Proof.
  intros Htail.
  induction rest as [|r rest IH];
    intros done fuel turns current history reqs Hscript Hdone Hu Hfuel Ht;
    (destruct fuel as [|fuel]; [by apply Nat.nlt_0_r in Hfuel|]); cbn [continue_loop];
    inversion Ht as [|? ? [Hs Hc] Ht']; subst; rewrite Hs, Hc; cbn [negb andb].
  - destruct (Nat.leb_spec max_continuations (length done)) as [Hm|Hm].
    + exists []. destruct (Nat.ltb_spec (length done + length (@nil str)) max_continuations);
        [simpl in *; lia|].
      rewrite app_nil_r. split; [done|]. split; [cbn [length]; lia|]. by intros i h.
    + destruct (Nat.ltb_spec (length done + length (@nil str)) max_continuations);
        [|simpl in *; lia].
      exists [history ++ [mkMsg user continue_prompt]].
      assert (Hres : match scripted (done ++ [] ++ tail)
                             (history ++ [mkMsg user continue_prompt]) with
                     | GatewayError => True
                     | Reply s => is_sentinel (strip s) = true
                     end).
      { rewrite (scripted_lookup _ _ (length done)).
        - rewrite lookup_app_r by lia. rewrite Nat.sub_diag.
          by destruct tail as [|s tail].
        - rewrite List.filter_app, length_app, Hu. simpl. lia. }
      destruct (scripted _ _) as [s|].
      * rewrite Hres. cbn [negb]. rewrite assemble_user. cbn [concat]. rewrite app_nil_r.
        split; [done|]. split; [cbn [length]; lia|].
        intros [|i] h Hi; simpl in Hi; [|done]. simplify_eq.
        by rewrite assemble_user, take_nil, app_nil_r.
      * rewrite assemble_user. cbn [concat]. rewrite app_nil_r.
        split; [done|]. split; [cbn [length]; lia|].
        intros [|i] h Hi; simpl in Hi; [|done]. simplify_eq.
        by rewrite assemble_user, take_nil, app_nil_r.
  - destruct (Nat.leb_spec max_continuations (length done)) as [Hm|Hm].
    + exists []. destruct (Nat.ltb_spec (length done + length (r :: rest)) max_continuations);
        [simpl in *; lia|].
      rewrite app_nil_r. split; [done|]. split; [cbn [length]; lia|]. by intros i h.
    + rewrite (scripted_at _ _ (length done) r).
      * inversion Ht' as [|? ? [Hs1 Hc1] Ht'']; subst. rewrite Hs1. cbn [negb].
        destruct (IH (done ++ [r]) fuel (S (length done)) (strip r)
                    ((history ++ [mkMsg user continue_prompt])
                       ++ [mkMsg assistant r])
                    (reqs ++ [history ++ [mkMsg user continue_prompt]]))
          as (new & Hrun & Hlen & Hreq).
        -- by rewrite <- !app_assoc.
        -- rewrite length_app. simpl. lia.
        -- rewrite !List.filter_app, !length_app. simpl. lia.
        -- lia.
        -- done.
        -- exists ((history ++ [mkMsg user continue_prompt]) :: new).
           rewrite Hrun. rewrite assemble_assistant, assemble_user.
           replace (S (length done) + length rest)%nat
             with (length done + length (r :: rest))%nat by (simpl; lia).
           split; [|split].
           ++ rewrite <- (app_assoc reqs). cbn [app concat].
              by rewrite <- (app_assoc (assemble history)).
           ++ cbn [length]. rewrite Hlen. lia.
           ++ intros [|i] h Hi; simpl in Hi.
              ** simplify_eq. by rewrite assemble_user, app_nil_r.
              ** rewrite (Hreq i h Hi), assemble_assistant, assemble_user.
                 simpl. by rewrite <- app_assoc.
      * rewrite List.filter_app, length_app. simpl. lia.
      * rewrite lookup_app_r by lia. by rewrite Nat.sub_diag.
Qed.

(** C10 (amended): the degenerate-output check is applied to the trimmed
    first reply only.  Whatever the gateway answers, the call ends, and it
    ends in the degenerate-output error exactly when the trimmed first
    reply is degenerate.  A continuation reply is only compared with the
    sentinel and tested for completeness, both on its trimmed text:
    - replies that are neither the sentinel nor complete, all-space and
      repetitive ones included, are appended untrimmed to the history of
      the next request; when such replies are all the gateway gives before
      it fails or answers the sentinel, the text gathered so far is handed
      on, the sentinel reply not being part of it; when there are
      [max_continuations] of them or more, the call ends in the
      continuation-limit error after [max_continuations] requests;
    - when the last of them is complete instead, the call ends with every
      reply appended. *)
Theorem degenerate_check_first_reply_only end_token max_continuations prompt
    first :
  (forall llm, exists r,
     completion_assemble llm end_token max_continuations prompt first = Some r
     /\ ((exists k, outcome r = inl (DegenerateOutput k))
         <-> degenerate (strip first) = true))
  /\ (forall rest tail,
        degenerate (strip first) = false ->
        Forall (fun t => is_sentinel t = false
                         /\ is_complete end_token t = false)
          (tested first rest) ->
        match tail with
        | [] => True
        | s :: _ => is_sentinel (strip s) = true
        end ->
        exists reqs,
          completion_assemble (scripted (rest ++ tail)) end_token
            max_continuations prompt first
          = Some (mkRun (if (length rest <? max_continuations)%nat
                         then inr (concat (first :: rest))
                         else inl ContinuationExhausted) reqs)
          /\ length reqs = Nat.min (S (length rest)) max_continuations
          /\ forall i h, reqs !! i = Some h ->
               assemble h = concat (first :: take i rest))
  /\ (forall rest,
        degenerate (strip first) = false ->
        (length rest <= max_continuations)%nat ->
        (forall i t, tested first rest !! i = Some t ->
           is_sentinel t = false
           /\ is_complete end_token t = bool_decide (i = length rest)) ->
        exists reqs,
          completion_assemble (scripted rest) end_token max_continuations
            prompt first
          = Some (mkRun (inr (concat (first :: rest))) reqs)
          /\ length reqs = length rest).
Proof.
  split; [|split].
  - intros llm.
    destruct (completion_assemble_total llm end_token max_continuations
                prompt first) as [r Hr].
    exists r. split; [done|]. revert Hr. unfold completion_assemble.
    fold (degenerate (strip first)).
    destruct (degenerate (strip first)) eqn:Hd.
    + intros ?; simplify_eq. simpl. split; eauto.
    + intros Hr. split; [|done]. intros [k Hk].
      by eapply continue_loop_not_degenerate in Hr.
  - intros rest tail Hd Ht Htail. unfold completion_assemble.
    fold (degenerate (strip first)). rewrite Hd.
    destruct (continue_loop_open end_token max_continuations (rest ++ tail)
                tail Htail rest [] (S (S max_continuations)) 0%nat
                (collapse_runs (strip first))
                [mkMsg user prompt; mkMsg assistant first] [])
      as (new & Hrun & Hlen & Hreq); try done; try lia.
    exists new. rewrite Hrun. rewrite Nat.sub_0_r in Hlen.
    assert (Ha : assemble [mkMsg user prompt; mkMsg assistant first] = first)
      by (unfold assemble; simpl; by rewrite app_nil_r).
    rewrite Ha in *. split; [done|]. split; [done|].
    intros i h Hi. by rewrite (Hreq i h Hi).
  - intros rest Hd Hmax Ht. unfold completion_assemble.
    fold (degenerate (strip first)). rewrite Hd.
    destruct (continue_loop_scripted end_token max_continuations rest rest []
                (S (S max_continuations)) 0%nat (collapse_runs (strip first))
                [mkMsg user prompt; mkMsg assistant first] [])
      as (new & Hrun & Hlen); try done; try (simpl; lia).
    exists new. rewrite Hrun. split; [|done].
    unfold assemble. simpl. by rewrite app_nil_r.
Qed.

Lemma degenerate_check_first_reply_only_witness :
  exists reqs,
    completion_assemble
      (scripted ([repeat_char c_space 5] ++ [lit " Completed. "]))
      NoEndToken 4 (lit "q") (lit "abc")
    = Some (mkRun (inr (lit "abc     ")) reqs)
    /\ length reqs = 2%nat
    /\ forall i h, reqs !! i = Some h ->
         assemble h = concat (lit "abc" :: take i [repeat_char c_space 5]).
Proof.
  apply (proj1 (proj2 (degenerate_check_first_reply_only NoEndToken 4
                         (lit "q") (lit "abc")))
           [repeat_char c_space 5] [lit " Completed. "]).
  - vm_compute. reflexivity.
  - repeat constructor; vm_compute; reflexivity.
  - vm_compute. reflexivity.
Defined.

(** C10 as stated fails in two ways.  An all-space continuation reply is
    incomplete, so at the limit it does fail the call, with the
    continuation-limit error; and a reply that is the sentinel once
    trimmed and lower-cased is not appended to the history. *)
Lemma all_space_reply_counterexample :
  let blank := repeat_char c_space 5 in
  degenerate (strip (lit "abc")) = false
  /\ (exists reqs,
        completion_assemble (scripted [blank]) NoEndToken 1 (lit "q")
          (lit "abc")
        = Some (mkRun (inl ContinuationExhausted) reqs))
  /\ (exists reqs,
        completion_assemble (scripted [lit " Completed. "]) NoEndToken 4
          (lit "q") (lit "abc")
        = Some (mkRun (inr (lit "abc")) reqs)).
Proof.
  split; [by vm_compute|].
  split; eexists; vm_compute; reflexivity.
Qed.

End ContinuationClaims.

(* ===================================================================== *)
(** ** The event loop: invariants *)
(* ===================================================================== *)

Module FanoutFacts.
Import Fanout FanoutAux.

Lemma cnt_cons s x l : cnt s (x :: l) = (weight x s + cnt s l)%nat.
Proof.
  unfold cnt, weight. simpl. by repeat case_bool_decide; case_decide.
Qed.

Lemma cnt_insert s l i x y :
  l !! i = Some x ->
  (cnt s (<[i := y]> l) + weight x s = cnt s l + weight y s)%nat.
Proof.
  revert i; induction l as [|z l IH]; intros [|i] Hi; simplify_eq/=.
  - rewrite !cnt_cons. lia.
  - rewrite !cnt_cons. specialize (IH i Hi). lia.
Qed.

Lemma cnt_pos s l : (0 < cnt s l)%nat -> exists i, l !! i = Some s.
Proof.
  induction l as [|x l IH]; [unfold cnt; simpl; lia|].
  rewrite cnt_cons. unfold weight. case_decide as Hx.
  - intros _. exists 0%nat. by subst.
  - intros H. destruct IH as [i Hi]; [lia|]. by exists (S i).
Qed.

Lemma cnt_replicate s x n :
  cnt s (replicate n x) = (n * weight x s)%nat.
Proof.
  induction n as [|n IH]; [done|]. simpl replicate. rewrite cnt_cons, IH. lia.
Qed.

Lemma in_flight_cnt st : in_flight st = cnt Running (status st).
Proof. done. Qed.

Lemma all_done_false st :
  all_done st = false ->
  exists i s, status st !! i = Some s /\ s <> Done.
Proof.
  unfold all_done. generalize (status st). intros l.
  induction l as [|x l IH]; [done|]. simpl.
  case_bool_decide as Hx; simpl.
  - intros (i & s & Hi & Hs)%IH. by exists (S i), s.
  - intros _. by exists 0%nat, x.
Qed.

Lemma all_done_true st i :
  all_done st = true -> (i < length (status st))%nat ->
  status st !! i = Some Done.
Proof.
  unfold all_done. rewrite forallb_forall. intros H Hi.
  destruct (lookup_lt_is_Some_2 _ _ Hi) as [s Hs]. rewrite Hs. f_equal.
  specialize (H s). rewrite bool_decide_eq_true in H. apply H.
  apply list_elem_of_In. by eapply list_elem_of_lookup_2.
Qed.

Lemma step_length st i : length (status (step st i)) = length (status st).
Proof.
  unfold step. destruct (status st !! i) as [[]|]; [|by simpl; rewrite length_insert|done..].
  destruct (permits st) as [[|n]|]; simpl; by rewrite ?length_insert.
Qed.

Lemma run_length sched st :
  length (status (run sched st)) = length (status st).
Proof.
  revert st; induction sched as [|i sched IH]; intros st; [done|].
  unfold run in *. simpl. by rewrite IH, step_length.
Qed.

Lemma run_app s1 s2 st : run (s1 ++ s2) st = run s2 (run s1 st).
Proof. unfold run. by rewrite foldl_app. Qed.

(** *** The semaphore invariant *)

Lemma sem_inv_start K sem : sem_inv sem (start K sem).
Proof.
  destruct sem as [L|]; [|done]. exists L. split; [done|].
  rewrite in_flight_cnt. simpl. rewrite cnt_replicate. unfold weight.
  case_decide; [done | lia].
Qed.

Lemma sem_inv_step sem st i : sem_inv sem st -> sem_inv sem (step st i).
Proof.
  intros Hinv. unfold step.
  destruct (status st !! i) as [[]|] eqn:Hi; [| |done..].
  - (* a waiting unit acquires *)
    pose proof (cnt_insert Running _ _ _ Running Hi) as Hc.
    unfold weight in Hc. repeat case_decide; try done.
    destruct sem as [L|]; simpl in *.
    + destruct Hinv as (n & Hn & Hsum). rewrite Hn.
      destruct n as [|n]; [exists 0%nat; by rewrite Hn|].
      exists n. split; [done|]. rewrite in_flight_cnt in *. simpl. lia.
    + by rewrite Hinv.
  - (* a running unit releases *)
    pose proof (cnt_insert Running _ _ _ Done Hi) as Hc.
    unfold weight in Hc. repeat case_decide; try done.
    destruct sem as [L|]; simpl in *.
    + destruct Hinv as (n & Hn & Hsum). exists (S n). rewrite Hn.
      split; [done|]. rewrite in_flight_cnt in *. simpl. lia.
    + by rewrite Hinv.
Qed.

Lemma sem_inv_run sem sched st : sem_inv sem st -> sem_inv sem (run sched st).
Proof.
  revert st; induction sched as [|i sched IH]; intros st H; [done|].
  apply IH. by apply sem_inv_step.
Qed.

(** *** The completion log *)

Lemma log_inv_start K sem : log_inv (start K sem).
Proof.
  split; [constructor|]. intros i. simpl. split; [by intros ?%elem_of_nil|].
  intros [? _]%lookup_replicate. done.
Qed.

Lemma log_inv_step st i : log_inv st -> log_inv (step st i).
Proof.
  intros [Hnd Hlog]. unfold step.
  destruct (status st !! i) as [[]|] eqn:Hi; [| |done..].
  - assert (forall j, <[i:=Running]> (status st) !! j = Some Done
                      <-> status st !! j = Some Done) as Hj.
    { intros j. destruct (decide (i = j)) as [->|Hne].
      - rewrite list_lookup_insert_eq by (by eapply lookup_lt_Some).
        rewrite Hi. naive_solver.
      - by rewrite list_lookup_insert_ne. }
    destruct (permits st) as [[|n]|]; [done| |]; split; simpl; try done;
      intros j; by rewrite Hj.
  - split; simpl.
    + apply NoDup_app. split; [done|]. split; [|apply NoDup_singleton].
      intros j Hj ->%list_elem_of_singleton. apply Hlog in Hj. congruence.
    + intros j. rewrite elem_of_app, list_elem_of_singleton.
      destruct (decide (i = j)) as [->|Hne].
      * rewrite list_lookup_insert_eq by (by eapply lookup_lt_Some).
        naive_solver.
      * rewrite list_lookup_insert_ne by done. rewrite Hlog. naive_solver.
Qed.

Lemma log_inv_run sched st : log_inv st -> log_inv (run sched st).
Proof.
  revert st; induction sched as [|i sched IH]; intros st H; [done|].
  apply IH. by apply log_inv_step.
Qed.

Lemma finished_all_done st :
  log_inv st -> all_done st = true ->
  finished st ≡ₚ seq 0 (length (status st)).
Proof.
  intros [Hnd Hlog] Hall. apply NoDup_Permutation; [done|apply NoDup_seq|].
  intros i. rewrite Hlog, elem_of_seq. split.
  - intros H%lookup_lt_Some. lia.
  - intros [_ H]. by apply all_done_true.
Qed.

End FanoutFacts.

(* ===================================================================== *)
(** ** The fan-out orchestrator: claims *)
(* ===================================================================== *)

From Stdlib Require Import DecimalNat Permutation.

Module FanoutClaims.
Import Fanout FanoutAux FanoutFacts.

(** *** Every unit can run to completion *)

Lemma progress sem st :
  sem_inv sem st -> (forall L, sem = Some L -> (0 < L)%nat) ->
  all_done st = false ->
  exists i, (pending (step st i) < pending st)%nat.
Proof.
  intros Hinv Hpos Hnd.
  destruct (decide (0 < cnt Running (status st))%nat) as [Hrun|Hrun].
  - destruct (cnt_pos _ _ Hrun) as [i Hi]. exists i.
    unfold step, pending. rewrite Hi. cbn [status].
    pose proof (cnt_insert Running _ _ _ Done Hi) as H1.
    pose proof (cnt_insert Waiting _ _ _ Done Hi) as H2.
    unfold weight in *. repeat case_decide; try done. lia.
  - destruct (all_done_false _ Hnd) as (i & s & Hi & Hs). exists i.
    destruct s; [| |done].
    + unfold step, pending. rewrite Hi.
      pose proof (cnt_insert Running _ _ _ Running Hi) as H1.
      pose proof (cnt_insert Waiting _ _ _ Running Hi) as H2.
      unfold weight in *. repeat case_decide; try done.
      destruct sem as [L|]; simpl in Hinv.
      * destruct Hinv as (n & Hn & Hsum). rewrite Hn.
        rewrite in_flight_cnt in Hsum. specialize (Hpos L eq_refl).
        destruct n as [|n]; [lia|]. cbn [status]. lia.
      * rewrite Hinv. cbn [status]. lia.
    + exfalso. apply Hrun.
      pose proof (cnt_insert Running _ _ _ Done Hi) as H1.
      unfold weight in H1. repeat case_decide; try done. lia.
Qed.

Lemma completes sem st :
  sem_inv sem st -> (forall L, sem = Some L -> (0 < L)%nat) ->
  exists more, all_done (run more st) = true.
Proof.
  intros Hinv Hpos. remember (pending st) as m eqn:Hm.
  revert st Hinv Hm. induction (lt_wf m) as [m _ IH]. intros st Hinv ->.
  destruct (all_done st) eqn:Hd; [by exists []|].
  destruct (progress sem st Hinv Hpos Hd) as [i Hi].
  destruct (IH _ Hi (step st i)) as [more Hmore];
    [by apply sem_inv_step | done|].
  by exists (i :: more).
Qed.

Lemma make_semaphore_pos c L : make_semaphore c = Some L -> (0 < L)%nat.
Proof.
  unfold make_semaphore. destruct (Z.ltb_spec 0 c); [|done].
  intros ?; simplify_eq. lia.
Qed.

Lemma completes_from_start K c sched :
  exists more,
    all_done (run (sched ++ more) (start K (make_semaphore c))) = true.
Proof.
  destruct (completes (make_semaphore c)
              (run sched (start K (make_semaphore c)))) as [more H].
  - apply sem_inv_run, sem_inv_start.
  - intros L. apply make_semaphore_pos.
  - exists more. by rewrite run_app.
Qed.

(** *** C6 *)

Lemma start_all_in_flight K j :
  (j <= K)%nat ->
  status (run (seq 0 j) (start K None))
    = replicate j Running ++ replicate (K - j) Waiting
  /\ permits (run (seq 0 j) (start K None)) = None.
Proof.
  induction j as [|j IH]; intros Hj.
  - simpl. by rewrite Nat.sub_0_r.
  - rewrite seq_S, run_app. destruct IH as [IH1 IH2]; [lia|].
    simpl. unfold step. rewrite IH1, IH2.
    rewrite lookup_app_r by (rewrite length_replicate; lia).
    rewrite length_replicate, Nat.sub_diag.
    replace (K - j)%nat with (S (K - S j)) by lia. simpl. split; [|done].
    rewrite insert_app_r_alt by (rewrite length_replicate; lia).
    rewrite length_replicate, Nat.sub_diag. simpl.
    change (Running :: replicate j Running ++ ?r)
      with (replicate (S j) Running ++ r).
    by rewrite replicate_S_end, <- app_assoc.
Qed.

(** C6: with an admission limit [L > 0], in every state the event loop can
    reach (after every schedule, so at every instant) at most [L] units are
    inside their semaphore-guarded work; with limit 0 there is no
    semaphore and all [K] units can be inside it at once.  The loop is
    the one both [invoke_many] and [invoke_many_agent] run their tasks
    on. *)
Theorem admission_limit_bounds_in_flight self_concurrency concurrency K :
  let L := effective_concurrency self_concurrency concurrency in
  (forall schedule,
     (0 < L)%Z ->
     (in_flight (run schedule (start K (make_semaphore L))) <= Z.to_nat L)%nat)
  /\ (L = 0%Z ->
      exists schedule,
        in_flight (run schedule (start K (make_semaphore L))) = K).
Proof.
  intros L. split.
  - intros schedule HL.
    pose proof (sem_inv_run (make_semaphore L) schedule _
                  (sem_inv_start K (make_semaphore L))) as Hinv.
    unfold make_semaphore in *. destruct (Z.ltb_spec 0 L); [|lia].
    destruct Hinv as (n & _ & Hsum). lia.
  - intros HL. exists (seq 0 K). subst L. rewrite HL.
    change (make_semaphore 0) with (@None nat).
    destruct (start_all_in_flight K K) as [Hs _]; [lia|].
    rewrite in_flight_cnt, Hs, Nat.sub_diag. simpl. rewrite app_nil_r.
    rewrite cnt_replicate. unfold weight. case_decide; [lia | done].
Qed.

Lemma admission_limit_bounds_in_flight_witness :
  (in_flight (run [0; 1; 2; 3; 4; 0; 3]%nat (start 5 (make_semaphore 2)))
   <= Z.to_nat 2)%nat.
Proof.
  apply (proj1 (admission_limit_bounds_in_flight 0 (Some 2%Z) 5)). done.
Defined.

Section InvokeManyFacts.

Context {E V : Type}.
Variable invoke : nat -> Res E V.

Lemma run_one_tagged i : run_one invoke i = Val (tagged invoke i).
Proof. unfold run_one, tagged. by destruct (invoke i). Qed.

Lemma first_raised_run_one done : first_raised (run_one invoke) done = None.
Proof.
  unfold first_raised. induction done as [|i done IH]; [done|].
  simpl. by rewrite run_one_tagged.
Qed.

Lemma values_run_one K : values (run_one invoke) K = tagged invoke <$> seq 0 K.
Proof.
  unfold values. generalize 0%nat. induction K as [|K IH]; intros a; [done|].
  simpl. rewrite run_one_tagged. simpl. by rewrite IH.
Qed.

Lemma sort_by_index_tagged a K :
  sort_by_index (tagged invoke <$> seq a K) = tagged invoke <$> seq a K.
Proof.
  revert a; induction K as [|K IH]; intros a; [done|].
  simpl. unfold sort_by_index in *. simpl. rewrite IH.
  destruct K as [|K]; [done|]. simpl.
  destruct (Nat.ltb_spec a (S a)); [done | lia].
Qed.

Lemma propagate_spec (rs : list (nat * (E + V))) fe out :
  propagate rs fe out
  = match (match fe with
           | Some e => Some e
           | None => head (omap (fun r => error_of r.2) rs)
           end) with
    | Some e => Exc e
    | None => Val (out ++ (snd <$> rs))
    end.
Proof.
  revert fe out; induction rs as [|[i r] rs IH]; intros fe out.
  - simpl. rewrite app_nil_r. by destruct fe.
  - simpl. rewrite IH. destruct fe as [e|]; [by destruct r|].
    destruct r as [e|v]; simpl; [done|].
    destruct (head _); [done|]. by rewrite <- app_assoc.
Qed.

Lemma first_error_tagged K :
  head (omap (fun r => error_of r.2) (tagged invoke <$> seq 0 K)) = first_error invoke K.
Proof.
  unfold first_error. generalize 0%nat.
  induction K as [|K IH]; intros a; [done|].
  simpl. unfold tagged at 1. simpl. destruct (invoke a); simpl; [apply IH|done].
Qed.

Lemma all_values_tagged K : snd <$> (tagged invoke <$> seq 0 K) = all_values invoke K.
Proof. unfold all_values. rewrite <- list_fmap_compose. done. Qed.

(** The result of [invoke_many] does not depend on the schedule, only its
    being available does. *)
Lemma invoke_many_eq self_c c K schedule :
  invoke_many invoke self_c c K schedule
  = if all_done (run schedule
                   (start K (make_semaphore (effective_concurrency self_c c))))
    then Some (match first_error invoke K with
               | Some e => Exc e
               | None => Val (all_values invoke K)
               end)
    else None.
Proof.
  unfold invoke_many, gather. rewrite first_raised_run_one.
  destruct (all_done _); [|done].
  rewrite run_length. simpl. rewrite length_replicate.
  rewrite values_run_one, sort_by_index_tagged, propagate_spec.
  by rewrite first_error_tagged, all_values_tagged.
Qed.

Lemma first_error_None K :
  (forall i, (i < K)%nat -> exists v, invoke i = Val v) ->
  first_error invoke K = None
  /\ exists vs, all_values invoke K = inr <$> vs /\ length vs = K
       /\ forall i v, vs !! i = Some v -> invoke i = Val v.
Proof.
  unfold first_error, all_values.
  assert (Hgen : forall a,
    (forall i, (a <= i < a + K)%nat -> exists v, invoke i = Val v) ->
    omap (fun i => match invoke i with Exc e => Some e | Val _ => None end)
      (seq a K) = []
    /\ exists vs,
         List.map (fun i => match invoke i with Val v => inr v | Exc e => inl e end)
           (seq a K) = inr <$> vs
         /\ length vs = K
         /\ forall i v, vs !! i = Some v -> invoke (a + i)%nat = Val v).
  { induction K as [|K' IH]; intros a Ha.
    - split; [done|]. exists []. by repeat split.
    - destruct (Ha a) as [v Hv]; [lia|].
      destruct (IH (S a)) as (H1 & vs & H2 & H3 & H4); [intros i Hi; apply Ha; lia|].
      simpl. rewrite Hv. split; [done|]. exists (v :: vs). simpl.
      rewrite H2. repeat split; [by rewrite H3|].
      intros [|i] w Hw; simpl in Hw; simplify_eq.
      + by rewrite Nat.add_0_r.
      + rewrite Nat.add_succ_r. by apply H4. }
  intros H. destruct (Hgen 0%nat) as (H1 & vs & H2 & H3 & H4).
  { intros i Hi. apply H. lia. }
  rewrite H1. split; [done|]. by exists vs.
Qed.

Lemma first_error_Some K i e :
  (i < K)%nat -> invoke i = Exc e ->
  (forall j, (j < i)%nat -> exists v, invoke j = Val v) ->
  first_error invoke K = Some e.
Proof.
  intros Hi He Hlt. unfold first_error.
  replace K with (i + S (K - S i))%nat by lia.
  rewrite seq_app, omap_app.
  destruct (first_error_None i Hlt) as [Hn _]. unfold first_error in Hn.
  destruct (omap _ (seq 0 i)) eqn:Ho; [|done].
  simpl. by rewrite He.
Qed.

End InvokeManyFacts.

(** C2: under [invoke_many], from every point of every schedule the event
    loop can bring all units to completion, whatever their outcomes; the
    call returns or raises only once all [K] units are done; when no unit
    raised it returns the [K] values in submission order, and when some
    unit raised it raises the error of the failing unit of least index and
    returns no value. *)
Theorem invoke_many_ordered_fail_fast {E V} (invoke : nat -> Res E V)
    self_concurrency concurrency K :
  (forall schedule, exists more,
     is_Some (invoke_many invoke self_concurrency concurrency K (schedule ++ more)))
  /\ (forall schedule res,
        invoke_many invoke self_concurrency concurrency K schedule = Some res ->
        all_done (run schedule
                    (start K (make_semaphore
                                (effective_concurrency self_concurrency concurrency))))
          = true
        /\ ((forall i, (i < K)%nat -> exists v, invoke i = Val v) ->
            exists vs, res = Val (inr <$> vs) /\ length vs = K
              /\ forall i v, vs !! i = Some v -> invoke i = Val v)
        /\ (forall i e,
              (i < K)%nat -> invoke i = Exc e ->
              (forall j, (j < i)%nat -> exists v, invoke j = Val v) ->
              res = Exc e)).
Proof.
  split.
  - intros schedule.
    destruct (completes_from_start K
                (effective_concurrency self_concurrency concurrency) schedule)
      as [more Hmore].
    exists more. rewrite invoke_many_eq, Hmore. done.
  - intros schedule res. rewrite invoke_many_eq.
    destruct (all_done _); [|done]. intros ?; simplify_eq.
    split; [done|]. split.
    + intros Hall. destruct (first_error_None invoke K Hall) as (-> & vs & -> & ?).
      by exists vs.
    + intros i e Hi He Hlt. by rewrite (first_error_Some invoke K i e).
Qed.

Lemma uint_of_digits_of_uint d : uint_of_digits (digits_of_uint d) = d.
Proof. induction d; simpl; by rewrite ?IHd. Qed.

Lemma of_uint_zeros k d :
  Nat.of_uint (uint_of_digits (repeat_char 48 k ++ digits_of_uint d))
  = Nat.of_uint d.
Proof.
  induction k as [|k IH]; simpl.
  - by rewrite uint_of_digits_of_uint.
  - exact IH.
Qed.

Lemma format_06d_inj i j : format_06d i = format_06d j -> i = j.
Proof.
  intros H. apply (f_equal (fun s => Nat.of_uint (uint_of_digits s))) in H.
  unfold format_06d in H. rewrite !of_uint_zeros in H.
  by rewrite !Unsigned.of_to in H.
Qed.

Lemma digits_of_uint_word d : Forall (fun c => is_word c = true) (digits_of_uint d).
Proof. induction d; simpl; constructor; done. Qed.

Lemma format_06d_word i : Forall (fun c => is_word c = true) (format_06d i).
Proof.
  unfold format_06d. apply Forall_app. split; [|apply digits_of_uint_word].
  unfold repeat_char. generalize (6 - length (digits_of_uint (Nat.to_uint i)))%nat.
  intros n. induction n; simpl; constructor; done.
Qed.

Lemma sub_nonword_word b w :
  Forall (fun c => is_word c = true) w -> sub_nonword b w = w.
Proof.
  intros H. revert b. induction H as [|c w Hc _ IH]; intros b; [done|].
  simpl. by rewrite Hc, IH.
Qed.

Lemma sub_nonword_app b s c w t :
  is_word c = true -> Forall (fun c => is_word c = true) w ->
  sub_nonword b (s ++ (c :: w) ++ t)
  = sub_nonword b s ++ (c :: w) ++ sub_nonword false t.
Proof.
  intros Hc Hw. revert b. induction s as [|x s IH]; intros b.
  - simpl. rewrite Hc. f_equal. clear Hc.
    induction Hw as [|y w Hy _ IHw]; [done|]. simpl. by rewrite Hy, IHw.
  - simpl. destruct (is_word x); [by rewrite IH|].
    destruct b; by rewrite IH.
Qed.

Lemma child_name_split self_name :
  exists Q, forall i, child_name self_name i = Q ++ format_06d i.
Proof.
  set (G := sub_nonword false (self_name ++ lit ".")).
  assert (Hsub : forall i,
    sub_nonword false (unit_name self_name i)
    = (G ++ lit "child_") ++ format_06d i).
  { intros i. unfold unit_name.
    assert (self_name ++ lit ".child." ++ format_06d i
            = (self_name ++ lit ".") ++ (99 :: lit "hild")
                ++ (lit "." ++ format_06d i)) as ->
      by (by rewrite <- app_assoc).
    rewrite sub_nonword_app; [|done|by repeat constructor].
    change (sub_nonword false (lit "." ++ format_06d i))
      with (95 :: sub_nonword true (format_06d i)).
    rewrite (sub_nonword_word true) by apply format_06d_word.
    fold G. by rewrite <- !app_assoc. }
  destruct (G ++ lit "child_") as [|c X] eqn:HX.
  { by destruct G. }
  exists (if is_name_start c then c :: X else lit "a_" ++ c :: X).
  intros i. unfold child_name, _sanitize_name. rewrite Hsub. simpl.
  by destruct (is_name_start c).
Qed.

Lemma child_name_inj self_name i j :
  child_name self_name i = child_name self_name j -> i = j.
Proof.
  destruct (child_name_split self_name) as [Q HQ]. rewrite !HQ.
  intros H%app_inv_head. by apply format_06d_inj.
Qed.

Section AgentFacts.

Context {P Ctx : Type}.
Variable self_name : str.
Variable agent_cls_name : str.
Variable dumps : P -> nat -> str.
Variable child : nat -> P -> @ChildRun Ctx.
Variable params : list P.

#[local] Abbreviation invoke_one := (invoke_one_agent self_name agent_cls_name dumps child).
#[local] Abbreviation run_one := (run_one_agent self_name agent_cls_name dumps child).
#[local] Abbreviation task := (agent_task self_name agent_cls_name dumps child params).
#[local] Abbreviation success_of := (success_of self_name child).
#[local] Abbreviation failure_of := (failure_of self_name agent_cls_name dumps child).
#[local] Abbreviation entry := (entry self_name child params).

Lemma run_one_agent_eq i p :
  run_one i p = (Val (success_of i p), option_list (failure_of i p)).
Proof.
  unfold run_one_agent, success_of, failure_of, invoke_one_agent.
  by destruct (child i p).
Qed.

Lemma first_raised_agent done : first_raised task done = None.
Proof.
  unfold first_raised. induction done as [|i done IH]; [done|].
  simpl. unfold agent_task at 1.
  destruct (params !! i); [by rewrite run_one_agent_eq|done].
Qed.

Lemma values_agent K : values task K = entry <$> seq 0 K.
Proof.
  unfold values. generalize 0%nat. induction K as [|K IH]; intros a; [done|].
  simpl. rewrite IH. unfold agent_task, entry.
  destruct (params !! a); simpl; [by rewrite run_one_agent_eq|done].
Qed.

Lemma merge_results_snoc (rs : list (option (str * Ctx))) r :
  merge_results (rs ++ [r])
  = match r with
    | Some (name, ctx) => <[name := ctx]> (merge_results rs)
    | None => merge_results rs
    end.
Proof. unfold merge_results. by rewrite foldl_app. Qed.

Lemma merge_results_lookup (rs : list (option (str * Ctx))) name ctx :
  (forall i j v w, rs !! i = Some (Some (name, v)) ->
                   rs !! j = Some (Some (name, w)) -> i = j) ->
  merge_results rs !! name = Some ctx
  <-> exists i, rs !! i = Some (Some (name, ctx)).
Proof.
  induction rs as [|r rs IH] using rev_ind; intros Hinj.
  - unfold merge_results. simpl. rewrite lookup_empty.
    split; [done | by intros [i ?]].
  - rewrite merge_results_snoc.
    assert (Hinj' : forall i j v w, rs !! i = Some (Some (name, v)) ->
                      rs !! j = Some (Some (name, w)) -> i = j).
    { intros i j v w Hi Hj.
      apply (Hinj i j v w); by apply lookup_app_l_Some. }
    specialize (IH Hinj').
    assert (Hlast : (rs ++ [r]) !! length rs = Some r).
    { by rewrite lookup_app_r, Nat.sub_diag by lia. }
    destruct r as [[k v]|].
    + destruct (decide (k = name)) as [->|Hne].
      * rewrite lookup_insert_eq. split.
        -- intros ?; simplify_eq. by exists (length rs).
        -- intros [i Hi]. rewrite (Hinj i (length rs) ctx v Hi Hlast) in Hi.
           rewrite Hlast in Hi. by simplify_eq.
      * rewrite lookup_insert_ne by done. rewrite IH. split.
        -- intros [i Hi]. exists i. by apply lookup_app_l_Some.
        -- intros [i Hi]. apply lookup_app_Some in Hi as [Hi|[_ Hi]]; [by exists i|].
           destruct (i - length rs)%nat; simpl in Hi; by simplify_eq.
    + rewrite IH. split.
      * intros [i Hi]. exists i. by apply lookup_app_l_Some.
      * intros [i Hi]. apply lookup_app_Some in Hi as [Hi|[_ Hi]]; [by exists i|].
        destruct (i - length rs)%nat; simpl in Hi; by simplify_eq.
Qed.

Lemma entry_lookup K i name ctx :
  (entry <$> seq 0 K) !! i = Some (Some (name, ctx))
  <-> (i < K)%nat /\ exists p, params !! i = Some p
        /\ name = child_name self_name i /\ child i p = ChildCompletes ctx.
Proof.
  rewrite list_lookup_fmap. split.
  - intros H. destruct (seq 0 K !! i) as [k|] eqn:Hk; [|done].
    apply lookup_seq in Hk as [-> Hi]. simpl in H. split; [done|].
    unfold entry in H. destruct (params !! i) as [p|]; [|done]. exists p.
    simpl in H. unfold success_of in H. destruct (child i p); by simplify_eq.
  - intros (Hi & p & Hp & -> & Hc). rewrite lookup_seq_lt by done. simpl.
    unfold entry. rewrite Hp. simpl. unfold success_of. by rewrite Hc.
Qed.

Lemma failures_of_seq K :
  failures_of self_name agent_cls_name dumps child params (seq 0 K)
  = omap (fun i => p ← params !! i; failure_of i p) (seq 0 K).
Proof.
  unfold failures_of. generalize 0%nat.
  induction K as [|K IH]; intros a; [done|]. simpl. rewrite IH.
  destruct (params !! a) as [p|]; simpl; [|done].
  rewrite run_one_agent_eq. simpl. by destruct (failure_of a p).
Qed.

Lemma invoke_many_agent_eq self_c c schedule :
  let st := run schedule
              (start (length params)
                 (make_semaphore (effective_concurrency self_c c))) in
  invoke_many_agent self_name agent_cls_name dumps child params self_c c schedule
  = if all_done st
    then Some (Val (merge_results (entry <$> seq 0 (length params)),
                    failures_of self_name agent_cls_name dumps child params
                      (finished st)))
    else None.
Proof.
  intros st. unfold invoke_many_agent, gather. fold st.
  rewrite first_raised_agent. destruct (all_done st); [|done].
  unfold st at 1. rewrite run_length. simpl. rewrite length_replicate.
  by rewrite values_agent.
Qed.

End AgentFacts.

(** C3 (amended): under [invoke_many_agent] every unit can be brought to
    completion whatever the others do, and the call never raises: it
    returns the mapping from child name to context holding exactly the
    units whose child completed, and a list of failure records that is,
    up to order, one record per failed unit, made of the unit's generated
    name, its submission index, the error text and the original input
    itself (not a truncated preview of it). *)
Theorem invoke_many_agent_aggregate_partial {P Ctx : Type}
    (self_name agent_cls_name : str) (dumps : P -> nat -> str)
    (child : nat -> P -> @ChildRun Ctx) (params : list P)
    self_concurrency concurrency :
  (forall schedule, exists more,
     is_Some (invoke_many_agent self_name agent_cls_name dumps child params
                self_concurrency concurrency (schedule ++ more)))
  /\ (forall schedule res,
        invoke_many_agent self_name agent_cls_name dumps child params
          self_concurrency concurrency schedule = Some res ->
        exists merged failures,
          res = Val (merged, failures)
          /\ (forall name ctx,
                merged !! name = Some ctx
                <-> exists i p, params !! i = Some p
                      /\ name = child_name self_name i
                      /\ child i p = ChildCompletes ctx)
          /\ failures ≡ₚ expected_failures self_name agent_cls_name dumps child params
          /\ (forall r,
                r ∈ failures
                <-> exists i p e, params !! i = Some p
                      /\ (invoke_one_agent self_name agent_cls_name dumps child i p).1
                         = Exc e
                      /\ r = mkFailure (unit_name self_name i) i
                               (exn_type e ++ lit ": " ++ exn_msg e) p)).
Proof.
  split.
  - intros schedule.
    destruct (completes_from_start (length params)
                (effective_concurrency self_concurrency concurrency) schedule)
      as [more Hmore].
    exists more. rewrite invoke_many_agent_eq. cbv zeta. by rewrite Hmore.
  - intros schedule res. rewrite invoke_many_agent_eq. cbv zeta.
    set (st := run schedule _). destruct (all_done st) eqn:Hdone; [|done].
    intros ?; simplify_eq. eexists _, _. split; [done|].
    assert (Hperm : failures_of self_name agent_cls_name dumps child params
                      (finished st)
                    ≡ₚ expected_failures self_name agent_cls_name dumps child params).
    { unfold expected_failures. rewrite <- failures_of_seq.
      unfold failures_of. apply Permutation_flat_map.
      replace (length params) with (length (status st)).
      - apply finished_all_done; [|done]. apply log_inv_run, log_inv_start.
      - unfold st. rewrite run_length. simpl. by rewrite length_replicate. }
    split; [|split; [done|]].
    + intros name ctx. rewrite merge_results_lookup.
      * split.
        -- intros [i (Hi & p & Hp & -> & Hc)%entry_lookup]. by exists i, p.
        -- intros (i & p & Hp & -> & Hc). exists i. apply entry_lookup.
           split; [by eapply lookup_lt_Some|]. by exists p.
      * intros i j v w (_ & _ & _ & Hn1 & _)%entry_lookup
          (_ & _ & _ & Hn2 & _)%entry_lookup.
        apply (child_name_inj self_name). congruence.
    + intros r. rewrite Hperm. unfold expected_failures.
      rewrite list_elem_of_omap. split.
      * intros (i & [_ Hi]%elem_of_seq & Hr).
        destruct (params !! i) as [p|] eqn:Hp; [|done]. simpl in Hr.
        unfold failure_of in Hr.
        destruct (invoke_one_agent _ _ _ _ i p).1 as [|e] eqn:He; [done|].
        simplify_eq. by exists i, p, e.
      * intros (i & p & e & Hp & He & ->). exists i. split.
        -- apply elem_of_seq. split; [lia|]. simpl. by eapply lookup_lt_Some.
        -- rewrite Hp. simpl. unfold failure_of. by rewrite He.
Qed.

Lemma invoke_many_ordered_fail_fast_witness :
  let invoke := fun i : nat =>
    if (i =? 1)%nat then Exc (lit "B failed") else Val i in
  exists res,
    invoke_many invoke 0 None 3 [2; 0; 1; 1; 0; 2]%nat = Some res
    /\ res = Exc (lit "B failed").
Proof.
  intros invoke. eexists. split; [vm_compute; reflexivity|].
  refine (proj2 (proj2 (proj2 (invoke_many_ordered_fail_fast invoke 0 None 3)
                          [2; 0; 1; 1; 0; 2]%nat _ _)) 1%nat _ _ _ _).
  - vm_compute. reflexivity.
  - lia.
  - reflexivity.
  - intros [|j] Hj; [by exists 0%nat | lia].
Defined.

Lemma truncate_preview_length s : (length (truncate_preview s) <= 801)%nat.
Proof.
  unfold truncate_preview. destruct (Nat.ltb_spec 800 (length s)).
  - rewrite length_app, length_take. cbn [length]. lia.
  - lia.
Qed.

Lemma invoke_many_agent_aggregate_partial_witness :
  let child := fun (i : nat) (p : str) =>
    if (i =? 1)%nat
    then ChildRaises i (mkExn (lit "ValueError") (lit "boom")) (lit "tb")
    else ChildCompletes i in
  exists res,
    invoke_many_agent (lit "root") (lit "Sub") (fun p _ => p) child
      [lit "A"; lit "B"; lit "C"] 0 (Some 2%Z) [0; 1; 2; 1; 0; 2; 2]%nat
    = Some res
    /\ exists merged failures,
         res = Val (merged, failures)
         /\ merged !! lit "root_child_000000" = Some 0%nat
         /\ merged !! lit "root_child_000001" = None
         /\ merged !! lit "root_child_000002" = Some 2%nat
         /\ length failures = 1%nat.
Proof.
  intros child. eexists. split; [vm_compute; reflexivity|].
  destruct (proj2 (invoke_many_agent_aggregate_partial (lit "root") (lit "Sub")
                     (fun p _ => p) child [lit "A"; lit "B"; lit "C"]
                     0 (Some 2%Z)) [0; 1; 2; 1; 0; 2; 2]%nat _
              ltac:(vm_compute; reflexivity))
    as (merged & failures & Hres & Hmerged & Hperm & _).
  exists merged, failures. split; [exact Hres|].
  split; [|split; [|split]].
  - apply Hmerged. by exists 0%nat, (lit "A").
  - destruct (merged !! lit "root_child_000001") as [ctx|] eqn:Hl; [|done].
    apply Hmerged in Hl as (i & p & Hp & Hn & Hc).
    apply (child_name_inj (lit "root") 1 i) in Hn. subst i.
    by vm_compute in Hc.
  - apply Hmerged. by exists 2%nat, (lit "C").
  - by rewrite (Permutation_length Hperm).
Defined.

(** C3 as stated fails on the preview: the failure record holds the
    original input as it was submitted.  A failing unit whose input is
    1000 characters long gets a record whose input field is these 1000
    characters, while a truncated preview, whatever the serializer, has at
    most 801. *)
Lemma failure_record_param_counterexample :
  let p := repeat_char 120 1000 in
  let child := fun (i : nat) (_ : str) =>
    @ChildRaises unit tt (mkExn (lit "ValueError") (lit "boom")) [] in
  exists r,
    invoke_many_agent (lit "root") (lit "Sub") (fun p _ => p) child [p]
      0 None [0; 0]%nat
    = Some (Val (∅, [r]))
    /\ fr_param r = p
    /\ length (fr_param r) = 1000%nat
    /\ forall dumps : str -> nat -> str,
         fr_param r <> truncate_preview (dumps p 0%nat).
Proof.
  intros p child. eexists. split; [vm_compute; reflexivity|].
  assert (Hlen : length p = 1000%nat) by (by vm_compute).
  split; [reflexivity|]. split; [exact Hlen|].
  intros dumps H. apply (f_equal length) in H.
  pose proof (truncate_preview_length (dumps p 0%nat)) as Hle.
  rewrite <- H in Hle. change (length p <= 801)%nat in Hle.
  rewrite Hlen in Hle. lia.
Qed.

End FanoutClaims.

(* ===================================================================== *)
(** ** Table extraction: cells to field values *)
(* ===================================================================== *)

Module TableCoercion.
Import Table TableAux.

Lemma digits_no_point d : forallb is_decimal_char d = true -> 46 ∉ d.
Proof.
  intros H Hin. rewrite forallb_forall in H.
  specialize (H 46). rewrite <- list_elem_of_In in H. specialize (H Hin).
  by vm_compute in H.
Qed.

Lemma match_decimal_spec cell a b :
  match_decimal cell = Some (a, b) <-> decimal_shape cell a b.
Proof.
  unfold match_decimal, decimal_shape. split.
  - pose proof (join_split 46 cell) as Hj.
    destruct (split 46 cell) as [|x [|y [|z rest]]] eqn:Hs; [done| | |done].
    + simpl in Hj. clear Hs. subst cell.
      destruct (negb _ && _) eqn:Hc; [|done]. intros [= <- <-].
      apply andb_true_iff in Hc as [Hne Hd].
      apply negb_true_iff, bool_decide_eq_false in Hne.
      split; [done|]. split; [done|]. by left.
    + simpl in Hj. clear Hs. subst cell.
      destruct (negb _ && _ && _ && _) eqn:Hc; [|done]. intros [= <- <-].
      apply andb_true_iff in Hc as [[[Hne Hd]%andb_true_iff Hne2]%andb_true_iff Hd2].
      apply negb_true_iff, bool_decide_eq_false in Hne, Hne2.
      split; [done|]. split; [done|]. by right.
  - intros (Hne & Hd & [[-> ->]|(Hne2 & Hd2 & ->)]).
    + rewrite split_notin by by apply digits_no_point.
      rewrite Hd, bool_decide_eq_false_2 by done. done.
    + rewrite split_app by by apply digits_no_point.
      rewrite split_notin by by apply digits_no_point.
      rewrite Hd, Hd2, !bool_decide_eq_false_2 by done. done.
Qed.

Lemma isdigit_decimal cell :
  cell <> [] -> forallb is_decimal_char cell = true -> isdigit cell = true.
Proof.
  intros Hne H. destruct cell as [|c cell]; [done|]. unfold isdigit.
  rewrite forallb_forall in *. intros x Hx. unfold is_digit_char.
  by rewrite (H x Hx).
Qed.

(** What [coerce] returns when it returns. *)
Lemma coerce_coerced ty cell v : coerce ty cell = Some v -> coerced ty cell v.
Proof.
  destruct ty; simpl.
  - destruct (isdigit cell) eqn:Hd.
    + unfold int_of_digits.
      destruct (forallb is_decimal_char cell && _) eqn:Ha; [|done].
      apply andb_true_iff in Ha as [Ha Hl]. apply N.leb_le in Hl.
      intros [= <-]. left. split; [by destruct cell|]. by split.
    + intros ?; simplify_eq. by right.
  - destruct (match_decimal cell) as [[a b]|] eqn:Hm; intros ?; simplify_eq.
    + left. exists a, b. by apply match_decimal_spec in Hm.
    + right. split; [|done]. intros a b H%match_decimal_spec. congruence.
  - by intros ?; simplify_eq.
  - by intros ?; simplify_eq.
Qed.

(** [coerce] raises only on a digit string that [int()] does not take. *)
Lemma coerce_total ty cell :
  (ty = TInt -> isdigit cell = true -> int_accepts cell) ->
  is_Some (coerce ty cell).
Proof.
  destruct ty; simpl; try done.
  - intros H. destruct (isdigit cell); [|done]. unfold int_of_digits.
    destruct H as [Ha Hl]; [done..|]. apply N.leb_le in Hl.
    by rewrite Ha, Hl.
  - intros _. by destruct (match_decimal cell) as [[]|].
Qed.

Lemma build_dict_lookup model cols inst j f ty cell :
  build_dict model cols = Some inst ->
  model !! j = Some (f, ty) -> cols !! j = Some cell ->
  exists v, inst !! j = Some (f, v) /\ coerce ty cell = Some v.
Proof.
  revert cols inst j. induction model as [|[f' ty'] model IH];
    intros cols inst j Hb Hm Hc; [done|].
  destruct cols as [|col cols]; [done|]. simpl in Hb.
  destruct (coerce ty' col) as [v'|] eqn:Hv; [|done]. simpl in Hb.
  destruct (build_dict model cols) as [rest|] eqn:Hr; [|done].
  simpl in Hb. simplify_eq. destruct j as [|j]; simpl in *.
  - simplify_eq. by exists v'.
  - by eapply IH.
Qed.

Lemma build_dict_length model cols inst :
  build_dict model cols = Some inst ->
  length inst = Nat.min (length model) (length cols).
Proof.
  revert cols inst. induction model as [|[f ty] model IH]; intros cols inst Hb.
  - simpl in Hb. by simplify_eq.
  - destruct cols as [|col cols]; simpl in Hb; [by simplify_eq|].
    destruct (coerce ty col); [|done]. simpl in Hb.
    destruct (build_dict model cols) as [rest|] eqn:Hr; [|done].
    simpl in Hb. simplify_eq. simpl. by rewrite (IH _ _ Hr).
Qed.

Lemma build_dict_total model cols :
  (forall j f cell, model !! j = Some (f, TInt) -> cols !! j = Some cell ->
     isdigit cell = true -> int_accepts cell) ->
  is_Some (build_dict model cols).
Proof.
  revert cols. induction model as [|[f ty] model IH]; intros cols H; [done|].
  destruct cols as [|col cols]; [done|]. simpl.
  destruct (coerce_total ty col) as [v ->].
  { intros ->. by apply (H 0%nat f col). }
  simpl. destruct (IH cols) as [rest ->]; [|done].
  intros j f' cell Hm Hc. by apply (H (S j) f' cell).
Qed.




End TableCoercion.

(* ===================================================================== *)
(** ** Table extraction: blocks and the null result *)
(* ===================================================================== *)

Module TableBlocks.
Import Table TableAux.

(** *** The merge loop ends *)

Lemma scan_rows_end cid before rest i i_h h :
  scan_rows cid before rest i i_h = ScanEnd h ->
  h = match rest with [] => i_h | _ => (i + length rest - 1)%nat end.
Proof.
  revert before i i_h. induction rest as [|row rest IH]; intros before i i_h.
  - simpl. by intros [= ->].
  - cbn [scan_rows].
    assert (Hnext : scan_rows cid (before ++ [row]) rest (S i) i = ScanEnd h ->
                    h = (i + length (row :: rest) - 1)%nat).
    { intros H%IH. subst h. destruct rest; simpl; lia. }
    destruct (_ || _); [done|].
    destruct (rstripped_cols row !! cid) as [[|c col]|]; [|done..].
    destruct (last before); [|done]. by destruct (merge_cols _ _ _).
Qed.

Lemma scan_rows_merged cid before rest i i_h rows' h :
  scan_rows cid before rest i i_h = ScanMerged rows' h ->
  (S (length rows') = length before + length rest)%nat
  /\ rows' <> [].
Proof.
  revert before i i_h. induction rest as [|row rest IH]; intros before i i_h.
  - done.
  - cbn [scan_rows].
    assert (Hnext : scan_rows cid (before ++ [row]) rest (S i) i
                    = ScanMerged rows' h ->
                    (S (length rows') = length before + length (row :: rest))%nat
                    /\ rows' <> []).
    { intros [H1 H2]%IH. split; [|done]. rewrite length_app in H1.
      simpl in *. lia. }
    destruct (_ || _); [done|].
    destruct (rstripped_cols row !! cid) as [[|c col]|]; [|done..].
    destruct (last before) as [parent|] eqn:Hl; [|done].
    destruct (merge_cols _ _ _); [|done]. intros [= <- <-].
    destruct before as [|b before] using rev_ind; [done|].
    rewrite removelast_last. rewrite !length_app. simpl. split; [lia|].
    by destruct before.
Qed.

Lemma merge_loop_total fuel cid rows :
  rows <> [] -> (length rows < fuel)%nat -> is_Some (merge_loop fuel cid rows).
Proof.
  revert rows. induction fuel as [|fuel IH]; intros rows Hne Hf; [lia|].
  cbn [merge_loop].
  destruct (scan_rows cid [] rows 0 0) as [h|rows' h|] eqn:Hs; [| |done].
  - apply scan_rows_end in Hs. destruct rows as [|r rows]; [done|].
    subst h. simpl. rewrite Nat.sub_0_r, Nat.eqb_refl. done.
  - apply scan_rows_merged in Hs as [Hl Hne'].
    destruct (_ =? _)%nat; [done|]. apply IH; [done|]. simpl in Hl. lia.
Qed.

Lemma merge_itemized_total column_id rows :
  rows <> [] -> is_Some (merge_itemized column_id rows).
Proof.
  intros Hne. destruct column_id as [cid|]; unfold merge_itemized; [|done].
  apply merge_loop_total; [done | lia].
Qed.

Lemma table_instances_total {Obj} (model : Model Obj) column_id table :
  table <> [] -> is_Some (table_instances model column_id table).
Proof.
  intros Hne. unfold table_instances.
  destruct (merge_itemized_total column_id
              (List.map (fun row => strip (strip_chars [c_pipe] row)) table))
    as [[e|rows] ->]; [by destruct table|done|done].
Qed.

Lemma all_instances_total {Obj} (model : Model Obj) column_id tbls :
  Forall (fun t => t <> []) tbls -> is_Some (all_instances model column_id tbls).
Proof.
  induction 1 as [|t tbls Ht _ IH]; [done|]. simpl.
  destruct (table_instances_total model column_id t Ht) as [[e|i] ->]; [done|].
  by destruct IH as [[e|more] ->].
Qed.

(** *** Blocks *)

Lemma block_step_ok b line : blocks_ok b -> blocks_ok (block_step b line).
Proof.
  destruct b as [t c f]. unfold blocks_ok, block_step. simpl. intros H.
  destruct (is_row _); [by destruct (is_divider_line _)|].
  destruct (_ =? _)%nat; [done|].
  destruct c as [|r c]; [done|]. simpl.
  apply Forall_app. split; [done|]. by repeat constructor.
Qed.

Lemma block_step_touched b line : touched b -> touched (block_step b line).
Proof.
  destruct b as [t c f]. unfold touched, block_step. simpl. intros H.
  destruct (is_row _).
  - destruct (is_divider_line _); simpl; [by right; right|].
    right; left. by destruct c.
  - destruct (_ =? _)%nat; [done|].
    destruct c as [|r c]; [done|]. simpl. left. by destruct t.
Qed.

Lemma block_step_row b line :
  is_row (strip line) = true -> touched (block_step b line).
Proof.
  destruct b as [t c f]. unfold touched, block_step. simpl. intros ->.
  destruct (is_divider_line _); simpl; [by right; right|].
  right; left. by destruct c.
Qed.

Lemma block_step_not_row b line :
  is_row (strip line) = false -> ~ touched b -> block_step b line = b.
Proof.
  destruct b as [t c f]. unfold touched, block_step. simpl. intros -> H.
  destruct (_ =? _)%nat; [done|].
  destruct c as [|r c]; [done|]. exfalso. apply H. right; left. done.
Qed.

Lemma fold_blocks_ok lines b :
  blocks_ok b -> blocks_ok (fold_left block_step lines b).
Proof.
  revert b; induction lines as [|l lines IH]; intros b H; [done|].
  simpl. by apply IH, block_step_ok.
Qed.

Lemma fold_blocks_touched lines b :
  touched b -> touched (fold_left block_step lines b).
Proof.
  revert b; induction lines as [|l lines IH]; intros b H; [done|].
  simpl. by apply IH, block_step_touched.
Qed.

Lemma fold_blocks_rows lines b :
  ~ touched b ->
  touched (fold_left block_step lines b)
  <-> Exists (fun line => is_row (strip line) = true) lines.
Proof.
  revert b; induction lines as [|l lines IH]; intros b Hb; simpl.
  - split; [done|]. by intros ?%Exists_nil.
  - rewrite Exists_cons. destruct (is_row (strip l)) eqn:Hl.
    + split; [by left|]. intros _.
      by apply fold_blocks_touched, block_step_row.
    + rewrite block_step_not_row by done. rewrite IH by done. naive_solver.
Qed.

Lemma find_blocks_ok md : blocks_ok (find_blocks md).
Proof.
  unfold find_blocks.
  pose proof (fold_blocks_ok (split c_nl md) (mkBlocks [] [] false)) as H.
  specialize (H ltac:(constructor)).
  destruct (fold_left _ _ _) as [t c f]. unfold blocks_ok in *. simpl in *.
  destruct c as [|r c]; [done|]. simpl.
  apply Forall_app. split; [done|]. by repeat constructor.
Qed.

(** No block and no divider: exactly when no line is a delimited row. *)
Lemma find_blocks_none md :
  (tables (find_blocks md) = [] /\ table_found (find_blocks md) = false)
  <-> Forall (fun line => is_row (strip line) = false) (split c_nl md).
Proof.
  unfold find_blocks.
  pose proof (fold_blocks_rows (split c_nl md) (mkBlocks [] [] false)) as H.
  assert (Hinit : ~ touched (mkBlocks [] [] false)) by (unfold touched; naive_solver).
  specialize (H Hinit).
  assert (Hiff : Forall (fun line => is_row (strip line) = false) (split c_nl md)
                 <-> ~ Exists (fun line => is_row (strip line) = true) (split c_nl md)).
  { rewrite <- Forall_Exists_neg. apply Forall_iff. intros l.
    by destruct (is_row _). }
  rewrite Hiff, <- H. destruct (fold_left _ _ _) as [t c f].
  unfold touched. simpl. destruct c as [|r c]; simpl.
  - destruct t; [|naive_solver]. destruct f; naive_solver.
  - split; [intros [?%app_eq_nil _]; naive_solver|].
    intros Hn. exfalso. apply Hn. right; left. done.
Qed.

Lemma sanitize_no_delimiter kws text :
  c_pipe ∉ text -> sanitize_table kws text = inl TableBoundariesInvalid.
Proof.
  intros H. unfold sanitize_table.
  rewrite (replace_id [c_pipe; c_pipe] _ text c_pipe) by set_solver.
  rewrite (replace_id [c_backslash; c_pipe] _ text c_pipe) by set_solver.
  apply find_char_None in H. by rewrite H.
Qed.



End TableBlocks.

(* ===================================================================== *)
(** ** Table extraction: merging itemized rows *)
(* ===================================================================== *)

Module TableMerge.
Import Table TableAux TableBlocks.

Lemma lstrip_by_idem p s : lstrip_by p (lstrip_by p s) = lstrip_by p s.
Proof.
  induction s as [|c s IH]; [done|]. simpl.
  destruct (p c) eqn:Hc; [done|]. simpl. by rewrite Hc.
Qed.

Lemma rstrip_idem s : rstrip (rstrip s) = rstrip s.
Proof.
  unfold rstrip, rstrip_by. by rewrite rev_involutive, lstrip_by_idem.
Qed.

Lemma rstrip_prefix s : exists t, s = rstrip s ++ t.
Proof.
  unfold rstrip, rstrip_by.
  destruct (lstrip_by_suffix is_space (rev s)) as (pre & Hpre & _).
  exists (rev pre). rewrite <- rev_app_distr, <- Hpre. by rewrite rev_involutive.
Qed.

Lemma rstrip_notin c s : c ∉ s -> c ∉ rstrip s.
Proof.
  intros H Hin. destruct (rstrip_prefix s) as [t Ht]. apply H.
  rewrite Ht. apply elem_of_app. by left.
Qed.

Lemma rstripped_cols_notin row :
  Forall (fun col => c_pipe ∉ col) (rstripped_cols row).
Proof.
  unfold rstripped_cols. apply Forall_fmap.
  eapply Forall_impl; [apply split_parts_notin|].
  intros col H. by apply rstrip_notin.
Qed.

Lemma rstripped_cols_not_nil row : rstripped_cols row <> [].
Proof.
  unfold rstripped_cols. pose proof (split_not_nil c_pipe row).
  by destruct (split c_pipe row).
Qed.

(** The result of the inner loop, column by column. *)
Lemma merge_cols_spec cid pcs cols r :
  merge_cols cid pcs cols = Some r ->
  length r = length pcs
  /\ forall j pc, pcs !! j = Some pc ->
       r !! j = Some (if (j =? cid)%nat then pc
                      else pc ++ break_marker ++ default [] (cols !! j))
       /\ (j <> cid -> is_Some (cols !! j)).
Proof.
  unfold merge_cols. intros H%mapM_Some. split.
  - apply Forall2_length in H. by rewrite length_imap in H.
  - intros j pc Hj.
    assert (Hl : imap pair pcs !! j = Some (j, pc))
      by (apply list_lookup_imap_Some; by exists pc).
    destruct (Forall2_lookup_l _ _ _ _ _ H Hl) as (y & Hy & Hf).
    simpl in Hf. destruct (Nat.eqb_spec j cid) as [->|Hne].
    + by simplify_eq.
    + destruct (cols !! j) as [c|]; simpl in *; [|done]. by simplify_eq.
Qed.

Lemma break_marker_notin : c_pipe ∉ break_marker.
Proof.
  vm_compute. intros H.
  repeat (apply elem_of_cons in H as [H|H]; [done|]). by apply elem_of_nil in H.
Qed.

Lemma merge_cols_notin cid pcs cols r :
  merge_cols cid pcs cols = Some r ->
  Forall (fun col => c_pipe ∉ col) pcs ->
  Forall (fun col => c_pipe ∉ col) cols ->
  Forall (fun col => c_pipe ∉ col) r.
Proof.
  intros Hm Hp Hc. destruct (merge_cols_spec _ _ _ _ Hm) as [Hlen Hspec].
  pose proof break_marker_notin as Hbm.
  apply Forall_lookup. intros j x Hx.
  destruct (lookup_lt_is_Some_2 pcs j) as [pc Hpc].
  { rewrite <- Hlen. by eapply lookup_lt_Some. }
  destruct (Hspec j pc Hpc) as [Hr Hsome].
  pose proof (Forall_lookup_1 _ _ _ _ Hp Hpc) as Hpcn.
  destruct (Nat.eqb_spec j cid) as [Hj|Hj].
  - assert (x = pc) as ->
      by (apply (inj Some); by rewrite <- Hx, <- Hr).
    done.
  - destruct (Hsome Hj) as [c Hc']. rewrite Hc' in Hr.
    pose proof (Forall_lookup_1 _ _ _ _ Hc Hc') as Hcn.
    change (default [] (Some c)) with c in Hr.
    assert (x = pc ++ break_marker ++ c) as ->
      by (apply (inj Some); rewrite <- Hx; exact Hr).
    rewrite !not_elem_of_app. done.
Qed.

(** Merging leaves the identifier column of the parent as it is, so a
    merged row is a continuation row exactly when its parent was one. *)
Lemma mergeable_merge_into cid parent row m :
  merge_into cid parent row = Some m ->
  mergeable cid m = mergeable cid parent.
Proof.
  unfold merge_into. intros H.
  destruct (merge_cols cid (rstripped_cols parent) (rstripped_cols row))
    as [r|] eqn:Hm; [|done].
  simpl in H. simplify_eq.
  destruct (merge_cols_spec _ _ _ _ Hm) as [Hlen Hspec].
  assert (Hr : r <> []).
  { pose proof (rstripped_cols_not_nil parent).
    destruct r; [|done]. by destruct (rstripped_cols parent). }
  unfold mergeable. unfold rstripped_cols at 1.
  rewrite split_join; [|done|].
  2:{ eapply merge_cols_notin; [done|apply rstripped_cols_notin..]. }
  rewrite list_lookup_fmap.
  destruct (rstripped_cols parent !! cid) as [pc|] eqn:Hpc.
  - destruct (Hspec cid pc Hpc) as [Hrc _]. rewrite Nat.eqb_refl in Hrc.
    rewrite Hrc. simpl.
    unfold rstripped_cols in Hpc. rewrite list_lookup_fmap in Hpc.
    destruct (split c_pipe parent !! cid); [|done]. simpl in Hpc.
    simplify_eq. by rewrite rstrip_idem.
  - apply lookup_ge_None in Hpc. rewrite <- Hlen in Hpc.
    apply lookup_ge_None in Hpc. by rewrite Hpc.
Qed.

#[local] Abbreviation nm cid := (fun r : str => mergeable cid r = false).

Lemma scan_rows_pass cid pre : forall before rest i i_h,
  i = length before ->
  (before <> [] -> Forall (nm cid) pre) ->
  (before = [] -> Forall (nm cid) (tail pre)) ->
  scan_rows cid before (pre ++ rest) i i_h
  = scan_rows cid (before ++ pre) rest (i + length pre)
      (match pre with [] => i_h | _ => i + length pre - 1 end)%nat.
Proof.
  induction pre as [|row pre IH]; intros before rest i i_h Hi Hne Hnil.
  - simpl. by rewrite app_nil_r, Nat.add_0_r.
  - cbn [app scan_rows].
    assert (Hnext : scan_rows cid (before ++ [row]) (pre ++ rest) (S i) i
                    = scan_rows cid (before ++ row :: pre) rest
                        (i + length (row :: pre))
                        (i + length (row :: pre) - 1)%nat).
    { rewrite IH.
      - rewrite <- app_assoc. simpl. rewrite Nat.add_succ_r. f_equal.
        destruct pre; simpl; lia.
      - rewrite length_app. simpl. lia.
      - intros _. destruct before as [|b before].
        + by apply Hnil.
        + specialize (Hne ltac:(done)). by inversion Hne.
      - by intros [_ ?]%app_eq_nil. }
    destruct ((length (rstripped_cols row) <? cid + 1)%nat || (i =? 0)%nat)
      eqn:Hc; [done|].
    apply orb_false_iff in Hc as [Hlen Hi0]. apply Nat.eqb_neq in Hi0.
    assert (Hb : before <> []) by (intros ->; simpl in Hi; lia).
    specialize (Hne Hb). inversion Hne as [|? ? Hrow _]; subst.
    unfold mergeable in Hrow.
    destruct (rstripped_cols row !! cid) as [[|c col]|]; done.
Qed.

Lemma scan_rows_hit cid before e post i i_h parent :
  i = length before -> last before = Some parent ->
  mergeable cid e = true ->
  scan_rows cid before (e :: post) i i_h
  = match merge_into cid parent e with
    | Some m => ScanMerged (removelast before ++ [m] ++ post) i
    | None => ScanError
    end.
Proof.
  intros Hi Hl He. cbn [scan_rows]. unfold mergeable in He.
  destruct (rstripped_cols e !! cid) as [[|c col]|] eqn:Hc; [|done..].
  apply lookup_lt_Some in Hc as Hlt.
  destruct (Nat.ltb_spec (length (rstripped_cols e)) (cid + 1)); [lia|].
  destruct (Nat.eqb_spec i 0) as [->|_].
  { destruct before; [done | simpl in Hi; lia]. }
  simpl. rewrite Hl. unfold merge_into.
  by destruct (merge_cols _ _ _).
Qed.

Lemma merge_all_pass cid pre : forall out rest,
  (out <> [] -> Forall (nm cid) pre) ->
  (out = [] -> Forall (nm cid) (tail pre)) ->
  merge_all cid out (pre ++ rest) = merge_all cid (out ++ pre) rest.
Proof.
  induction pre as [|row pre IH]; intros out rest Hne Hnil.
  - by rewrite app_nil_r.
  - cbn [app merge_all].
    assert (Hnext : merge_all cid (out ++ [row]) (pre ++ rest)
                    = merge_all cid (out ++ row :: pre) rest).
    { rewrite IH.
      - by rewrite <- app_assoc.
      - intros _. destruct out as [|b out].
        + by apply Hnil.
        + specialize (Hne ltac:(done)). by inversion Hne.
      - by intros [_ ?]%app_eq_nil. }
    destruct (last out) as [parent|] eqn:Hl; [|done].
    assert (Hb : out <> []) by (by destruct out).
    specialize (Hne Hb). inversion Hne as [|? ? Hrow _]; subst.
    by rewrite Hrow.
Qed.

Lemma merge_all_hit cid out e post parent :
  last out = Some parent -> mergeable cid e = true ->
  merge_all cid out (e :: post)
  = m ← merge_into cid parent e; merge_all cid (removelast out ++ [m]) post.
Proof. intros Hl He. cbn [merge_all]. by rewrite Hl, He. Qed.

(** Either no row after the first is a continuation row, or there is a
    first one. *)
Lemma first_mergeable cid rows :
  Forall (nm cid) (tail rows)
  \/ exists pre e post,
       rows = pre ++ e :: post /\ pre <> []
       /\ Forall (nm cid) (tail pre) /\ mergeable cid e = true.
Proof.
  destruct rows as [|r rows]; [by left|]. simpl.
  induction rows as [|x rows IH] using rev_ind; [by left|].
  destruct IH as [IH|(pre & e & post & Heq & Hne & Hpre & He)].
  - destruct (mergeable cid x) eqn:Hx.
    + right. exists (r :: rows), x, []. by rewrite app_comm_cons.
    + left. apply Forall_app. split; [done|]. by repeat constructor.
  - right. exists pre, e, (post ++ [x]). split; [|done].
    rewrite app_comm_cons, Heq. by rewrite <- app_assoc.
Qed.

Lemma tail_snoc {A} (l : list A) x : l <> [] -> tail (l ++ [x]) = tail l ++ [x].
Proof. by destruct l. Qed.

Lemma settled_swap cid pre0 parent m :
  mergeable cid m = mergeable cid parent ->
  Forall (nm cid) (tail (pre0 ++ [parent])) ->
  Forall (nm cid) (tail (pre0 ++ [m])).
Proof.
  intros Hm. destruct pre0 as [|p pre0]; [done|]. simpl.
  rewrite !Forall_app, !Forall_singleton. by rewrite Hm.
Qed.

Lemma last_two_split {A} (X post pre2 : list A) e2 l2 :
  X ++ post = pre2 ++ [e2; l2] -> (2 <= length post)%nat ->
  exists post', post = post' ++ [e2; l2] /\ pre2 = X ++ post'.
Proof.
  intros Heq Hlen. apply app_eq_inv in Heq as [(k & -> & Hk)|(k & -> & Hk)].
  - assert (k = []) as ->.
    { apply (f_equal length) in Hk. rewrite length_app in Hk. simpl in Hk.
      destruct k; [done | simpl in Hk; lia]. }
    simpl in Hk. subst post. exists []. by rewrite !app_nil_r.
  - by exists k.
Qed.

Lemma merge_loop_spec cid fuel : forall rows,
  rows <> [] -> (length rows < fuel)%nat -> tail_settled cid rows ->
  merge_loop fuel cid rows
  = Some (match merge_all cid [] rows with
          | Some r => inr r
          | None => inl ColumnIndexError
          end).
Proof.
  induction fuel as [|fuel IH]; intros rows Hne Hfuel Hts; [lia|].
  cbn [merge_loop].
  destruct (first_mergeable cid rows)
    as [Hnone|(pre & e & post & -> & Hpre & Hset & He)].
  - (* a full scan without a merge *)
    replace (scan_rows cid [] rows 0 0)
      with (scan_rows cid [] (rows ++ []) 0 0) by (by rewrite app_nil_r).
    replace (merge_all cid [] rows)
      with (merge_all cid [] (rows ++ [])) by (by rewrite app_nil_r).
    rewrite scan_rows_pass, merge_all_pass by done. simpl.
    destruct rows as [|r rows]; [done|]. simpl.
    by rewrite Nat.sub_0_r, Nat.eqb_refl.
  - destruct pre as [|parent pre0 _] using rev_ind; [done|]. clear Hpre.
    rewrite scan_rows_pass by done. rewrite merge_all_pass by done.
    rewrite !app_nil_l.
    rewrite (scan_rows_hit cid _ e post _ _ parent);
      [|done|by rewrite last_snoc|done].
    rewrite (merge_all_hit cid _ e post parent);
      [|by rewrite last_snoc|done].
    rewrite removelast_last.
    destruct (merge_into cid parent e) as [m|] eqn:Hm; [|done].
    cbn [mbind option_bind].
    pose proof (mergeable_merge_into _ _ _ _ Hm) as Hmm.
    pose proof (settled_swap cid pre0 parent m Hmm Hset) as Hset'.
    assert (Hall : merge_all cid [] (pre0 ++ [m] ++ post)
                   = merge_all cid (pre0 ++ [m]) post).
    { rewrite app_assoc. by rewrite merge_all_pass. }
    assert (Hc : (S (0 + length (pre0 ++ [parent]))
                  =? length (pre0 ++ [m] ++ post))%nat
                 = (length post =? 1)%nat).
    { rewrite !length_app. simpl length.
      destruct (Nat.eqb_spec (length post) 1);
        [apply Nat.eqb_eq | apply Nat.eqb_neq]; lia. }
    rewrite Hc. clear Hc.
    destruct (Nat.eqb_spec (length post) 1) as [Hexit|Hcont].
    + (* the pass ends here: one row is left after the merged one *)
      destruct post as [|l [|? ?]]; simpl in Hexit; try lia.
      assert (Hl : mergeable cid l = false).
      { destruct (mergeable cid l) eqn:Hml; [|done]. exfalso.
        apply (Hts (pre0 ++ [parent]) e l); [done| |done].
        by intros [_ ?]%app_eq_nil. }
      cbn [merge_all]. rewrite last_snoc, Hl.
      by rewrite <- app_assoc.
    + rewrite <- Hall. apply IH.
      * by destruct pre0.
      * rewrite !length_app in *. simpl in *. lia.
      * intros pre2 e2 l2 Heq Hp2 [He2 Hl2].
        destruct post as [|x [|y post]].
        -- (* e was the last row *)
           rewrite app_nil_r in Heq.
           destruct pre2 as [|q pre2 _] using rev_ind; [done|].
           rewrite <- app_assoc in Heq. simpl in Heq.
           replace (pre2 ++ q :: [e2; l2]) with ((pre2 ++ [q; e2]) ++ [l2])
             in Heq by (by rewrite <- app_assoc).
           apply app_inj_tail in Heq as [-> ->].
           assert (Hin : mergeable cid e2 = false).
           { rewrite Forall_forall in Hset'. apply Hset'.
             destruct pre2 as [|? pre2]; simpl; set_solver. }
           congruence.
        -- simpl in Hcont. lia.
        -- rewrite app_assoc in Heq.
           apply last_two_split in Heq as (post' & Hpost & ->); [|simpl; lia].
           apply (Hts ((pre0 ++ [parent]) ++ e :: post') e2 l2); [| |done].
           ++ rewrite Hpost. by rewrite <- !app_assoc.
           ++ intros [[_ ?]%app_eq_nil _]%app_eq_nil. done.
Qed.

Lemma merge_all_props cid : forall rest out r,
  merge_all cid out rest = Some r -> out <> [] ->
  Forall (nm cid) (tail out) ->
  (length r + length (List.filter (mergeable cid) rest)
   = length out + length rest)%nat
  /\ Forall (nm cid) (tail r).
Proof.
  induction rest as [|row rest IH]; intros out r Hr Hne Hout.
  - simpl in Hr. injection Hr as <-. simpl. split; [lia | done].
  - cbn [merge_all] in Hr.
    destruct out as [|parent out0 _] using rev_ind; [done|].
    rewrite last_snoc in Hr. simpl List.filter.
    destruct (mergeable cid row) eqn:Hrow.
    + destruct (merge_into cid parent row) as [m|] eqn:Hm; [|done].
      simpl in Hr. rewrite removelast_last in Hr.
      apply IH in Hr as [Hlen Hset].
      * split; [|done]. rewrite !length_app in *. simpl in *. lia.
      * by intros [_ ?]%app_eq_nil.
      * eapply settled_swap; [|exact Hout].
        by eapply mergeable_merge_into.
    + apply IH in Hr as [Hlen Hset].
      * split; [|done]. rewrite !length_app in *. simpl in *. lia.
      * by intros [_ ?]%app_eq_nil.
      * rewrite tail_snoc by (by intros [_ ?]%app_eq_nil).
        apply Forall_app. split; [done|]. by repeat constructor.
Qed.

Lemma merge_all_count cid rows r :
  merge_all cid [] rows = Some r ->
  (length r + length (List.filter (mergeable cid) (tail rows)) = length rows)%nat
  /\ Forall (nm cid) (tail r).
Proof.
  destruct rows as [|row rows]; simpl.
  - intros [= <-]. by split.
  - intros Hr. apply merge_all_props in Hr as [Hlen Hset]; [|done..].
    split; [simpl in *; lia | done].
Qed.

(** The columns of a merged row. *)
Lemma merge_into_cols cid parent row m j pc :
  merge_into cid parent row = Some m ->
  rstripped_cols parent !! j = Some pc ->
  split c_pipe m !! j
  = Some (if (j =? cid)%nat then pc
          else pc ++ break_marker ++ default [] (rstripped_cols row !! j)).
Proof.
  unfold merge_into. intros H Hpc.
  destruct (merge_cols cid (rstripped_cols parent) (rstripped_cols row))
    as [r|] eqn:Hm; [|done].
  simpl in H. injection H as <-.
  destruct (merge_cols_spec _ _ _ _ Hm) as [Hlen Hspec].
  rewrite split_join.
  - by destruct (Hspec j pc Hpc).
  - pose proof (rstripped_cols_not_nil parent).
    destruct r; [|done]. by destruct (rstripped_cols parent).
  - eapply merge_cols_notin; [done|apply rstripped_cols_notin..].
Qed.

(** C7 (amended): in a block whose last two rows are not both
    continuation rows, the merge loop does what one pass from the top
    does: every row after the first whose identifier column is empty is
    merged into the row before it, each of its other columns appended to
    the corresponding column of that row through the break marker, the
    identifier column of that row staying as it is.  Afterwards no row
    after the first has an empty identifier, and the number of rows is the
    original number minus the number of such rows.  The first row has no
    row before it and is never merged. *)
Theorem itemized_rows_merge cid rows :
  rows <> [] -> tail_settled cid rows ->
  exists res,
    merge_itemized (Some cid) rows = Some res
    /\ res = match merge_all cid [] rows with
             | Some r => inr r
             | None => inl ColumnIndexError
             end
    /\ (forall rows',
          res = inr rows' ->
          (length rows' + length (List.filter (mergeable cid) (tail rows))
           = length rows)%nat
          /\ Forall (fun r => mergeable cid r = false) (tail rows'))
    /\ (forall parent row m j pc,
          merge_into cid parent row = Some m ->
          rstripped_cols parent !! j = Some pc ->
          split c_pipe m !! j
          = Some (if (j =? cid)%nat then pc
                  else pc ++ break_marker
                          ++ default [] (rstripped_cols row !! j))).
Proof.
  intros Hne Hts. eexists. split.
  - unfold merge_itemized. apply merge_loop_spec; [done|lia|done].
  - split; [done|]. split; [|apply merge_into_cols].
    intros rows' Hres.
    destruct (merge_all cid [] rows) as [r|] eqn:Hr; [|done].
    injection Hres as ->. by apply merge_all_count.
Qed.

Lemma itemized_rows_merge_witness :
  exists res,
    merge_itemized (Some 0%nat) [lit "DP-2 | a"; lit "| b"; lit "x | c"]
    = Some res
    /\ res = inr [lit "DP-2| a <br>  b"; lit "x | c"].
Proof.
  destruct (itemized_rows_merge 0 [lit "DP-2 | a"; lit "| b"; lit "x | c"])
    as (res & Hres & Heq & _).
  - done.
  - intros pre e l Heq _ [_ Hl].
    change [lit "DP-2 | a"; lit "| b"; lit "x | c"]
      with ([lit "DP-2 | a"; lit "| b"] ++ [lit "x | c"]) in Heq.
    change (pre ++ [e; l]) with (pre ++ [e] ++ [l]) in Heq.
    rewrite app_assoc in Heq. apply app_inj_tail in Heq as [_ <-].
    by vm_compute in Hl.
  - exists res. split; [exact Hres|]. rewrite Heq. by vm_compute.
Defined.

(** C7 as stated fails for a block that begins with a continuation row:
    the first row has no row before it, so it stays, and the block keeps
    its two rows although one has an empty identifier. *)
Lemma first_row_counterexample :
  let rows := [lit "| x"; lit "a | y"] in
  mergeable 0 (lit "| x") = true
  /\ merge_itemized (Some 0%nat) rows = Some (inr rows)
  /\ md_table_to_pydantic_list [kw_long; kw_short]
       (lit "|  | x |" ++ [c_nl] ++ lit "| a | y |")
       Node (Some 0%nat)
     = Some (ReturnsPair [mkNode [] (lit "x"); mkNode (lit "a") (lit "y")] []).
Proof. by vm_compute. Qed.

End TableMerge.

(* ===================================================================== *)
(** ** Table extraction: a well-formed table *)
(* ===================================================================== *)

Module TableRender.
Import Table TableAux TableBlocks TableMerge TableCoercion.

(** *** Stripping *)

Section Strip.
Variable p : char -> bool.

Lemma lstrip_app_stop a x b :
  p x = false -> lstrip_by p (a ++ x :: b) = lstrip_by p a ++ x :: b.
Proof.
  intros Hx. induction a as [|y a IH]; simpl; [by rewrite Hx|].
  by destruct (p y).
Qed.

Lemma lstrip_snoc l x :
  lstrip_by p (l ++ [x])
  = match lstrip_by p l with
    | [] => if p x then [] else [x]
    | r => r ++ [x]
    end.
Proof.
  induction l as [|y l IH]; simpl; [done|].
  destruct (p y); [done|]. done.
Qed.

Lemma rstrip_cons x s :
  rstrip_by p (x :: s)
  = match rstrip_by p s with
    | [] => if p x then [] else [x]
    | r => x :: r
    end.
Proof.
  unfold rstrip_by. simpl. rewrite lstrip_snoc.
  destruct (lstrip_by p (rev s)) as [|y r]; simpl; [by destruct (p x)|].
  rewrite rev_app_distr. simpl.
  by destruct (rev r ++ [y]) eqn:E; [destruct (rev r)|].
Qed.

Lemma rstrip_nil : rstrip_by p [] = [].
Proof. done. Qed.

Lemma rstrip_snoc_drop s x : p x = true -> rstrip_by p (s ++ [x]) = rstrip_by p s.
Proof.
  intros Hx. unfold rstrip_by. rewrite rev_app_distr. simpl. by rewrite Hx.
Qed.

Lemma rstrip_snoc_keep s x : p x = false -> rstrip_by p (s ++ [x]) = s ++ [x].
Proof.
  intros Hx. unfold rstrip_by. rewrite rev_app_distr. simpl. rewrite Hx.
  simpl. by rewrite rev_involutive.
Qed.

Lemma strip_comm s : lstrip_by p (rstrip_by p s) = rstrip_by p (lstrip_by p s).
Proof.
  induction s as [|x s IH]; [done|]. rewrite rstrip_cons. simpl.
  destruct (p x) eqn:Hx.
  - rewrite <- IH. destruct (rstrip_by p s) as [|y r]; [done|].
    cbn [lstrip_by]. by rewrite Hx.
  - rewrite rstrip_cons.
    destruct (rstrip_by p s) as [|y r]; simpl; by rewrite Hx.
Qed.

Lemma lstrip_all s : forallb p s = true -> lstrip_by p s = [].
Proof.
  induction s as [|x s IH]; simpl; [done|].
  intros [-> H]%andb_true_iff. by apply IH.
Qed.

Lemma strip_by_all s : forallb p s = true -> strip_by p s = [].
Proof. intros H. unfold strip_by. by rewrite lstrip_all. Qed.

Lemma lstrip_strip s : lstrip_by p (strip_by p s) = strip_by p s.
Proof. unfold strip_by. by rewrite strip_comm, lstrip_by_idem. Qed.

Lemma rstrip_strip s : rstrip_by p (strip_by p s) = strip_by p s.
Proof.
  unfold strip_by, rstrip_by. by rewrite rev_involutive, lstrip_by_idem.
Qed.

Lemma strip_by_idem s : strip_by p (strip_by p s) = strip_by p s.
Proof. unfold strip_by at 1. by rewrite lstrip_strip, rstrip_strip. Qed.

Lemma lstrip_fixed_head x s : lstrip_by p (x :: s) = x :: s -> p x = false.
Proof.
  simpl. destruct (p x) eqn:Hx; [|done]. intros H.
  destruct (lstrip_by_suffix p s) as (pre & Hs & _).
  rewrite H in Hs. apply (f_equal length) in Hs.
  rewrite length_app in Hs. simpl in Hs. lia.
Qed.

(** Both ends kept: nothing to strip. *)
Lemma strip_by_ends x m y :
  p x = false -> p y = false -> strip_by p (x :: m ++ [y]) = x :: m ++ [y].
Proof.
  intros Hx Hy. unfold strip_by. cbn [lstrip_by]. rewrite Hx.
  by apply (rstrip_snoc_keep (x :: m) y).
Qed.

End Strip.

Lemma space_not_pipe : is_space c_pipe = false.
Proof. done. Qed.

Lemma strip_lr s : strip s = lstrip_by is_space (rstrip s).
Proof. unfold strip, strip_by, rstrip. by rewrite strip_comm. Qed.

Lemma split_lstrip X :
  List.map strip (split c_pipe (lstrip_by is_space X))
  = List.map strip (split c_pipe X).
Proof.
  induction X as [|x X IH]; [done|]. cbn [lstrip_by].
  destruct (is_space x) eqn:Hx; [|done]. rewrite IH. cbn [split].
  destruct (N.eqb_spec x c_pipe) as [->|_]; [done|].
  pose proof (split_not_nil c_pipe X) as Hne.
  destruct (split c_pipe X) as [|q qs]; [done|]. cbn [List.map]. f_equal.
  unfold strip, strip_by. cbn [lstrip_by]. by rewrite Hx.
Qed.

Lemma split_cons_sep c s : split c (c :: s) = [] :: split c s.
Proof. simpl. by rewrite N.eqb_refl. Qed.

Lemma split_cons_other c x s :
  x <> c ->
  split c (x :: s)
  = match split c s with p :: ps => (x :: p) :: ps | [] => [[x]] end.
Proof. intros H. simpl. by destruct (N.eqb_spec x c). Qed.

Lemma split_rstrip X :
  List.map rstrip (split c_pipe (rstrip X))
  = List.map rstrip (split c_pipe X).
Proof.
  induction X as [|x X IH]; [done|]. unfold rstrip in *.
  rewrite rstrip_cons.
  pose proof (split_not_nil c_pipe X) as Hne.
  destruct (rstrip_by is_space X) as [|y r] eqn:Hr.
  - destruct (N.eqb_spec x c_pipe) as [->|Hne'].
    + rewrite space_not_pipe, !split_cons_sep. cbn [List.map].
      by rewrite <- IH.
    + rewrite (split_cons_other _ x X) by done.
      destruct (split c_pipe X) as [|q qs]; [done|].
      cbn [split List.map] in IH. injection IH as Hq Hqs.
      symmetry in Hqs. apply map_eq_nil in Hqs as ->.
      cbn [List.map]. rewrite rstrip_cons, <- Hq.
      destruct (is_space x) eqn:Hx; [done|].
      rewrite (split_cons_other _ x []) by done. cbn [split List.map].
      by rewrite rstrip_cons, Hx.
  - destruct (N.eqb_spec x c_pipe) as [->|Hne'].
    + rewrite !split_cons_sep. cbn [List.map]. by rewrite IH.
    + rewrite !(split_cons_other _ x) by done.
      pose proof (split_not_nil c_pipe (y :: r)) as Hne2.
      destruct (split c_pipe (y :: r)) as [|q' qs']; [done|].
      destruct (split c_pipe X) as [|q qs]; [done|].
      cbn [List.map] in *. injection IH as Hq Hqs.
      by rewrite !rstrip_cons, Hq, Hqs.
Qed.

Lemma split_strip X :
  List.map strip (split c_pipe (strip X)) = List.map strip (split c_pipe X).
Proof.
  rewrite <- (split_lstrip X).
  etransitivity; [|etransitivity].
  - apply (List.map_ext _ (fun s => lstrip_by is_space (rstrip s))), strip_lr.
  - rewrite <- (List.map_map rstrip (lstrip_by is_space)).
    unfold strip, strip_by. fold (rstrip (lstrip_by is_space X)).
    rewrite split_rstrip. by rewrite List.map_map.
  - symmetry. apply List.map_ext, strip_lr.
Qed.

(** A padded plain cell strips back to the cell. *)
Lemma strip_pad c : strip c = c -> strip (pad c) = c.
Proof.
  intros Hc. unfold pad.
  assert (Hl : lstrip_by is_space c = c)
    by (rewrite <- Hc; apply lstrip_strip).
  assert (Hr : rstrip c = c) by (rewrite <- Hc; apply rstrip_strip).
  unfold strip, strip_by. cbn [lstrip_by is_space].
  change (is_space c_space) with true. cbn match.
  destruct c as [|x c]; [done|].
  pose proof (lstrip_fixed_head _ _ _ Hl) as Hx.
  cbn [app lstrip_by]. rewrite Hx.
  change (x :: c ++ [c_space]) with ((x :: c) ++ [c_space]).
  by rewrite rstrip_snoc_drop.
Qed.

Lemma body_cons r rs : body (r :: rs) = r ++ c_pipe :: body rs.
Proof. unfold body. simpl. by rewrite <- app_assoc. Qed.

Lemma body_snoc rs r : body (rs ++ [r]) = body rs ++ r ++ [c_pipe].
Proof.
  unfold body. rewrite List.map_app, concat_app. simpl. by rewrite app_nil_r.
Qed.

Lemma line_of_ends rs :
  rs <> [] -> exists m, line_of rs = c_pipe :: m ++ [c_pipe].
Proof.
  intros Hne. destruct (exists_last Hne) as (rs' & r & ->).
  exists (body rs' ++ r). unfold line_of. by rewrite body_snoc, app_assoc.
Qed.

Lemma strip_line rs : rs <> [] -> strip (line_of rs) = line_of rs.
Proof.
  intros Hne. destruct (line_of_ends rs Hne) as [m ->].
  by apply strip_by_ends.
Qed.

Lemma is_row_ends m : is_row (c_pipe :: m ++ [c_pipe]) = true.
Proof.
  unfold is_row, endswith.
  change (c_pipe :: m ++ [c_pipe]) with ((c_pipe :: m) ++ [c_pipe]) at 2.
  by rewrite rev_app_distr.
Qed.

Lemma is_row_line rs : rs <> [] -> is_row (line_of rs) = true.
Proof.
  intros Hne. destruct (line_of_ends rs Hne) as [m ->]. apply is_row_ends.
Qed.

Lemma split_body rs :
  Forall (fun r => c_pipe ∉ r) rs -> split c_pipe (body rs) = rs ++ [[]].
Proof.
  induction 1 as [|r rs Hr _ IH]; [done|].
  by rewrite body_cons, split_app, IH.
Qed.

Lemma split_line rs :
  Forall (fun r => c_pipe ∉ r) rs ->
  split c_pipe (line_of rs) = [] :: rs ++ [[]].
Proof.
  intros H. unfold line_of. by rewrite split_cons_sep, split_body.
Qed.

Lemma cells_of_line rs :
  Forall (fun r => c_pipe ∉ r) rs -> cells_of (line_of rs) = rs.
Proof.
  intros H. unfold cells_of. rewrite split_line by done.
  cbn [length]. rewrite length_app. cbn [length].
  replace (S (length rs + 1) - 1)%nat with (S (length rs)) by lia.
  cbn [take drop]. rewrite take_app_length. done.
Qed.

Lemma count_line rs :
  Forall (fun r => c_pipe ∉ r) rs ->
  count_char c_pipe (line_of rs) = S (length rs).
Proof.
  intros H. pose proof (split_length c_pipe (line_of rs)) as Hl.
  rewrite split_line in Hl by done. cbn [length] in Hl.
  rewrite length_app in Hl. cbn [length] in Hl. lia.
Qed.

Lemma notin_body c rs :
  c <> c_pipe -> Forall (fun r => c ∉ r) rs -> c ∉ body rs.
Proof.
  intros Hc. induction 1 as [|r rs Hr _ IH].
  - apply not_elem_of_nil.
  - rewrite body_cons. rewrite elem_of_app, elem_of_cons. naive_solver.
Qed.

Lemma notin_line c rs :
  c <> c_pipe -> Forall (fun r => c ∉ r) rs -> c ∉ line_of rs.
Proof.
  intros Hc H. unfold line_of. rewrite elem_of_cons.
  intros [?|?]; [done|]. by eapply notin_body.
Qed.

Lemma join_lines sep rss :
  rss <> [] -> join sep (List.map line_of rss) = c_pipe :: inner sep rss.
Proof.
  induction rss as [|rs rss IH]; [done|]. intros _.
  destruct rss as [|rs2 rss]; [done|].
  cbn [List.map] in *. rewrite join_cons2, IH by done.
  unfold line_of. cbn [inner]. by rewrite <- app_comm_cons.
Qed.

Lemma replace_absent f old new s :
  absent old s = true -> replace_fuel f old new s = s.
Proof.
  revert s. induction f as [|f IH]; intros s H; [done|].
  destruct s as [|x s]; [done|]. cbn [replace_fuel].
  cbn [absent] in H. apply andb_true_iff in H as [H1 H2].
  apply negb_true_iff in H1. rewrite H1. f_equal. by apply IH.
Qed.

Lemma absent_region a r s :
  c_pipe ∉ r -> last r <> Some a ->
  absent [a; c_pipe] s = true -> absent [a; c_pipe] (r ++ s) = true.
Proof.
  intros Hp Hl Hs. induction r as [|x r IH]; [done|].
  apply not_elem_of_cons in Hp as [Hx Hr].
  cbn [app absent]. apply andb_true_iff. split.
  - apply negb_true_iff. cbn [startswith].
    destruct r as [|y r].
    + destruct (N.eqb_spec a x) as [->|_]; [by destruct Hl|done].
    + apply not_elem_of_cons in Hr as [Hy _]. cbn [app].
      destruct (N.eqb_spec c_pipe y) as [<-|_]; [done|].
      by rewrite andb_false_r.
  - apply IH; [done|]. destruct r as [|y r]; [done|]. by rewrite last_cons_cons in Hl.
Qed.

Lemma absent_pipe a X :
  head X <> Some c_pipe ->
  absent [a; c_pipe] X = true -> absent [a; c_pipe] (c_pipe :: X) = true.
Proof.
  intros Hh HX. cbn [absent]. rewrite HX, andb_true_r.
  apply negb_true_iff. cbn [startswith].
  destruct X as [|y X]; [by rewrite andb_false_r|].
  destruct (N.eqb_spec c_pipe y) as [<-|_]; [by destruct Hh|].
  by rewrite andb_false_r.
Qed.

Lemma absent_body a rs Z :
  Forall (fun r => r <> [] /\ (c_pipe ∉ r) /\ last r <> Some a) rs ->
  absent [a; c_pipe] Z = true -> head Z <> Some c_pipe ->
  absent [a; c_pipe] (body rs ++ Z) = true
  /\ head (body rs ++ Z) <> Some c_pipe.
Proof.
  intros H HZ Hh. induction H as [|r rs (Hne & Hp & Hl) _ [IH1 IH2]]; [done|].
  rewrite body_cons, <- app_assoc. cbn [app]. split.
  - apply absent_region; [done..|]. by apply absent_pipe.
  - destruct r as [|x r]; [done|]. cbn [app head].
    apply not_elem_of_cons in Hp as [Hx _]. congruence.
Qed.

Lemma absent_inner a rss :
  a <> c_nl ->
  Forall (Forall (fun r => r <> [] /\ (c_pipe ∉ r) /\ last r <> Some a)) rss ->
  absent [a; c_pipe] (inner [c_nl] rss) = true
  /\ head (inner [c_nl] rss) <> Some c_pipe.
Proof.
  intros Ha H. induction H as [|rs rss Hrs _ [IH1 IH2]]; [done|].
  destruct rss as [|rs2 rss].
  - cbn [inner]. rewrite <- (app_nil_r (body rs)). by apply absent_body.
  - change (inner [c_nl] (rs :: rs2 :: rss))
      with (body rs ++ c_nl :: c_pipe :: inner [c_nl] (rs2 :: rss)).
    apply absent_body; [done| |done].
    cbn [absent]. apply andb_true_iff. split.
    + apply negb_true_iff. cbn [startswith].
      by destruct (N.eqb_spec a c_nl).
    + by apply absent_pipe.
Qed.

Lemma replace_sub1 f c new s :
  (length s <= f)%nat -> replace_fuel f [c] new s = sub1 c new s.
Proof.
  revert s. induction f as [|f IH]; intros s Hf.
  - by destruct s; [|cbn [length] in Hf; lia].
  - destruct s as [|x s]; [done|]. cbn [replace_fuel startswith length drop].
    cbn [length] in Hf. rewrite andb_true_r. unfold sub1. cbn [List.map concat].
    fold (sub1 c new s). rewrite drop_0, !(IH s) by lia.
    by destruct (c =? x).
Qed.

Lemma sub1_app c new s t : sub1 c new (s ++ t) = sub1 c new s ++ sub1 c new t.
Proof. unfold sub1. by rewrite List.map_app, concat_app. Qed.

Lemma sub1_notin c new s : c ∉ s -> sub1 c new s = s.
Proof.
  induction s as [|x s IH]; [done|]. intros [Hx Hs]%not_elem_of_cons.
  unfold sub1. cbn [List.map concat]. fold (sub1 c new s). rewrite IH by done.
  by destruct (N.eqb_spec c x).
Qed.

Lemma sub1_inner new rss :
  Forall (Forall (fun r => c_nl ∉ r)) rss ->
  sub1 c_nl new (inner [c_nl] rss) = inner new rss.
Proof.
  induction 1 as [|rs rss Hrs _ IH]; [done|].
  assert (Hb : sub1 c_nl new (body rs) = body rs)
    by (apply sub1_notin, notin_body; done).
  destruct rss as [|rs2 rss]; [done|].
  change (inner [c_nl] (rs :: rs2 :: rss))
    with (body rs ++ [c_nl] ++ [c_pipe] ++ inner [c_nl] (rs2 :: rss)).
  rewrite !sub1_app, Hb, IH.
  change (sub1 c_nl new [c_nl]) with (new ++ []).
  change (sub1 c_nl new [c_pipe]) with [c_pipe].
  by rewrite app_nil_r.
Qed.

(** *** The break-tag substitution *)

Lemma lstrip_by_length p s : (length (lstrip_by p s) <= length s)%nat.
Proof.
  destruct (lstrip_by_suffix p s) as (pre & Hs & _).
  rewrite Hs at 2. rewrite length_app. lia.
Qed.

Lemma match_br_length s rest :
  match_br s = Some rest -> (length rest < length s)%nat.
Proof.
  destruct s as [|c r]; [done|]. cbn [match_br].
  destruct (c =? c_pipe); [|done].
  destruct (startswith _ _); [|done].
  destruct (lstrip_by is_space (drop 4 _)) as [|q r3] eqn:E; [done|].
  destruct (q =? c_pipe); [|done]. intros [= <-].
  pose proof (lstrip_by_length is_space (drop 4 (lstrip_by is_space r))) as H1.
  pose proof (lstrip_by_length is_space r) as H2.
  rewrite E in H1. rewrite length_drop in H1. cbn [length] in *. lia.
Qed.

Lemma sub_br_fuel_any f1 : forall f2 s,
  (length s <= f1)%nat -> (length s <= f2)%nat ->
  sub_br_fuel f1 s = sub_br_fuel f2 s.
Proof.
  induction f1 as [|f1 IH]; intros f2 s H1 H2.
  - destruct s; [by destruct f2|simpl in H1; lia].
  - destruct s as [|c r]; [by destruct f2|].
    destruct f2 as [|f2]; [simpl in H2; lia|].
    cbn [sub_br_fuel]. cbn [length] in *.
    destruct (match_br (c :: r)) as [rest|] eqn:Hm.
    + apply match_br_length in Hm. cbn [length] in Hm.
      do 3 f_equal. apply IH; lia.
    + f_equal. apply IH; lia.
Qed.

Lemma sub_br_none c r :
  match_br (c :: r) = None -> sub_br (c :: r) = c :: sub_br r.
Proof. intros H. unfold sub_br. cbn [length sub_br_fuel]. by rewrite H. Qed.

Lemma sub_br_some c r rest :
  match_br (c :: r) = Some rest ->
  sub_br (c :: r) = c_pipe :: c_nl :: c_pipe :: sub_br rest.
Proof.
  intros H. unfold sub_br. cbn [length sub_br_fuel]. rewrite H.
  apply match_br_length in H. cbn [length] in H.
  do 3 f_equal. apply sub_br_fuel_any; lia.
Qed.

Lemma sub_br_skip u s : c_pipe ∉ u -> sub_br (u ++ s) = u ++ sub_br s.
Proof.
  induction u as [|x u IH]; [done|]. intros [Hx Hu]%not_elem_of_cons.
  cbn [app]. rewrite sub_br_none, IH; [done..|].
  cbn [match_br]. by destruct (N.eqb_spec x c_pipe).
Qed.

Lemma match_br_boundary W :
  match_br (c_pipe :: lit "<br>" ++ c_pipe :: W) = Some W.
Proof. reflexivity. Qed.

Lemma sub_br_line rs Z Z' :
  Forall region_ok rs -> line_end Z Z' ->
  sub_br (c_pipe :: body rs ++ Z) = c_pipe :: body rs ++ Z'.
Proof.
  intros H HZ. induction H as [|r rs (_ & Hp & _ & _ & Hm) _ IH].
  - destruct HZ as [|W]; [done|].
    change (body [] ++ ?x) with x. symmetry.
    by rewrite (sub_br_some _ _ W (match_br_boundary W)).
  - rewrite body_cons, <- app_assoc. cbn [app].
    rewrite sub_br_none by apply Hm. rewrite sub_br_skip by done.
    by rewrite IH, <- app_assoc.
Qed.

Lemma sub_br_body rs Z Z' :
  rs <> [] -> Forall region_ok rs -> line_end Z Z' ->
  sub_br (body rs ++ Z) = body rs ++ Z'.
Proof.
  intros Hne H HZ. destruct rs as [|r rs]; [done|].
  inversion H as [|? ? (_ & Hp & _) Hrs]; subst.
  rewrite body_cons, <- app_assoc. cbn [app].
  rewrite sub_br_skip by done.
  by rewrite (sub_br_line rs Z Z'), <- app_assoc.
Qed.

Lemma sub_br_inner rss :
  Forall (fun rs => rs <> [] /\ Forall region_ok rs) rss ->
  sub_br (inner (lit "<br>") rss) = inner [c_nl] rss.
Proof.
  induction 1 as [|rs rss [Hne Hrs] _ IH]; [done|].
  destruct rss as [|rs2 rss].
  - cbn [inner]. rewrite <- (app_nil_r (body rs)) at 1.
    rewrite (sub_br_body rs [] []); [by rewrite app_nil_r|done..|constructor].
  - change (inner (lit "<br>") (rs :: rs2 :: rss))
      with (body rs ++ lit "<br>" ++ c_pipe :: inner (lit "<br>") (rs2 :: rss)).
    rewrite (sub_br_body rs _ _ Hne Hrs (end_of_line _)). by rewrite IH.
Qed.

Lemma sub_br_text rss :
  rss <> [] ->
  Forall (fun rs => rs <> [] /\ Forall region_ok rs) rss ->
  sub_br (c_pipe :: inner (lit "<br>") rss) = c_pipe :: inner [c_nl] rss.
Proof.
  intros Hne H. rewrite sub_br_none; [by rewrite sub_br_inner|].
  destruct rss as [|rs rss]; [done|].
  inversion H as [|? ? [Hrs Hok] _]; subst.
  destruct rs as [|r rs]; [done|].
  inversion Hok as [|? ? (_ & _ & _ & _ & Hm) _]; subst.
  destruct rss as [|rs2 rss]; cbn [inner]; rewrite body_cons.
  - apply Hm.
  - rewrite <- app_assoc. cbn [app]. apply Hm.
Qed.

Ltac notin_lit :=
  vm_compute; let H := fresh in
  intros H; repeat (apply elem_of_cons in H as [H|H]; [done|]);
  by apply elem_of_nil in H.

Lemma startswith_br_pad c Z :
  startswith (lit "<br>") c = false ->
  startswith (lit "<br>") (c ++ c_space :: Z) = false.
Proof.
  change (lit "<br>") with [60; 98; 114; 62].
  destruct c as [|a [|b [|d [|e c]]]]; cbn [app startswith];
    try done; intros H;
    repeat match goal with
           | |- context [(?x =? ?y)] =>
               lazymatch x with
               | N.pos _ => lazymatch y with N.pos _ => fail | _ => idtac end
               | _ => idtac
               end;
               destruct (x =? y); cbn [andb] in *; try done
           end.
Qed.

Lemma lstrip_space s :
  lstrip_by is_space (c_space :: s) = lstrip_by is_space s.
Proof. done. Qed.

Lemma region_pad c : cell_ok c -> region_ok (pad c).
Proof.
  intros (Hs & Hf & Hbr). unfold pad.
  assert (Hp : c_pipe ∉ c) by (rewrite Forall_forall in Hf; intros H; by destruct (Hf _ H)).
  assert (Hn : c_nl ∉ c)
    by (rewrite Forall_forall in Hf; intros H; by destruct (Hf _ H) as (_ & ? & _)).
  split; [done|]. split; [|split; [|split]].
  - rewrite elem_of_cons, elem_of_app, list_elem_of_singleton. by intros [?|[?|?]].
  - rewrite elem_of_cons, elem_of_app, list_elem_of_singleton. by intros [?|[?|?]].
  - change (c_space :: c ++ [c_space]) with ((c_space :: c) ++ [c_space]).
    by rewrite last_snoc.
  - intros Y. unfold match_br. change (c_pipe =? c_pipe) with true. cbv iota.
    change ((c_space :: c ++ [c_space]) ++ c_pipe :: Y)
      with (c_space :: (c ++ [c_space]) ++ c_pipe :: Y).
    rewrite lstrip_space, <- app_assoc. cbn [app].
    assert (Hl : lstrip_by is_space c = c)
      by (rewrite <- Hs; apply lstrip_strip).
    destruct c as [|x c]; [done|].
    apply lstrip_fixed_head in Hl.
    rewrite (lstrip_by_id _ _ x (c ++ c_space :: c_pipe :: Y)) by done.
    by rewrite startswith_br_pad.
Qed.

Lemma region_dashes : region_ok (lit "---").
Proof.
  split; [done|]. split; [notin_lit|]. split; [notin_lit|]. split; [done|].
  intros Y. reflexivity.
Qed.

(** *** Divider rows *)

Lemma divider_re_line s : is_divider_re s = true -> is_divider_line s = true.
Proof.
  unfold is_divider_re, is_divider_line. destruct s as [|c rest]; [done|].
  intros [Hc H]%andb_true_iff. apply N.eqb_eq in Hc as ->.
  destruct (rev rest) as [|l mid] eqn:Hr; [done|].
  apply andb_true_iff in H as [[Hl _]%andb_true_iff Hm].
  apply N.eqb_eq in Hl as ->.
  apply (f_equal (@rev _)) in Hr. rewrite rev_involutive in Hr. subst rest.
  apply bool_decide_eq_true. apply strip_by_all.
  apply forallb_forall. intros x Hx. unfold remove_char in Hx.
  apply filter_In in Hx as [Hx H1]. apply filter_In in Hx as [Hx H2].
  apply filter_In in Hx as [Hx H3].
  apply negb_true_iff in H1, H2, H3.
  assert (Hd : divider_char x = true).
  { destruct Hx as [<-|Hx]; [done|]. cbn [rev] in Hx.
    apply in_app_or in Hx as [Hx|[<-|[]]]; [|done].
    rewrite forallb_forall in Hm. apply Hm. by apply in_rev. }
  unfold divider_char in Hd. rewrite H1, H2, H3 in Hd.
  by rewrite !orb_false_r in Hd.
Qed.

Lemma body_dashes n :
  forallb divider_char (body (replicate n (lit "---"))) = true.
Proof.
  induction n as [|n IH]; [done|]. cbn [replicate]. rewrite body_cons.
  rewrite forallb_app. cbn [forallb]. by rewrite IH.
Qed.

Lemma divider_row_re n : n <> 0%nat -> is_divider_re (divider_row n) = true.
Proof.
  intros Hn. unfold divider_row, line_of, is_divider_re.
  change (c_pipe =? c_pipe) with true. cbn [andb].
  destruct n as [|n]; [done|].
  replace (replicate (S n) (lit "---"))
    with (replicate n (lit "---") ++ [lit "---"]).
  2:{ change [lit "---"] with (replicate 1 (lit "---")).
      rewrite <- replicate_add. f_equal. lia. }
  rewrite body_snoc, app_assoc, rev_app_distr. cbn [rev app].
  change (c_pipe =? c_pipe) with true. cbn [andb].
  apply andb_true_iff. split.
  - rewrite rev_app_distr. done.
  - apply forallb_forall. intros x Hx%in_rev.
    apply in_app_or in Hx as [Hx|Hx].
    + pose proof (body_dashes n) as H. rewrite forallb_forall in H. by apply H.
    + repeat (destruct Hx as [<-|Hx]; [done|]). done.
Qed.

Lemma last_notin (x : char) r : x ∉ r -> last r <> Some x.
Proof.
  intros H Hl. apply H. destruct (last_Some r x) as [[l' ->] _]; [done|].
  apply elem_of_app. right. by left.
Qed.

Lemma inner_last sep rss :
  rss <> [] -> Forall (fun rs => rs <> []) rss ->
  exists M, inner sep rss = M ++ [c_pipe].
Proof.
  intros Hne H. induction H as [|rs rss Hrs _ IH]; [done|].
  destruct (exists_last Hrs) as (rs' & r & ->).
  destruct rss as [|rs2 rss].
  - exists (body rs' ++ r). cbn [inner]. by rewrite body_snoc, app_assoc.
  - destruct IH as [M HM]; [done|].
    exists (body (rs' ++ [r]) ++ sep ++ c_pipe :: M).
    change (inner sep ((rs' ++ [r]) :: rs2 :: rss))
      with (body (rs' ++ [r]) ++ sep ++ c_pipe :: inner sep (rs2 :: rss)).
    rewrite HM. by rewrite <- !app_assoc.
Qed.

Lemma rfind_snoc c m : rfind_char c (m ++ [c]) = Some (length m).
Proof.
  unfold rfind_char. rewrite rev_app_distr. cbn [rev app find_char].
  rewrite N.eqb_refl. cbn [fmap option_fmap option_map]. f_equal.
  rewrite length_app. cbn [length]. lia.
Qed.

Lemma filter_all {A} (P : A -> bool) l :
  Forall (fun x => P x = true) l -> List.filter P l = l.
Proof. induction 1 as [|x l Hx _ IH]; [done|]. simpl. by rewrite Hx, IH. Qed.

Section Sanitize.

Variable kws : list str.
Variable n : nat.
Variable rss : list (list str).

Hypothesis rss_ne : rss <> [].
Hypothesis n_ne : n <> 0%nat.
Hypothesis rss_ok :
  Forall (fun rs => rs <> [] /\ Forall region_ok rs /\ length rs = n
                    /\ _is_keyword_row kws (line_of rs) = false) rss.

Let lines := List.map line_of rss.
Let T := join [c_nl] lines.

Lemma rss_regions a :
  a = c_pipe \/ a = c_backslash ->
  Forall (Forall (fun r => r <> [] /\ (c_pipe ∉ r) /\ last r <> Some a)) rss.
Proof using rss_ok.
  intros Ha. eapply Forall_impl; [apply rss_ok|].
  intros rs (_ & Hrs & _). eapply Forall_impl; [apply Hrs|].
  intros r (H1 & H2 & _ & H4 & _). split; [done|]. split; [done|].
  destruct Ha as [->| ->]; [by apply last_notin|done].
Qed.

Lemma text_inner : T = c_pipe :: inner [c_nl] rss.
Proof using rss_ne. by apply join_lines. Qed.

Lemma text_absent a :
  a = c_pipe \/ a = c_backslash -> absent [a; c_pipe] T = true.
Proof using rss_ne rss_ok.
  intros Ha. rewrite text_inner.
  destruct (absent_inner a rss) as [H1 H2];
    [by destruct Ha as [->| ->]|by apply rss_regions|].
  by apply absent_pipe.
Qed.

Lemma text_ends : exists M, T = c_pipe :: M ++ [c_pipe].
Proof using rss_ne rss_ok.
  rewrite text_inner. destruct (inner_last [c_nl] rss) as [M ->]; [done| |by exists M].
  eapply Forall_impl; [apply rss_ok|]. by intros rs [? _].
Qed.

Lemma text_strip : strip T = T.
Proof using rss_ne rss_ok.
  destruct text_ends as [M ->]. by apply strip_by_ends.
Qed.

Lemma text_split : split c_nl T = lines.
Proof using rss_ne rss_ok.
  apply split_join; [by destruct rss|].
  apply Forall_fmap. eapply Forall_impl; [apply rss_ok|].
  intros rs (_ & Hrs & _). unfold compose. apply notin_line; [done|].
  eapply Forall_impl; [apply Hrs|]. by intros r (_ & _ & ? & _).
Qed.

Lemma lines_nonblank :
  List.filter (fun line => negb (bool_decide (strip line = []))) lines = lines.
Proof using rss_ok.
  apply filter_all, Forall_fmap. eapply Forall_impl; [apply rss_ok|].
  intros rs (Hne & _). unfold compose. rewrite strip_line by done.
  by apply negb_true_iff, bool_decide_eq_false.
Qed.

Lemma text_br : sub_br (replace [c_nl] (lit "<br>") T) = T.
Proof using rss_ne rss_ok.
  unfold replace. rewrite replace_sub1 by done. rewrite text_inner.
  change (sub1 c_nl (lit "<br>") (c_pipe :: inner [c_nl] rss))
    with (c_pipe :: sub1 c_nl (lit "<br>") (inner [c_nl] rss)).
  rewrite sub1_inner.
  - apply sub_br_text; [done|]. eapply Forall_impl; [apply rss_ok|].
    by intros rs (? & ? & _).
  - eapply Forall_impl; [apply rss_ok|]. intros rs (_ & Hrs & _).
    eapply Forall_impl; [apply Hrs|]. by intros r (_ & _ & ? & _).
Qed.

Lemma lines_valid :
  List.map (validate_line kws n) lines
  = List.map (fun l => ([l], [])) lines.
Proof using rss_ok.
  unfold lines. apply Forall_fmap_ext_1, Forall_fmap.
  eapply Forall_impl; [apply rss_ok|]. intros rs (Hne & Hrs & Hlen & Hkw).
  unfold compose, validate_line. rewrite Hkw, is_row_line by done.
  rewrite cells_of_line.
  - by rewrite Hlen, Nat.eqb_refl, strip_line.
  - eapply Forall_impl; [apply Hrs|]. by intros r (_ & ? & _).
Qed.

Lemma concat_singletons {A} (l : list A) : concat (List.map (fun x => [x]) l) = l.
Proof. induction l as [|x l IH]; [done|]. simpl. by rewrite IH. Qed.

Lemma concat_nils {A B} (l : list A) :
  concat (List.map (fun _ => @nil B) l) = [].
Proof. by induction l. Qed.

Hypothesis count_ok : column_count lines = n.

Lemma sanitize_lines : sanitize_table kws T = inr (T, []).
Proof using All.
  assert (H1 : replace [c_pipe; c_pipe] [c_dvline] T = T)
    by (apply replace_absent, text_absent; by left).
  assert (H2 : replace [c_backslash; c_pipe] [c_brokenbar] T = T)
    by (apply replace_absent, text_absent; by right).
  unfold sanitize_table. cbv zeta. rewrite !H1, !H2.
  destruct text_ends as [M HM].
  assert (Hf : find_char c_pipe T = Some 0%nat) by (by rewrite HM).
  assert (Hr : rfind_char c_pipe T = Some (S (length M))).
  { rewrite HM. change (c_pipe :: M ++ [c_pipe]) with ((c_pipe :: M) ++ [c_pipe]).
    by rewrite rfind_snoc. }
  assert (Hs : slice 0 (S (S (length M))) T = T).
  { unfold slice. rewrite drop_0. apply take_ge. rewrite HM.
    cbn [length]. rewrite length_app. cbn [length]. lia. }
  rewrite Hf, Hr. cbn [Nat.leb]. rewrite Hs, text_strip, text_split.
  rewrite lines_nonblank, count_ok.
  destruct (Nat.eqb_spec n 0) as [?|_]; [done|].
  fold T. rewrite text_br, text_strip, text_split, lines_valid.
  rewrite !List.map_map. cbn [fst snd].
  by rewrite concat_singletons, concat_nils.
Qed.

End Sanitize.

(** *** Column count and blocks *)

Lemma column_count_divider h n rest :
  n <> 0%nat -> is_divider_re (strip h) = false ->
  column_count (h :: divider_row n :: rest) = n.
Proof.
  intros Hn Hh.
  assert (Hne : replicate n (lit "---") <> []) by (by destruct n).
  assert (H1 : strip (divider_row n) = divider_row n) by (by apply strip_line).
  assert (H2 : is_divider_re (divider_row n) = true) by (by apply divider_row_re).
  assert (H3 : count_char c_pipe (divider_row n) = S n).
  { unfold divider_row. rewrite count_line; [by rewrite length_replicate|].
    apply Forall_replicate. notin_lit. }
  unfold column_count. cbv zeta. cbn [List.find]. rewrite Hh, H1, H2, H3.
  replace (S n - 1)%nat with n by lia.
  by destruct (Nat.eqb_spec n 0).
Qed.

Lemma block_step_data b l :
  is_row l = true -> strip l = l -> is_divider_line l = false ->
  block_step b l
  = mkBlocks (tables b) (current_table b ++ [l]) (table_found b).
Proof. intros H1 H2 H3. unfold block_step. by rewrite H2, H1, H3. Qed.

Lemma fold_block_data ls : forall b,
  Forall (fun l => is_row l = true /\ strip l = l
                   /\ is_divider_line l = false) ls ->
  fold_left block_step ls b
  = mkBlocks (tables b) (current_table b ++ ls) (table_found b).
Proof.
  induction ls as [|l ls IH]; intros b H.
  - cbn [fold_left]. rewrite app_nil_r. by destruct b.
  - inversion H as [|? ? (H1 & H2 & H3) Hls]; subst. cbn [fold_left].
    rewrite block_step_data, IH by done. cbn [tables current_table table_found].
    by rewrite <- app_assoc.
Qed.

(** *** Rows *)

Lemma elem_of_lstrip p x s : x ∈ lstrip_by p s -> x ∈ s.
Proof.
  intros H. destruct (lstrip_by_suffix p s) as (pre & Hs & _).
  rewrite Hs. apply elem_of_app. by right.
Qed.

Lemma elem_of_strip_by p x s : x ∈ strip_by p s -> x ∈ s.
Proof.
  unfold strip_by, rstrip_by. rewrite list_elem_of_In, <- in_rev.
  rewrite <- list_elem_of_In. intros H%elem_of_lstrip.
  rewrite list_elem_of_In, <- in_rev, <- list_elem_of_In in H.
  by apply elem_of_lstrip in H.
Qed.

Lemma elem_of_join sep parts p x : p ∈ parts -> x ∈ p -> x ∈ join sep parts.
Proof.
  induction parts as [|q parts IH]; [by intros ?%elem_of_nil|].
  intros Hp Hx. destruct parts as [|q2 parts].
  - apply list_elem_of_singleton in Hp as ->. done.
  - rewrite join_cons2, !elem_of_app.
    apply elem_of_cons in Hp as [->|Hp]; [by left|]. right. right. by apply IH.
Qed.

Lemma elem_of_split c s p x : p ∈ split c s -> x ∈ p -> x ∈ s.
Proof.
  intros Hp Hx. rewrite <- (join_split c s). by eapply elem_of_join.
Qed.

Lemma remove_markdown_plain col :
  42 ∉ col -> 95 ∉ col -> remove_markdown col = strip col.
Proof.
  intros H1 H2. unfold remove_markdown.
  rewrite (replace_id (lit "***") _ col 42) by (done || by left).
  rewrite (replace_id (lit "**") _ col 42) by (done || by left).
  rewrite (replace_id (lit " _") _ col 95) by (done || (right; by left)).
  by rewrite (replace_id (lit "_ ") _ col 95) by (done || by left).
Qed.

Lemma split_body_app rs t :
  Forall (fun r => c_pipe ∉ r) rs -> c_pipe ∉ t ->
  split c_pipe (body rs ++ t) = rs ++ [t].
Proof.
  intros H Ht. induction H as [|r rs Hr _ IH].
  - by apply split_notin.
  - rewrite body_cons, <- app_assoc. cbn [app]. by rewrite split_app, IH.
Qed.

Lemma pad_notin x c : x <> c_space -> x ∉ c -> x ∉ pad c.
Proof.
  intros H1 H2. unfold pad.
  rewrite elem_of_cons, elem_of_app, list_elem_of_singleton. by intros [?|[?|?]].
Qed.

Lemma cell_notin c :
  cell_ok c -> (c_pipe ∉ c) /\ (c_nl ∉ c) /\ (42 ∉ c) /\ (95 ∉ c).
Proof.
  intros (_ & Hf & _). rewrite Forall_forall in Hf.
  repeat split; intros H; destruct (Hf _ H) as (? & ? & ? & ?); done.
Qed.

Lemma unwrap_row cells :
  cells <> [] -> Forall cell_ok cells ->
  exists rs c,
    cells = rs ++ [c]
    /\ strip_chars [c_pipe] (render_row cells)
       = body (List.map pad rs) ++ pad c.
Proof.
  intros Hne Hok. destruct (exists_last Hne) as (rs & c & ->).
  exists rs, c. split; [done|].
  unfold render_row, line_of. rewrite List.map_app. cbn [List.map].
  rewrite body_snoc. unfold strip_chars, strip_by.
  cbn [lstrip_by]. rewrite bool_decide_eq_true_2 by (by left).
  set (X := body (List.map pad rs) ++ pad c).
  assert (exists X', body (List.map pad rs) ++ c_space :: c = c_space :: X')
    as [X' HX'].
  { destruct rs as [|c1 rs]; [by exists c|]. cbn [List.map].
    rewrite body_cons. unfold pad at 1. eexists. cbn [app]. reflexivity. }
  assert (HX : X = c_space :: X' ++ [c_space]).
  { unfold X. change (pad c) with ((c_space :: c) ++ [c_space]).
    by rewrite app_assoc, HX'. }
  rewrite app_assoc. fold X.
  rewrite (lstrip_by_id _ (X ++ [c_pipe]) c_space (X' ++ [c_space] ++ [c_pipe])).
  - rewrite rstrip_snoc_drop by (apply bool_decide_eq_true; by left).
    rewrite HX. rewrite app_comm_cons. apply rstrip_snoc_keep.
    apply bool_decide_eq_false. by intros ?%list_elem_of_singleton.
  - rewrite HX. cbn [app]. by rewrite <- app_assoc.
  - apply bool_decide_eq_false. by intros ?%list_elem_of_singleton.
Qed.

Lemma trow_cols cells :
  cells <> [] -> Forall cell_ok cells ->
  List.map strip (split c_pipe (trow cells)) = cells.
Proof.
  intros Hne Hok. destruct (unwrap_row cells Hne Hok) as (rs & c & -> & HX).
  unfold trow. rewrite HX, split_strip.
  apply Forall_app in Hok as [Hrs Hc]. inversion Hc as [|? ? Hc' _]; subst.
  rewrite split_body_app.
  - rewrite List.map_app, List.map_map. cbn [List.map].
    rewrite strip_pad by apply Hc'. f_equal.
    rewrite <- (List.map_id rs) at 2. apply Forall_fmap_ext_1.
    eapply Forall_impl; [apply Hrs|]. intros r Hr. by apply strip_pad, Hr.
  - apply Forall_fmap. eapply Forall_impl; [apply Hrs|].
    intros r Hr. unfold compose. apply pad_notin; [done|]. by apply cell_notin.
  - apply pad_notin; [done|]. by apply cell_notin.
Qed.

Lemma trow_plain cells x :
  Forall cell_ok cells -> x = 42 \/ x = 95 -> x ∉ trow cells.
Proof.
  intros Hok Hx H. unfold trow, strip, strip_chars in H.
  do 2 apply elem_of_strip_by in H. revert H.
  unfold render_row. apply notin_line; [by destruct Hx as [->| ->]|].
  apply Forall_fmap. eapply Forall_impl; [apply Hok|].
  intros c Hc. unfold compose. apply pad_notin; [by destruct Hx as [->| ->]|].
  destruct (cell_notin c Hc) as (_ & _ & ? & ?). by destruct Hx as [->| ->].
Qed.

Lemma trow_clean cells :
  cells <> [] -> Forall cell_ok cells -> clean_cols (trow cells) = cells.
Proof.
  intros Hne Hok. rewrite <- (trow_cols cells Hne Hok) at 2.
  unfold clean_cols. apply Forall_fmap_ext_1, Forall_forall.
  intros col Hcol. rewrite remove_markdown_plain.
  - apply strip_by_idem.
  - intros H. eapply (trow_plain cells 42 Hok); [by left|].
    by eapply elem_of_split.
  - intros H. eapply (trow_plain cells 95 Hok); [by right|].
    by eapply elem_of_split.
Qed.

Lemma trow_not_mergeable cid cells :
  cells <> [] -> Forall cell_ok cells -> cells !! cid <> Some [] ->
  mergeable cid (trow cells) = false.
Proof.
  intros Hne Hok Hid. unfold mergeable, rstripped_cols.
  rewrite list_lookup_fmap.
  destruct (split c_pipe (trow cells) !! cid) as [col|] eqn:Hcol; [|done].
  cbn [fmap option_fmap option_map].
  destruct (rstrip col) as [|y r] eqn:Hr; [|done].
  exfalso. apply Hid. rewrite <- (trow_cols cells Hne Hok).
  rewrite list_lookup_fmap, Hcol. cbn. f_equal.
  by rewrite strip_lr, Hr.
Qed.

Lemma merge_none column_id rows :
  rows <> [] ->
  (forall cid, column_id = Some cid ->
     Forall (fun r => mergeable cid r = false) rows) ->
  merge_itemized column_id rows = Some (inr rows).
Proof.
  intros Hne H. destruct column_id as [cid|]; [|done].
  specialize (H cid eq_refl). unfold merge_itemized.
  rewrite merge_loop_spec; [|done|lia|].
  - rewrite <- (app_nil_r rows) at 1.
    rewrite merge_all_pass; [done|done|]. intros _. by apply Forall_tail.
  - intros pre e l -> _ [He _].
    apply Forall_app in H as [_ H]. inversion H; subst. congruence.
Qed.

Lemma keyword_divider kws l :
  is_row (strip l) = true -> is_divider_re (strip l) = true ->
  _is_keyword_row kws l = false.
Proof. intros H1 H2. unfold _is_keyword_row. cbv zeta. by rewrite H1, H2. Qed.

Lemma rows_records {Obj} (model : Model Obj) rows :
  Forall (fun cells => cells <> [] /\ Forall cell_ok cells) rows ->
  Forall (convertible model) rows ->
  exists instances,
    rows_instances model (List.map trow rows) = inr instances
    /\ Forall2 (record_of model) rows instances.
Proof.
  induction 1 as [|cells rows [Hne Hok] _ IH]; intros Hc.
  - exists []. by split.
  - inversion Hc as [|? ? [Hint Hcon] Hc']; subst.
    destruct (IH Hc') as (instances & Hrows & Hrec).
    destruct (build_dict_total (annotations model) cells Hint) as [d Hd].
    destruct (Hcon d Hd) as [o Ho].
    exists (o :: instances). cbn [List.map rows_instances].
    unfold row_instance. rewrite trow_clean, Hd, Ho, Hrows by done.
    split; [done|]. constructor; [|done].
    exists d. split; [done|]. split; [done|]. intros j f ty cell Hj Hcell.
    by apply (build_dict_lookup _ _ _ j f ty cell Hd).
Qed.

Section WellFormed.

Context {Obj : Type}.
Variable kws : list str.
Variable model : Model Obj.
Variable column_id : option nat.
Variable header : list str.
Variable rows : list (list str).

Let n := length (annotations model).
Let rss := List.map pad header :: replicate n (lit "---")
             :: List.map (List.map pad) rows.

Hypothesis n_ne : n <> 0%nat.
Hypothesis header_ok : row_ok kws n header.
Hypothesis rows_ok : Forall (row_ok kws n) rows.

Lemma table_text_lines :
  table_text header rows = join [c_nl] (List.map line_of rss).
Proof using header_ok.
  unfold table_text, rss. cbn [List.map]. destruct header_ok as [-> _].
  fold n. unfold render_row at 1, divider_row. by rewrite List.map_map.
Qed.

Lemma row_regions cells :
  row_ok kws n cells ->
  List.map pad cells <> [] /\ Forall region_ok (List.map pad cells)
  /\ length (List.map pad cells) = n
  /\ _is_keyword_row kws (line_of (List.map pad cells)) = false.
Proof using n_ne.
  intros (Hlen & Hok & Hkw & _). split; [|split; [|split]]; [| | |done].
  - destruct cells; [by rewrite <- Hlen in n_ne|done].
  - apply Forall_fmap. eapply Forall_impl; [apply Hok|]. apply region_pad.
  - by rewrite length_map.
Qed.

Lemma rss_ok :
  Forall (fun rs => rs <> [] /\ Forall region_ok rs /\ length rs = n
                    /\ _is_keyword_row kws (line_of rs) = false) rss.
Proof using n_ne header_ok rows_ok.
  unfold rss. constructor; [by apply row_regions|]. constructor.
  - assert (Hne : replicate n (lit "---") <> [])
      by (destruct n; [done|done]).
    split; [done|]. split; [apply Forall_replicate, region_dashes|].
    split; [apply length_replicate|].
    fold (divider_row n). apply keyword_divider.
    + unfold divider_row. rewrite strip_line by done. by apply is_row_line.
    + unfold divider_row at 1. rewrite strip_line by done.
      by apply divider_row_re.
  - apply Forall_fmap. eapply Forall_impl; [apply rows_ok|]. apply row_regions.
Qed.

Lemma row_not_divider_re cells :
  row_ok kws n cells -> is_divider_re (strip (render_row cells)) = false.
Proof using n_ne.
  intros Hrow. destruct (row_regions cells Hrow) as (Hne & _).
  destruct Hrow as (_ & _ & _ & Hd).
  unfold render_row at 1. rewrite strip_line by done. fold (render_row cells).
  destruct (is_divider_re (render_row cells)) eqn:E; [|done].
  apply divider_re_line in E. congruence.
Qed.

Lemma sanitize_table_text :
  sanitize_table kws (table_text header rows) = inr (table_text header rows, []).
Proof using n_ne header_ok rows_ok.
  rewrite table_text_lines. apply (sanitize_lines kws n rss); [done|done|apply rss_ok|].
  unfold rss. cbn [List.map]. apply column_count_divider; [done|].
  by apply row_not_divider_re.
Qed.

Lemma row_line_data cells :
  row_ok kws n cells ->
  is_row (render_row cells) = true /\ strip (render_row cells) = render_row cells
  /\ is_divider_line (render_row cells) = false.
Proof using n_ne.
  intros Hrow. destruct (row_regions cells Hrow) as (Hne & _).
  destruct Hrow as (_ & _ & _ & Hd).
  split; [by apply is_row_line|]. split; [by apply strip_line|done].
Qed.

Hypothesis rows_ne : rows <> [].

Lemma find_blocks_table_text :
  find_blocks (table_text header rows)
  = mkBlocks [List.map render_row rows] [] true.
Proof using n_ne header_ok rows_ok rows_ne.
  unfold find_blocks. rewrite table_text_lines.
  rewrite (text_split kws n rss) by (done || apply rss_ok).
  unfold rss. cbn [List.map fold_left].
  fold (render_row header). fold (divider_row n).
  destruct (row_line_data header header_ok) as (Hh1 & Hh2 & Hh3).
  rewrite (block_step_data _ (render_row header)) by done.
  cbn [tables current_table table_found app].
  assert (Hne : replicate n (lit "---") <> []) by (by destruct n).
  assert (Hd : block_step (mkBlocks [] [render_row header] false) (divider_row n)
               = mkBlocks [] [] true).
  { unfold block_step. unfold divider_row at 1 2 3.
    rewrite strip_line, is_row_line by done. fold (divider_row n).
    by rewrite divider_re_line by (by apply divider_row_re). }
  rewrite Hd, fold_block_data.
  - cbn [tables current_table table_found app].
    rewrite List.map_map. fold render_row.
    change (fun x => line_of (List.map pad x)) with render_row.
    by destruct rows.
  - apply Forall_fmap, Forall_fmap. eapply Forall_impl; [apply rows_ok|].
    intros cells Hc. unfold compose. fold (render_row cells).
    by apply row_line_data.
Qed.

Hypothesis ids_ok :
  forall cid, column_id = Some cid ->
    Forall (fun cells => cells !! cid <> Some []) rows.
Hypothesis rows_convertible : Forall (convertible model) rows.

Lemma rows_plain : Forall (fun cells => cells <> [] /\ Forall cell_ok cells) rows.
Proof using n_ne rows_ok.
  eapply Forall_impl; [apply rows_ok|]. intros cells (Hlen & Hok & _).
  split; [|done]. destruct cells; [by rewrite <- Hlen in n_ne|done].
Qed.

Lemma table_text_records :
  exists instances,
    md_table_to_pydantic_list kws (table_text header rows) model column_id
    = Some (ReturnsPair instances [])
    /\ Forall2 (record_of model) rows instances.
Proof using All.
  destruct (rows_records model rows rows_plain rows_convertible)
    as (instances & Hrows & Hrec).
  exists instances. split; [|done].
  unfold md_table_to_pydantic_list.
  rewrite sanitize_table_text, find_blocks_table_text.
  cbn [tables all_instances]. unfold table_instances.
  rewrite List.map_map. fold trow.
  change (fun x => strip (strip_chars [c_pipe] (render_row x))) with trow.
  rewrite merge_none.
  - by rewrite Hrows, app_nil_r.
  - by destruct rows.
  - intros cid Hcid. apply Forall_fmap.
    pose proof (ids_ok cid Hcid) as Hids. pose proof rows_plain as Hpl.
    rewrite Forall_forall in *. intros cells Hin. unfold compose.
    destruct (Hpl cells Hin). by apply trow_not_mergeable, Hids.
Qed.

End WellFormed.




End TableRender.
